(** * FeedJournal: a verification development

    A shallow embedding of the journal application: the transcription
    service ([transcribeAudio]), the application component ([App]: entry
    creation, persistence calls, date bucketing) and the capture component
    ([AudioRecorder]: encoding negotiation and resource release).

    Conventions.
    - Timestamps are milliseconds since the epoch, as [Z].
    - A [Date] object is represented by its time value; the local time zone
      is a fixed offset [LocalTZA] (no daylight-saving rules).
    - The locale formatter is the en-US one; it receives exactly the fields
      the source asks for (weekday, month, day).
    - Browser, network and storage calls are explicit: their outcomes are
      inputs of the handlers, their invocations are recorded in a log. *)

From Stdlib Require Import ZArith Lia Ascii String.
From stdpp Require Import base option list sorting gmap strings pretty.

Local Open Scope string_scope.
Local Open Scope list_scope.
Local Open Scope Z_scope.

(** * Calendar arithmetic behind [Date] *)

Module DateModel.

Definition msPerDay : Z := 86400000.

(** ECMAScript [Day(t)]: the day number of a time value. *)
Definition Day (t : Z) : Z := t / msPerDay.

(** ECMAScript [WeekDay(t)]: 0 is Sunday; 1 January 1970 was a Thursday. *)
Definition WeekDay (t : Z) : Z := (Day t + 4) mod 7.

(** Proleptic Gregorian date (year, month 1..12, day 1..31) of a day
    number counted from 1 January 1970. *)
Definition civil_from_days (days : Z) : Z * Z * Z :=
  let z := days + 719468 in
  let era := z / 146097 in
  let doe := z - era * 146097 in
  let yoe := (doe - doe / 1460 + doe / 36524 - doe / 146096) / 365 in
  let doy := doe - (365 * yoe + yoe / 4 - yoe / 100) in
  let mp := (5 * doy + 2) / 153 in
  let d := doy - (153 * mp + 2) / 5 + 1 in
  let m := if mp <? 10 then mp + 3 else mp - 9 in
  let y := yoe + era * 400 in
  (if m <=? 2 then y + 1 else y, m, d).

(** Day number of a proleptic Gregorian date ([MakeDay]). *)
Definition days_from_civil (y m d : Z) : Z :=
  let y' := if m <=? 2 then y - 1 else y in
  let era := y' / 400 in
  let yoe := y' - era * 400 in
  let mp := if m <=? 2 then m + 9 else m - 3 in
  let doy := (153 * mp + 2) / 5 + d - 1 in
  let doe := yoe * 365 + yoe / 4 - yoe / 100 + doy in
  era * 146097 + doe - 719468.

Definition YearFromTime (t : Z) : Z := (civil_from_days (Day t)).1.1.
(** 1..12 here; the source never reads the month as a number. *)
Definition MonthFromTime (t : Z) : Z := (civil_from_days (Day t)).1.2.
Definition DateFromTime (t : Z) : Z := (civil_from_days (Day t)).2.

(** [Date.UTC]-like constructor, used to write time values legibly. *)
Definition MakeTime (y m d hh mm : Z) : Z :=
  days_from_civil y m d * msPerDay + hh * 3600000 + mm * 60000.

Definition weekdayLong (w : Z) : string :=
  match w with
  | 0 => "Sunday" | 1 => "Monday" | 2 => "Tuesday" | 3 => "Wednesday"
  | 4 => "Thursday" | 5 => "Friday" | _ => "Saturday"
  end.

Definition monthLong (m : Z) : string :=
  match m with
  | 1 => "January" | 2 => "February" | 3 => "March" | 4 => "April"
  | 5 => "May" | 6 => "June" | 7 => "July" | 8 => "August"
  | 9 => "September" | 10 => "October" | 11 => "November" | _ => "December"
  end.

Definition weekdayShort (w : Z) : string := String.substring 0 3 (weekdayLong w).
Definition monthShort (m : Z) : string := String.substring 0 3 (monthLong m).

Fixpoint zeros (k : nat) : string :=
  match k with
  | O => ""
  | S k' => String "0" (zeros k')
  end.

(** Decimal numeral of [Z.abs n], left-padded with zeros to [width]
    ([padStart(width, "0")]). *)
Definition padStart0 (width : nat) (n : Z) : string :=
  let s := pretty (Z.abs n) in
  zeros (width - String.length s) +:+ s.

(** The year as [toDateString] prints it: a sign for negative years and
    at least four digits. *)
Definition yearString (y : Z) : string :=
  (if y <? 0 then "-" else "") +:+ padStart0 4 y.

(** The number a string of decimal digits denotes (used in proofs). *)
Fixpoint parseDigits (acc : N) (s : string) : N :=
  match s with
  | EmptyString => acc
  | String c rest => parseDigits (10 * acc + (N_of_ascii c - 48)) rest
  end.

(** [f] takes different values at different integers of [1..n]. *)
Definition distinct_upto (f : Z -> string) (n : nat) : bool :=
  forallb (fun a => forallb (fun b => (a =? b) || negb (String.eqb (f a) (f b)))
                      (map Z.of_nat (seq 1 n)))
          (map Z.of_nat (seq 1 n)).

Section LocalTime.
(** Offset of local time from UTC, in milliseconds. *)
Variable LocalTZA : Z.

Definition LocalTime (t : Z) : Z := t + LocalTZA.

(** [Date.prototype.toDateString]: weekday, month, day and year of the
    local date, as in "Mon Jan 01 2024". *)
Definition toDateString (tv : Z) : string :=
  let t := LocalTime tv in
  weekdayShort (WeekDay t) +:+ " " +:+ monthShort (MonthFromTime t) +:+ " "
    +:+ padStart0 2 (DateFromTime t) +:+ " "
    +:+ yearString (YearFromTime t).

(** [toLocaleDateString(undefined, { weekday: 'long', month: 'long',
    day: 'numeric' })]: only the three requested fields are formatted,
    as in "Monday, January 1". *)
Definition toLocaleDateString_wmd (tv : Z) : string :=
  let t := LocalTime tv in
  weekdayLong (WeekDay t) +:+ ", " +:+ monthLong (MonthFromTime t) +:+ " "
    +:+ pretty (DateFromTime t).

(** [d.setDate(d.getDate() - 1)]: [MakeDay] with the day of the month
    decreased by one, keeping the time within the day. *)
Definition setDate_prev (tv : Z) : Z :=
  let t := LocalTime tv in
  (days_from_civil (YearFromTime t) (MonthFromTime t) (DateFromTime t - 1)) * msPerDay
    + t mod msPerDay - LocalTZA.
End LocalTime.

End DateModel.

Import DateModel.

(** The part of [civil_from_days] that works within one 400-year era:
    year of the era, month and day of a day-of-era (used in proofs). *)
Definition civil_of_doe (doe : Z) : Z * Z * Z :=
  let yoe := (doe - doe / 1460 + doe / 36524 - doe / 146096) / 365 in
  let doy := doe - (365 * yoe + yoe / 4 - yoe / 100) in
  let mp := (5 * doy + 2) / 153 in
  let d := doy - (153 * mp + 2) / 5 + 1 in
  let m := if mp <? 10 then mp + 3 else mp - 9 in
  (yoe, m, d).

(** What [days_from_civil] makes of that triple, within the era. *)
Definition doe_of_civil (yoe m d : Z) : Z :=
  let mp := if m <=? 2 then m + 9 else m - 3 in
  let doy := (153 * mp + 2) / 5 + d - 1 in
  yoe * 365 + yoe / 4 - yoe / 100 + doy.

(** * Data model ([types.ts]) *)

Inductive EntryType := text | audio.

(** A [Blob]: its bytes and its MIME-type tag ([Blob.type]). *)
Record Blob := mkBlob { blob_bytes : list Byte.byte; blob_type : string }.

Record JournalEntry := mkEntry {
  id : string;
  type : EntryType;
  content : string;
  audioBlob : option Blob;
  timestamp : Z
}.

(** [GroupedEntries]: an object used as a map from date key to entries. *)
Abbreviation GroupedEntries := (gmap string (list JournalEntry)).

(** * Date bucketing ([App]) *)

Section Bucketing.
Variable LocalTZA : Z.
(** The value of [new Date()] during one render. *)
Variable now : Z.

(** The key computed in the body of [groupEntriesByDate]. *)
Definition groupKey (entry : JournalEntry) : string :=
  let date := timestamp entry in
  let today := now in
  let yesterday := setDate_prev LocalTZA now in
  let key := toLocaleDateString_wmd LocalTZA date in
  if String.eqb (toDateString LocalTZA date) (toDateString LocalTZA today) then "Today"
  else if String.eqb (toDateString LocalTZA date) (toDateString LocalTZA yesterday) then "Yesterday"
  else key.

Definition groupEntriesByDate (entries : list JournalEntry) : GroupedEntries :=
  foldl (fun (groups : GroupedEntries) entry =>
           let key := groupKey entry in
           let groups := match groups !! key with
                         | None => <[key := []]> groups
                         | Some _ => groups
                         end in
           alter (fun l => l ++ [entry]) key groups)
        ∅ entries.

(** The callback mapped over the entries to build [orderedKeys]. *)
Definition orderedKey (entry : JournalEntry) : string :=
  let date := timestamp entry in
  let today := now in
  let yesterday := setDate_prev LocalTZA now in
  if String.eqb (toDateString LocalTZA date) (toDateString LocalTZA today) then "Today"
  else if String.eqb (toDateString LocalTZA date) (toDateString LocalTZA yesterday) then "Yesterday"
  else toLocaleDateString_wmd LocalTZA date.

(** [Array.from(new Set(xs))]: the distinct elements in the order of
    their first occurrence. *)
Definition arrayFromSet (xs : list string) : list string :=
  foldl (fun seen x => if bool_decide (x ∈ seen) then seen else seen ++ [x]) [] xs.

Definition orderedKeys (entries : list JournalEntry) : list string :=
  arrayFromSet (map orderedKey entries).

(** The rendered sections: [orderedKeys.map(dateKey => groupedEntries[dateKey])].
    [None] stands for the [TypeError] raised by reading [.map] of
    [undefined]. *)
Definition renderGroups (entries : list JournalEntry)
  : option (list (string * list JournalEntry)) :=
  mapM (fun dateKey => (fun es => (dateKey, es)) <$> groupEntriesByDate entries !! dateKey)
       (orderedKeys entries).
End Bucketing.

(** The distinct elements of a list in the order of their first
    occurrence, by recursion on the list (used to state what
    [arrayFromSet] computes). *)
Fixpoint firstOccurrences (xs : list string) : list string :=
  match xs with
  | [] => []
  | x :: rest => x :: filter (fun y => y ≠ x) (firstOccurrences rest)
  end.

(** A sequence cut into blocks of entries sharing a key, no two blocks
    with the same key: the entries of each key are contiguous. *)
Definition keyBlocks (key : JournalEntry -> string)
    (blocks : list (string * list JournalEntry)) : Prop :=
  NoDup (map fst blocks)
  /\ Forall (fun b => b.2 ≠ [] /\ Forall (fun e => key e = b.1) b.2) blocks.

(** [a] may come before [b] in a sequence ordered by timestamp
    descending. *)
Definition desc (a b : JournalEntry) : Prop := timestamp b <= timestamp a.

(** The local calendar day (as a day number) an entry was created on. *)
Definition localDay (LocalTZA : Z) (e : JournalEntry) : Z :=
  Day (LocalTime LocalTZA (timestamp e)).

(** * Effects: thrown values, the platform, the log *)

(** A thrown JavaScript value: an [Error] built by the program, or the
    value with which a browser, provider or storage call rejected. *)
Inductive Exn :=
| JsError (message : string)
| Rejection (cause : string).

(** The [generateContent] request, reduced to the fields the source sets. *)
Record GenerateContentRequest := mkRequest {
  model : string;
  inline_mimeType : string;
  inline_data : option string;
  prompt : string
}.

(** The provider's response: [response.text] is a string or [undefined]. *)
Record GenerateContentResponse := mkResponse { response_text : option string }.

(** What the program asks of its surroundings, in call order. *)
Inductive Event :=
| EvNewGoogleGenAI (apiKey : string)
| EvReadAsDataURL (blob : Blob)
| EvGenerateContent (request : GenerateContentRequest)
| EvSaveEntry (entry : JournalEntry)
| EvDeleteEntry (entryId : string)
| EvGetAllEntries
| EvConsoleError (label : string) (error : Exn)
| EvAlert (message : string)
| EvConfirm (message : string)
| EvScrollToTop.

(** The collaborators of the program: the configured credential, the
    [FileReader], the transcription provider, and the storage service
    ([services/storage], not part of the sources at hand). *)
Record Platform (Store : Type) := mkPlatform {
  API_KEY : option string;
  readAsDataURL : Blob -> Exn + string;
  generateContent : GenerateContentRequest -> Exn + GenerateContentResponse;
  saveEntry : Store -> JournalEntry -> Exn + Store;
  deleteEntry : Store -> string -> Exn + Store;
  getAllEntries : Store -> Exn + list JournalEntry
}.
Arguments API_KEY {Store} _.
Arguments readAsDataURL {Store} _ _.
Arguments generateContent {Store} _ _.
Arguments saveEntry {Store} _ _ _.
Arguments deleteEntry {Store} _ _.
Arguments getAllEntries {Store} _ _.

(** React state of [App]. *)
Record AppState := mkApp {
  entries : list JournalEntry;
  inputText : string;
  isRecordingMode : bool;
  isProcessingAudio : bool;
  isLoading : bool
}.

(** The whole system: component state, persistent store, call log. *)
Record Sys (Store : Type) := mkSys {
  app : AppState;
  store : Store;
  log : list Event
}.
Arguments mkSys {Store} _ _ _.
Arguments app {Store} _.
Arguments store {Store} _.
Arguments log {Store} _.

(** ** A state-and-exception monad for [async] functions *)

Module Comp.
Section Monad.
Context {Store : Type}.

Definition M (A : Type) : Type := Sys Store -> (Exn + A) * Sys Store.

Definition ret {A} (a : A) : M A := fun s => (inr a, s).
Definition throw {A} (e : Exn) : M A := fun s => (inl e, s).
Definition bind {A B} (m : M A) (k : A -> M B) : M B :=
  fun s => match m s with
           | (inl e, s') => (inl e, s')
           | (inr a, s') => k a s'
           end.
(** [try { m } catch (error) { h error }] *)
Definition try_catch {A} (m : M A) (h : Exn -> M A) : M A :=
  fun s => match m s with
           | (inl e, s') => h e s'
           | r => r
           end.
(** [m finally { f }], for an [f] that does not throw. *)
Definition finally {A} (m : M A) (f : Sys Store -> Sys Store) : M A :=
  fun s => let (r, s') := m s in (r, f s').
(** Await an outcome supplied by the platform. *)
Definition await {A} (r : Exn + A) : M A := fun s => (r, s).
Definition emit (ev : Event) : M unit :=
  fun s => (inr tt, mkSys (app s) (store s) (log s ++ [ev])).
Definition getStore : M Store := fun s => (inr (store s), s).
Definition putStore (st : Store) : M unit :=
  fun s => (inr tt, mkSys (app s) st (log s)).
(** A React state update [setX(prev => f prev)]. *)
Definition setState (f : AppState -> AppState) : M unit :=
  fun s => (inr tt, mkSys (f (app s)) (store s) (log s)).
Definition getState : M AppState := fun s => (inr (app s), s).
End Monad.
Arguments M : clear implicits.
End Comp.
Import Comp.

Declare Scope comp_scope.
Delimit Scope comp_scope with comp.
Notation "x <- m ;; k" := (bind m (fun x => k))
  (at level 100, m at next level, right associativity) : comp_scope.
Notation "m ;;; k" := (bind m (fun _ => k))
  (at level 100, right associativity) : comp_scope.
Local Open Scope comp_scope.

(** JavaScript truthiness of a [string | undefined] value. *)
Definition truthy (v : option string) : bool :=
  match v with
  | Some s => negb (String.eqb s "")
  | None => false
  end.

(** [a || b] on strings: [a] unless it is empty. *)
Definition str_or (a b : string) : string :=
  if String.eqb a "" then b else a.

(** [v || d] for a [string | undefined] value [v]. *)
Definition opt_or (v : option string) (d : string) : string :=
  match v with
  | Some s => str_or s d
  | None => d
  end.

(** [s.trim()], for the ASCII white space characters. *)
Fixpoint trimStart (s : string) : string :=
  match s with
  | String c rest => if Ascii.is_space c then trimStart rest else s
  | EmptyString => EmptyString
  end.
Definition trim (s : string) : string :=
  String.rev (trimStart (String.rev (trimStart s))).

(** [s.split(',')] *)
Fixpoint splitComma_go (cur : string) (s : string) : list string :=
  match s with
  | EmptyString => [cur]
  | String c rest =>
      if Ascii.eqb c ","%char then cur :: splitComma_go "" rest
      else splitComma_go (cur +:+ String c "") rest
  end.
Definition splitComma (s : string) : list string := splitComma_go "" s.

(** * The transcription service ([services/gemini]) *)

Section Gemini.
Context {Store : Type} (P : Platform Store).

Definition instruction : string :=
  "Transcribe the audio exactly as spoken. Do not add any introduction, explanation, or timestamps. If the audio is silent or unintelligible, return an empty string.".

(** [split(',')[1]] of the data URL; [None] is [undefined]. *)
Definition blobToBase64 (blob : Blob) : M Store (option string) :=
  emit (EvReadAsDataURL blob) ;;;
  result <- await (readAsDataURL P blob) ;;
  ret (splitComma result !! 1%nat).

Definition transcribeAudio (audioBlob : Blob) : M Store string :=
  if negb (truthy (API_KEY P)) then throw (JsError "API Key is missing.")
  else
    emit (EvNewGoogleGenAI (default "" (API_KEY P))) ;;;
    base64Audio <- blobToBase64 audioBlob ;;
    try_catch
      (let request :=
         {| model := "gemini-2.5-flash";
            inline_mimeType := str_or (blob_type audioBlob) "audio/webm";
            inline_data := base64Audio;
            prompt := instruction |} in
       emit (EvGenerateContent request) ;;;
       response <- await (generateContent P request) ;;
       ret (opt_or (response_text response) ""))
      (fun error =>
         emit (EvConsoleError "Gemini Transcription Error:" error) ;;;
         throw error).
End Gemini.

(** The request [transcribeAudio] sends for a blob whose data URL is
    [dataURL] (used to state properties of the call). *)
Definition requestFor (audioBlob : Blob) (dataURL : string) : GenerateContentRequest :=
  {| model := "gemini-2.5-flash";
     inline_mimeType := str_or (blob_type audioBlob) "audio/webm";
     inline_data := splitComma dataURL !! 1%nat;
     prompt := instruction |}.

(** * The application component ([App]) *)

Definition with_entries (f : list JournalEntry -> list JournalEntry) (a : AppState) : AppState :=
  mkApp (f (entries a)) (inputText a) (isRecordingMode a) (isProcessingAudio a) (isLoading a).
Definition with_inputText (v : string) (a : AppState) : AppState :=
  mkApp (entries a) v (isRecordingMode a) (isProcessingAudio a) (isLoading a).
Definition with_isRecordingMode (v : bool) (a : AppState) : AppState :=
  mkApp (entries a) (inputText a) v (isProcessingAudio a) (isLoading a).
Definition with_isProcessingAudio (v : bool) (a : AppState) : AppState :=
  mkApp (entries a) (inputText a) (isRecordingMode a) v (isLoading a).
Definition with_isLoading (v : bool) (a : AppState) : AppState :=
  mkApp (entries a) (inputText a) (isRecordingMode a) (isProcessingAudio a) v.

Definition map_app {Store} (f : AppState -> AppState) (s : Sys Store) : Sys Store :=
  mkSys (f (app s)) (store s) (log s).

Section App.
Context {Store : Type} (P : Platform Store).

(** [await saveEntry(entry)] *)
Definition call_saveEntry (entry : JournalEntry) : M Store unit :=
  emit (EvSaveEntry entry) ;;;
  st <- getStore ;;
  st' <- await (saveEntry P st entry) ;;
  putStore st'.

(** [await deleteEntry(id)] *)
Definition call_deleteEntry (entryId : string) : M Store unit :=
  emit (EvDeleteEntry entryId) ;;;
  st <- getStore ;;
  st' <- await (deleteEntry P st entryId) ;;
  putStore st'.

Definition loadEntries : M Store unit :=
  finally
    (try_catch
       (emit EvGetAllEntries ;;;
        st <- getStore ;;
        data <- await (getAllEntries P st) ;;
        setState (with_entries (fun _ => data)))
       (fun error => emit (EvConsoleError "Failed to load entries" error)))
    (map_app (with_isLoading false)).

(** [uuid] and [dateNow] are the values [uuidv4()] and [Date.now()]
    return during the call. *)
Definition handleTextSubmit (uuid : string) (dateNow : Z) : M Store unit :=
  a <- getState ;;
  if negb (truthy (Some (trim (inputText a)))) then ret tt
  else
    let newEntry :=
      {| id := uuid;
         type := text;
         content := trim (inputText a);
         audioBlob := None;
         timestamp := dateNow |} in
    try_catch
      (call_saveEntry newEntry ;;;
       setState (with_entries (fun prev => newEntry :: prev)) ;;;
       setState (with_inputText "") ;;;
       emit EvScrollToTop)
      (fun error =>
         emit (EvConsoleError "Failed to save text entry" error) ;;;
         emit (EvAlert "Could not save entry.")).

Definition handleAudioComplete (blob : Blob) (uuid : string) (dateNow : Z) : M Store unit :=
  setState (with_isProcessingAudio true) ;;;
  finally
    (try_catch
       (transcription <- transcribeAudio P blob ;;
        let newEntry :=
          {| id := uuid;
             type := audio;
             content := transcription;
             audioBlob := Some blob;
             timestamp := dateNow |} in
        call_saveEntry newEntry ;;;
        setState (with_entries (fun prev => newEntry :: prev)) ;;;
        setState (with_isRecordingMode false) ;;;
        emit EvScrollToTop)
       (fun error =>
          emit (EvConsoleError "Failed to process audio entry" error) ;;;
          emit (EvAlert "Failed to process audio. Please check your API key or network.")))
    (map_app (with_isProcessingAudio false)).

(** [confirmed] is the answer of [window.confirm]. *)
Definition handleDelete (entryId : string) (confirmed : bool) : M Store unit :=
  emit (EvConfirm "Delete this entry?") ;;;
  if confirmed then
    try_catch
      (call_deleteEntry entryId ;;;
       setState (with_entries (filter (fun e => id e ≠ entryId))))
      (fun error => emit (EvConsoleError "Failed to delete" error))
  else ret tt.
End App.

(** [App] as first rendered, and after the mount effect has run
    [loadEntries]. *)
Definition initialApp : AppState := mkApp [] "" false false true.
Definition boot {Store} (P : Platform Store) (st : Store) : Sys Store :=
  (loadEntries P (mkSys initialApp st [])).2.

(** What the user (or the recorder) does to [App] once it is mounted. *)
Inductive Action :=
| ActType (typed : string)
| ActTextSubmit (uuid : string) (dateNow : Z)
| ActOpenRecorder
| ActAudioComplete (blob : Blob) (uuid : string) (dateNow : Z)
| ActCloseRecorder
| ActDelete (entryId : string) (confirmed : bool).

Definition perform {Store} (P : Platform Store) (act : Action) : M Store unit :=
  match act with
  | ActType typed => setState (with_inputText typed)
  | ActTextSubmit uuid dateNow => handleTextSubmit P uuid dateNow
  | ActOpenRecorder => setState (with_isRecordingMode true)
  | ActAudioComplete blob uuid dateNow => handleAudioComplete P blob uuid dateNow
  | ActCloseRecorder =>
      a <- getState ;;
      if isProcessingAudio a then ret tt else setState (with_isRecordingMode false)
  | ActDelete entryId confirmed => handleDelete P entryId confirmed
  end.

(** A run: each action meets the platform behaviour of its moment. *)
Definition run_app {Store} (steps : list (Platform Store * Action)) (s : Sys Store) : Sys Store :=
  foldl (fun s step => (perform step.1 step.2 s).2) s steps.

(** Entries handed to [saveEntry] so far. *)
Definition savedEntries (evs : list Event) : list JournalEntry :=
  omap (fun ev => match ev with EvSaveEntry e => Some e | _ => None end) evs.

(** Requests issued to the provider so far. *)
Definition requests (evs : list Event) : list GenerateContentRequest :=
  omap (fun ev => match ev with EvGenerateContent r => Some r | _ => None end) evs.

(** [attachment present <-> kind = audio] *)
Definition attachment_iff_audio (e : JournalEntry) : Prop :=
  is_Some (audioBlob e) <-> type e = audio.

(** A computation preserves a property of the system state, whatever
    its outcome. *)
Definition preserves {Store A} (I : Sys Store -> Prop) (m : M Store A) : Prop :=
  forall s, I s -> I (m s).2.

(** Every entry handed to [saveEntry] and every entry of the list
    satisfies [attachment_iff_audio]. *)
Definition entries_wf {Store} (s : Sys Store) : Prop :=
  Forall attachment_iff_audio (savedEntries (log s))
  /\ Forall attachment_iff_audio (entries (app s)).

(** * The capture component ([AudioRecorder]) *)

Module AudioRecorder.

(** The encodings tried, in order of preference. *)
Definition mimeTypes : list string :=
  ["audio/webm;codecs=opus"; "audio/webm"; "audio/mp4"; "audio/aac"; "audio/ogg"].

(** What the device answers: [MediaRecorder.isTypeSupported], and the
    [mimeType] attribute of a recorder built with the given options
    ([None]: built without options, the device chooses its default). *)
Record Device := mkDevice {
  isTypeSupported : string -> bool;
  recorder_mimeType : option string -> string
}.

(** The [for ... of] loop with its [break]: [selectedMimeType] keeps its
    initial value unless some candidate is supported. *)
Fixpoint selectLoop (supported : string -> bool) (candidates : list string)
    (selectedMimeType : string) : string :=
  match candidates with
  | [] => selectedMimeType
  | ty :: rest =>
      if supported ty then ty else selectLoop supported rest selectedMimeType
  end.

Definition selectMimeType (dev : Device) : string :=
  selectLoop (isTypeSupported dev) mimeTypes "".

(** [selectedMimeType ? { mimeType: selectedMimeType } : undefined] *)
Definition recorderOptions (selectedMimeType : string) : option string :=
  if truthy (Some selectedMimeType) then Some selectedMimeType else None.

Inductive TrackState := live | ended.

(** A [MediaRecorder] with the stream it was built on. *)
Record MediaRecorder := mkRecorder {
  options : option string;
  mimeType : string
}.

Inductive RecorderState := inactive | recording | stopping.
Inductive Lifecycle := NotMounted | Mounted | Unmounted.

Record State := mkState {
  (* the component *)
  lifecycle : Lifecycle;
  isRecording : bool;
  duration : nat;
  mediaRecorderRef : option MediaRecorder;
  chunksRef : list Blob;
  timerRef : option positive;
  mimeTypeRef : string;
  (* the browser *)
  getUserMediaPending : bool;
  tracks : option (list TrackState);
  recorderState : RecorderState;
  activeIntervals : list positive;
  (* what has been observed *)
  trackStopRuns : nat;
  clearIntervalCalls : nat;
  completed : list Blob;
  cancelCalls : nat
}.

Definition initial : State :=
  mkState NotMounted false 0 None [] None "" false None inactive [] 0 0 [] 0.

Definition stopRecordingCleanup (s : State) : State :=
  let s1 :=
    match timerRef s with
    | Some t =>
        mkState (lifecycle s) (isRecording s) (duration s) (mediaRecorderRef s)
          (chunksRef s) (timerRef s) (mimeTypeRef s) (getUserMediaPending s) (tracks s)
          (recorderState s) (filter (fun i => i ≠ t) (activeIntervals s))
          (trackStopRuns s) (S (clearIntervalCalls s)) (completed s) (cancelCalls s)
    | None => s
    end in
  match mediaRecorderRef s1 with
  | Some _ =>
      mkState (lifecycle s1) (isRecording s1) (duration s1) (mediaRecorderRef s1)
        (chunksRef s1) (timerRef s1) (mimeTypeRef s1) (getUserMediaPending s1)
        (map (fun _ => ended) <$> tracks s1)
        (recorderState s1) (activeIntervals s1)
        (S (trackStopRuns s1)) (clearIntervalCalls s1) (completed s1) (cancelCalls s1)
  | None => s1
  end.

(** The parent stops rendering the component: the effect's cleanup runs. *)
Definition unmount (s : State) : State :=
  let s' := stopRecordingCleanup s in
  mkState Unmounted (isRecording s') (duration s') (mediaRecorderRef s')
    (chunksRef s') (timerRef s') (mimeTypeRef s') (getUserMediaPending s') (tracks s')
    (recorderState s') (activeIntervals s')
    (trackStopRuns s') (clearIntervalCalls s') (completed s') (cancelCalls s').

(** [onCancel()]: the parent's callback hides the recorder. *)
Definition onCancel (s : State) : State :=
  let s' :=
    mkState (lifecycle s) (isRecording s) (duration s) (mediaRecorderRef s)
      (chunksRef s) (timerRef s) (mimeTypeRef s) (getUserMediaPending s) (tracks s)
      (recorderState s) (activeIntervals s)
      (trackStopRuns s) (clearIntervalCalls s) (completed s) (S (cancelCalls s)) in
  match lifecycle s' with
  | Mounted => unmount s'
  | _ => s'
  end.

(** [new Blob(chunks, { type })] *)
Definition concatBlob (chunks : list Blob) (ty : string) : Blob :=
  mkBlob (concat (map blob_bytes chunks)) ty.

(** The part of [startRecording] after [getUserMedia] has resolved with a
    stream of [ntracks] tracks; [timer] is the id [setInterval] returns. *)
Definition startRecording_resume (dev : Device) (ntracks : nat) (timer : positive)
    (s : State) : State :=
  let selectedMimeType := selectMimeType dev in
  let opts := recorderOptions selectedMimeType in
  let rec := mkRecorder opts (recorder_mimeType dev opts) in
  mkState (lifecycle s)
    (match lifecycle s with Mounted => true | _ => isRecording s end)
    (duration s) (Some rec) []
    (Some timer)
    (str_or (mimeType rec) (str_or selectedMimeType ""))
    false (Some (replicate ntracks live)) recording
    (activeIntervals s ++ [timer])
    (trackStopRuns s) (clearIntervalCalls s) (completed s) (cancelCalls s).

(** The [catch] branch of [startRecording]. *)
Definition startRecording_failed (s : State) : State :=
  onCancel
    (mkState (lifecycle s) (isRecording s) (duration s) (mediaRecorderRef s)
       (chunksRef s) (timerRef s) (mimeTypeRef s) false (tracks s)
       (recorderState s) (activeIntervals s)
       (trackStopRuns s) (clearIntervalCalls s) (completed s) (cancelCalls s)).

Definition stopRecording (s : State) : State :=
  match mediaRecorderRef s with
  | Some _ =>
      if isRecording s then
        mkState (lifecycle s) false (duration s) (mediaRecorderRef s)
          (chunksRef s) (timerRef s) (mimeTypeRef s) (getUserMediaPending s) (tracks s)
          (match recorderState s with recording => stopping | st => st end)
          (activeIntervals s)
          (trackStopRuns s) (clearIntervalCalls s) (completed s) (cancelCalls s)
      else s
  | None => s
  end.

(** [ondataavailable] *)
Definition ondataavailable (data : Blob) (s : State) : State :=
  if bool_decide (0 < length (blob_bytes data))%nat then
    mkState (lifecycle s) (isRecording s) (duration s) (mediaRecorderRef s)
      (chunksRef s ++ [data]) (timerRef s) (mimeTypeRef s) (getUserMediaPending s)
      (tracks s) (recorderState s) (activeIntervals s)
      (trackStopRuns s) (clearIntervalCalls s) (completed s) (cancelCalls s)
  else s.

(** [onstop] *)
Definition onstop (s : State) : State :=
  let ty := str_or (mimeTypeRef s) "audio/webm" in
  let blob := concatBlob (chunksRef s) ty in
  stopRecordingCleanup
    (mkState (lifecycle s) (isRecording s) (duration s) (mediaRecorderRef s)
       (chunksRef s) (timerRef s) (mimeTypeRef s) (getUserMediaPending s) (tracks s)
       inactive (activeIntervals s)
       (trackStopRuns s) (clearIntervalCalls s) (completed s ++ [blob]) (cancelCalls s)).

(** Every track of the stream has ended: a recorder still recording
    then stops by itself and fires its stop event. *)
Definition tracksEnded (s : State) : bool :=
  match tracks s with
  | Some ts => forallb (fun t => match t with ended => true | live => false end) ts
  | None => false
  end.

Inductive Event :=
| EvMount
| EvGetUserMediaResolved (dev : Device) (ntracks : nat) (timer : positive)
| EvGetUserMediaRejected
| EvTick
| EvDataAvailable (data : Blob)
| EvClickStop
| EvRecorderStop
| EvClickCancel
| EvParentUnmount.

(** One event of the session; an event that cannot occur in the state at
    hand leaves it unchanged. *)
Definition step (s : State) (ev : Event) : State :=
  match ev with
  | EvMount =>
      match lifecycle s with
      | NotMounted =>
          mkState Mounted (isRecording s) (duration s) (mediaRecorderRef s)
            (chunksRef s) (timerRef s) (mimeTypeRef s) true (tracks s)
            (recorderState s) (activeIntervals s)
            (trackStopRuns s) (clearIntervalCalls s) (completed s) (cancelCalls s)
      | _ => s
      end
  | EvGetUserMediaResolved dev ntracks timer =>
      if getUserMediaPending s then startRecording_resume dev ntracks timer s else s
  | EvGetUserMediaRejected =>
      if getUserMediaPending s then startRecording_failed s else s
  | EvTick =>
      match lifecycle s, activeIntervals s with
      | Mounted, _ :: _ =>
          mkState (lifecycle s) (isRecording s) (S (duration s)) (mediaRecorderRef s)
            (chunksRef s) (timerRef s) (mimeTypeRef s) (getUserMediaPending s) (tracks s)
            (recorderState s) (activeIntervals s)
            (trackStopRuns s) (clearIntervalCalls s) (completed s) (cancelCalls s)
      | _, _ => s
      end
  | EvDataAvailable data =>
      match recorderState s with
      | inactive => s
      | _ => ondataavailable data s
      end
  | EvClickStop =>
      match lifecycle s with
      | Mounted => stopRecording s
      | _ => s
      end
  | EvRecorderStop =>
      match recorderState s with
      | stopping => onstop s
      | recording => if tracksEnded s then onstop s else s
      | inactive => s
      end
  | EvClickCancel =>
      match lifecycle s with
      | Mounted => onCancel s
      | _ => s
      end
  | EvParentUnmount =>
      match lifecycle s with
      | Mounted => unmount s
      | _ => s
      end
  end.

Definition run (evs : list Event) (s : State) : State := foldl step s evs.

(** No track of the stream is live and no interval is running. *)
Definition released (s : State) : Prop :=
  (forall ts, tracks s = Some ts -> Forall (fun t => t = ended) ts)
  /\ activeIntervals s = [].

(** The release operations have been performed exactly once. *)
Definition releasedExactlyOnce (s : State) : Prop :=
  released s /\ trackStopRuns s = 1%nat /\ clearIntervalCalls s = 1%nat.

(** A transition into [Finalized] (the stop event), [Cancelled] (the
    component goes away while mounted) or [Failed] (no device). *)
Definition terminalTransition (s : State) (ev : Event) : Prop :=
  match ev with
  | EvRecorderStop => recorderState s = stopping
  | EvClickCancel | EvParentUnmount => lifecycle s = Mounted
  | EvGetUserMediaRejected => getUserMediaPending s = true
  | _ => False
  end.

(** What holds in every state a session can reach. *)
Record Inv (s : State) : Prop := mkInv {
  inv_tracks : tracks s ≠ None -> mediaRecorderRef s ≠ None;
  inv_timer : forall t, t ∈ activeIntervals s -> timerRef s = Some t;
  inv_fresh : lifecycle s = NotMounted ->
              getUserMediaPending s = false /\ tracks s = None
              /\ activeIntervals s = [] /\ recorderState s = inactive;
  inv_pending : getUserMediaPending s = true ->
                tracks s = None /\ activeIntervals s = [] /\ lifecycle s ≠ NotMounted;
  inv_recorder : recorderState s ≠ inactive -> lifecycle s ≠ NotMounted
}.

(** Acquisition is over, one way or the other, and nothing is held. *)
Definition settled (s : State) : Prop :=
  getUserMediaPending s = false /\ lifecycle s ≠ NotMounted /\ released s.

(** [formatDuration]: minutes, a colon, and the seconds on two digits. *)
Definition formatDuration (sec : nat) : string :=
  let m := Z.of_nat sec / 60 in
  let s := Z.of_nat sec mod 60 in
  pretty m +:+ ":" +:+ padStart0 2 s.

(** What holds of the recordings delivered in every state a session can
    reach. *)
Record Delivery (s : State) : Prop := mkDelivery {
  del_fresh : lifecycle s = NotMounted ->
              getUserMediaPending s = false /\ recorderState s = inactive
              /\ completed s = [] /\ mediaRecorderRef s = None;
  del_pending : getUserMediaPending s = true ->
                recorderState s = inactive /\ completed s = []
                /\ mediaRecorderRef s = None /\ lifecycle s ≠ NotMounted;
  del_once : (length (completed s) <= 1)%nat;
  del_done : completed s ≠ [] ->
             recorderState s = inactive /\ getUserMediaPending s = false
             /\ lifecycle s ≠ NotMounted;
  del_active : recorderState s ≠ inactive ->
               getUserMediaPending s = false /\ lifecycle s ≠ NotMounted;
  del_chunks : Forall (fun c => blob_bytes c ≠ []) (chunksRef s);
  del_typed : Forall (fun b => blob_type b ≠ "") (completed s)
}.

(** The data events [ondataavailable] keeps: those of positive size. *)
Definition received (evs : list Event) : list Blob :=
  omap (fun ev => match ev with
                  | EvDataAvailable data =>
                      if bool_decide (0 < length (blob_bytes data))%nat then Some data
                      else None
                  | _ => None
                  end) evs.

(** What happens while a recording is under way: ticks of the timer,
    data from the recorder, clicks on the stop button. *)
Definition whileRecording (ev : Event) : Prop :=
  match ev with
  | EvTick | EvDataAvailable _ | EvClickStop => True
  | _ => False
  end.

(** The type given to the blob of a recording made on [dev]. *)
Definition recordingType (dev : Device) : string :=
  let selectedMimeType := selectMimeType dev in
  let opts := recorderOptions selectedMimeType in
  str_or (str_or (recorder_mimeType dev opts) (str_or selectedMimeType "")) "audio/webm".

(** A recording under way, with the chunks kept so far. *)
Record Capturing (dev : Device) (chunks : list Blob) (s : State) : Prop := mkCapturing {
  cap_mounted : lifecycle s = Mounted;
  cap_answered : getUserMediaPending s = false;
  cap_recorder : mediaRecorderRef s ≠ None;
  cap_type : str_or (mimeTypeRef s) "audio/webm" = recordingType dev;
  cap_none : completed s = [];
  cap_state : (recorderState s = recording /\ isRecording s = true)
              \/ recorderState s = stopping;
  cap_chunks : chunksRef s = chunks
}.

(** A session that ended without a recorder: nothing is held, nothing
    was delivered. *)
Definition refused (s : State) : Prop :=
  lifecycle s = Unmounted /\ getUserMediaPending s = false
  /\ recorderState s = inactive.

(** The stream granted to a component that is gone, with the interval
    started for it. *)
Definition orphaned (ntracks : nat) (timer : positive) (stops : nat) (s : State) : Prop :=
  lifecycle s = Unmounted /\ getUserMediaPending s = false
  /\ recorderState s = recording
  /\ tracks s = Some (replicate ntracks live)
  /\ timer ∈ activeIntervals s
  /\ trackStopRuns s = stops.

End AudioRecorder.

(** White space at the ends of a string. *)
Definition startsWithSpace (s : string) : bool :=
  match s with
  | String c _ => Ascii.is_space c
  | EmptyString => false
  end.
Definition endsWithSpace (s : string) : bool := startsWithSpace (String.rev s).

(** A text entry as [handleTextSubmit] lets it through: its content is
    not empty and has no white space at either end. *)
Definition textContentOk (e : JournalEntry) : Prop :=
  type e = text ->
  content e ≠ "" /\ startsWithSpace (content e) = false
  /\ endsWithSpace (content e) = false.

(** The string has no comma. *)
Fixpoint commaFree (s : string) : bool :=
  match s with
  | EmptyString => true
  | String c rest => negb (Ascii.eqb c ","%char) && commaFree rest
  end.

(** * What [App] renders *)

(** The main area: the spinner, the empty-journal notice, or the date
    sections ([None]: rendering throws). *)
Inductive View :=
| ViewLoading
| ViewEmpty
| ViewSections (sections : option (list (string * list JournalEntry))).

Definition mainView (LocalTZA now : Z) (a : AppState) : View :=
  if isLoading a then ViewLoading
  else if bool_decide (length (entries a) = 0%nat) then ViewEmpty
  else ViewSections (renderGroups LocalTZA now (entries a)).

(** The compose bar shows the send button when [inputText.length > 0],
    the microphone otherwise. *)
Definition sendVisible (a : AppState) : bool :=
  bool_decide (0 < String.length (inputText a))%nat.

(** * The entry card ([EntryCard]) *)

Module EntryCard.

Inductive Lifecycle := NotMounted | Mounted | Unmounted.

(** The player is rendered for [entry.type === 'audio' && entry.audioBlob]. *)
Definition playerShown (entry : JournalEntry) : bool :=
  match type entry, audioBlob entry with
  | audio, Some _ => true
  | _, _ => false
  end.

Section Card.
(** JavaScript numbers holding seconds; the card only stores and passes
    them on. [zero] is the literal [0]. *)
Variable Time : Type.
Variable zero : Time.

Record State := mkState {
  (* the component *)
  lifecycle : Lifecycle;
  isPlaying : bool;
  currentTime : Time;
  duration : Time;
  (** the [Audio] object, named by the object URL it was built on *)
  audio : option string;
  (* the browser *)
  liveUrls : list string;
  elementPlaying : bool;
  elementSrc : option string;
  elementTime : Time
}.

Definition initial : State :=
  mkState NotMounted false zero zero None [] false None zero.

(** The effect on [entry.audioBlob]; [url] is what [URL.createObjectURL]
    returns. *)
Definition mountEffect (entry : JournalEntry) (url : string) (s : State) : State :=
  match audioBlob entry with
  | Some _ =>
      mkState Mounted (isPlaying s) (currentTime s) (duration s) (Some url)
        (liveUrls s ++ [url]) (elementPlaying s) (Some url) (elementTime s)
  | None =>
      mkState Mounted (isPlaying s) (currentTime s) (duration s) (audio s)
        (liveUrls s) (elementPlaying s) (elementSrc s) (elementTime s)
  end.

(** The cleanup the effect returned, if it returned one. *)
Definition unmountCleanup (entry : JournalEntry) (s : State) : State :=
  match audioBlob entry, audio s with
  | Some _, Some url =>
      mkState Unmounted (isPlaying s) (currentTime s) (duration s) (audio s)
        (filter (fun u => u ≠ url) (liveUrls s)) false None (elementTime s)
  | _, _ =>
      mkState Unmounted (isPlaying s) (currentTime s) (duration s) (audio s)
        (liveUrls s) (elementPlaying s) (elementSrc s) (elementTime s)
  end.

(** [playOk]: whether the promise [audio.play()] returns is fulfilled. *)
Definition togglePlay (playOk : bool) (s : State) : State :=
  match audio s with
  | None => s
  | Some _ =>
      mkState (lifecycle s) (negb (isPlaying s)) (currentTime s) (duration s) (audio s)
        (liveUrls s)
        (if isPlaying s then false else if playOk then true else elementPlaying s)
        (elementSrc s) (elementTime s)
  end.

Definition handleSeek (time : Time) (s : State) : State :=
  match audio s with
  | Some _ =>
      mkState (lifecycle s) (isPlaying s) time (duration s) (audio s)
        (liveUrls s) (elementPlaying s) (elementSrc s) time
  | None => s
  end.

(** [onended] *)
Definition onended (s : State) : State :=
  mkState (lifecycle s) false zero (duration s) (audio s)
    (liveUrls s) false (elementSrc s) (elementTime s).

(** [onloadedmetadata] *)
Definition onloadedmetadata (d : Time) (s : State) : State :=
  mkState (lifecycle s) (isPlaying s) (currentTime s) d (audio s)
    (liveUrls s) (elementPlaying s) (elementSrc s) (elementTime s).

(** [ontimeupdate] *)
Definition ontimeupdate (t : Time) (s : State) : State :=
  mkState (lifecycle s) (isPlaying s) t (duration s) (audio s)
    (liveUrls s) (elementPlaying s) (elementSrc s) t.

Inductive Event :=
| EvMount (url : string)
| EvTogglePlay (playOk : bool)
| EvSeek (time : Time)
| EvEnded
| EvLoadedMetadata (d : Time)
| EvTimeUpdate (t : Time)
| EvUnmount.

(** One event of a card's life; the buttons exist only while the player
    is rendered, the element fires its events only while it plays or
    loads. *)
Definition step (entry : JournalEntry) (s : State) (ev : Event) : State :=
  match ev, lifecycle s with
  | EvMount url, NotMounted => mountEffect entry url s
  | EvTogglePlay playOk, Mounted =>
      if playerShown entry then togglePlay playOk s else s
  | EvSeek time, Mounted => if playerShown entry then handleSeek time s else s
  | EvEnded, Mounted => if elementPlaying s then onended s else s
  | EvLoadedMetadata d, Mounted =>
      match audio s with Some _ => onloadedmetadata d s | None => s end
  | EvTimeUpdate t, Mounted =>
      match audio s with Some _ => ontimeupdate t s | None => s end
  | EvUnmount, Mounted => unmountCleanup entry s
  | _, _ => s
  end.

Definition run (entry : JournalEntry) (evs : list Event) (s : State) : State :=
  foldl (step entry) s evs.

(** What holds in every state a card can reach. *)
Record Inv (entry : JournalEntry) (s : State) : Prop := mkInv {
  inv_fresh : lifecycle s = NotMounted ->
              audio s = None /\ liveUrls s = [] /\ elementPlaying s = false
              /\ elementSrc s = None /\ isPlaying s = false;
  inv_none : audio s = None ->
             liveUrls s = [] /\ elementPlaying s = false /\ elementSrc s = None
             /\ isPlaying s = false;
  inv_blob : audioBlob entry = None -> audio s = None;
  inv_mounted : lifecycle s = Mounted ->
                forall url, audio s = Some url ->
                            liveUrls s = [url] /\ elementSrc s = Some url;
  inv_gone : lifecycle s = Unmounted ->
             liveUrls s = [] /\ elementPlaying s = false /\ elementSrc s = None
}.

(** Every press of the play button so far found [play()] fulfilled. *)
Definition playsFulfilled (evs : list Event) : Prop :=
  Forall (fun ev => match ev with EvTogglePlay ok => ok = true | _ => True end) evs.
(** Nothing plays: neither the flag nor the element. *)
Definition silent (s : State) : Prop := isPlaying s = false /\ elementPlaying s = false.

(** While the card is there, the play flag says what the element does. *)
Definition inSync (s : State) : Prop :=
  lifecycle s ≠ Unmounted -> isPlaying s = elementPlaying s.
End Card.

Arguments mkState {Time}.
Arguments lifecycle {Time}.
Arguments isPlaying {Time}.
Arguments currentTime {Time}.
Arguments duration {Time}.
Arguments audio {Time}.
Arguments liveUrls {Time}.
Arguments elementPlaying {Time}.
Arguments elementSrc {Time}.
Arguments elementTime {Time}.
Arguments initial {Time}.
Arguments mountEffect {Time}.
Arguments unmountCleanup {Time}.
Arguments togglePlay {Time}.
Arguments handleSeek {Time}.
Arguments onended {Time}.
Arguments onloadedmetadata {Time}.
Arguments ontimeupdate {Time}.
Arguments EvMount {Time}.
Arguments EvTogglePlay {Time}.
Arguments EvSeek {Time}.
Arguments EvEnded {Time}.
Arguments EvLoadedMetadata {Time}.
Arguments EvTimeUpdate {Time}.
Arguments EvUnmount {Time}.
Arguments step {Time}.
Arguments run {Time}.
Arguments Inv {Time}.
Arguments mkInv {Time}.
Arguments inv_fresh {Time}.
Arguments inv_none {Time}.
Arguments inv_blob {Time}.
Arguments inv_mounted {Time}.
Arguments inv_gone {Time}.
Arguments playsFulfilled {Time}.
Arguments silent {Time}.
Arguments inSync {Time}.

End EntryCard.

(** * The entry store ([services/storage]) *)

Module EntryStore.

(** Modelled from the spec: the storage service ([getAllEntries],
    [saveEntry], [deleteEntry] of [services/storage]) is missing from the
    sources.  The store is the sequence of persisted entries, the most
    recently inserted first. *)
Definition Store : Type := list JournalEntry.

Definition has_id (st : Store) (entryId : string) : bool :=
  bool_decide (entryId ∈ map id st).

(** Modelled from the spec: [insert(entry)] of the missing storage
    service; the entry's id must not already exist. *)
Definition insert (st : Store) (entry : JournalEntry) : Exn + Store :=
  if has_id st (id entry) then inl (Rejection "StorageError")
  else inr (entry :: st).

(** Places [e] in front of the first entry that is not more recent. *)
Fixpoint insert_desc (e : JournalEntry) (l : list JournalEntry) : list JournalEntry :=
  match l with
  | [] => [e]
  | x :: rest =>
      if timestamp x <=? timestamp e then e :: x :: rest
      else x :: insert_desc e rest
  end.

(** Modelled from the spec: [listAll()] of the missing storage service:
    every persisted entry, ordered by [createdAt] descending, ties broken
    by insertion order (the later insert first). *)
Definition listAll (st : Store) : list JournalEntry := foldr insert_desc [] st.

(** Modelled from the spec: [delete(id)] of the missing storage service;
    fails with [NotFoundError] when the id is absent. *)
Definition delete (st : Store) (entryId : string) : Exn + Store :=
  if has_id st entryId then inr (filter (fun e => id e ≠ entryId) st)
  else inl (Rejection "NotFoundError").

(** The platform whose storage is this store. *)
Definition platform (key : option string)
    (reader : Blob -> Exn + string)
    (provider : GenerateContentRequest -> Exn + GenerateContentResponse)
  : Platform Store :=
  mkPlatform Store key reader provider insert delete (fun st => inr (listAll st)).

End EntryStore.

(** * Sample data, for the instances checked below *)

Module Sample.
Definition silence : Blob := mkBlob [Byte.x1a; Byte.x45] "".
Definition webm : Blob := mkBlob [Byte.x1a; Byte.x45; Byte.xdf] "audio/webm;codecs=opus".
Definition reader (b : Blob) : Exn + string :=
  inr ("data:" +:+ blob_type b +:+ ";base64,GkXf").
Definition provider_down (r : GenerateContentRequest) : Exn + GenerateContentResponse :=
  inl (Rejection "503 Service Unavailable").
Definition provider_silent (r : GenerateContentRequest) : Exn + GenerateContentResponse :=
  inr (mkResponse None).
Definition provider_hello (r : GenerateContentRequest) : Exn + GenerateContentResponse :=
  inr (mkResponse (Some "hello")).
Definition fresh : Sys EntryStore.Store :=
  mkSys (mkApp [] "" true false false) [] [].
Definition milk : JournalEntry :=
  {| id := "id-0"; type := text; content := "buy milk"; audioBlob := None;
     timestamp := 1704103200000 |}.
Definition note : JournalEntry :=
  {| id := "id-1"; type := text; content := "call home"; audioBlob := None;
     timestamp := 1704103200000 |}.
(** Three entries, most recent first, and the moment they are shown. *)
Definition newYear2024 : JournalEntry :=
  {| id := "a"; type := text; content := "resolutions"; audioBlob := None;
     timestamp := MakeTime 2024 1 1 10 0 |}.
Definition june2023 : JournalEntry :=
  {| id := "b"; type := text; content := "holiday plans"; audioBlob := None;
     timestamp := MakeTime 2023 6 1 9 0 |}.
Definition newYear2018 : JournalEntry :=
  {| id := "c"; type := text; content := "first entry"; audioBlob := None;
     timestamp := MakeTime 2018 1 1 8 0 |}.
Definition midJune2024 : Z := MakeTime 2024 6 15 12 0.
Definition only_mp4 : AudioRecorder.Device :=
  AudioRecorder.mkDevice (fun ty => String.eqb ty "audio/mp4") (fun _ => "").
Definition chunk : Blob := mkBlob [Byte.x1a; Byte.x45; Byte.xdf; Byte.xa3] "".
(** A recording that is started, stopped from the button and finalized. *)
Definition recorded : list AudioRecorder.Event :=
  [AudioRecorder.EvMount; AudioRecorder.EvGetUserMediaResolved only_mp4 1 7;
   AudioRecorder.EvTick; AudioRecorder.EvClickStop;
   AudioRecorder.EvDataAvailable chunk].
(** The recorder is dismissed while the permission prompt is still open,
    and the permission is granted afterwards. *)
Definition dismissed_early : list AudioRecorder.Event :=
  [AudioRecorder.EvMount; AudioRecorder.EvClickCancel;
   AudioRecorder.EvGetUserMediaResolved only_mp4 1 7].
End Sample.

(* ================================================================= *)
(** * Properties *)

(** ** The calendar *)

Module DateFacts.

Lemma era_bounds (doe : Z) :
  0 <= doe < 146097 ->
  let yoe := (doe - doe / 1460 + doe / 36524 - doe / 146096) / 365 in
  let doy := doe - (365 * yoe + yoe / 4 - yoe / 100) in
  0 <= yoe < 400 /\ 0 <= doy <= 365.
Proof.
  intros H yoe doy. subst yoe doy. Z.to_euclidean_division_equations; lia.
Qed.

Lemma month_bounds (doy : Z) :
  0 <= doy <= 365 ->
  let mp := (5 * doy + 2) / 153 in
  let d := doy - (153 * mp + 2) / 5 + 1 in
  0 <= mp <= 11 /\ 1 <= d <= 31.
Proof.
  intros H mp d. subst mp d. Z.to_euclidean_division_equations; lia.
Qed.

(** Within an era the two conversions are inverse, and months and days
    are in range. *)
Lemma civil_of_doe_ok (doe : Z) :
  0 <= doe < 146097 ->
  let '(yoe, m, d) := civil_of_doe doe in
  0 <= yoe < 400 /\ 1 <= m <= 12 /\ 1 <= d <= 31 /\ doe_of_civil yoe m d = doe.
Proof.
  intros Hdoe. unfold civil_of_doe, doe_of_civil. cbv zeta.
  destruct (era_bounds doe Hdoe) as [Hyoe Hdoy]. cbv zeta in Hyoe, Hdoy.
  set (yoe := (doe - doe / 1460 + doe / 36524 - doe / 146096) / 365) in *.
  set (doy := doe - (365 * yoe + yoe / 4 - yoe / 100)) in *.
  destruct (month_bounds doy Hdoy) as [Hmp Hd]. cbv zeta in Hmp, Hd.
  set (mp := (5 * doy + 2) / 153) in *.
  split; [done|].
  destruct (Z.ltb_spec mp 10) as [Hlt|Hge].
  - replace (mp + 3 <=? 2) with false by (symmetry; apply Z.leb_gt; lia).
    replace (mp + 3 - 3) with mp by lia. subst doy. lia.
  - replace (mp - 9 <=? 2) with true by (symmetry; apply Z.leb_le; lia).
    replace (mp - 9 + 9) with mp by lia. subst doy. lia.
Qed.

Lemma civil_from_days_era (z : Z) :
  let doe := (z + 719468) mod 146097 in
  let era := (z + 719468) / 146097 in
  civil_from_days z
  = (let '(yoe, m, d) := civil_of_doe doe in
     (if m <=? 2 then yoe + era * 400 + 1 else yoe + era * 400, m, d)).
Proof.
  intros doe era. unfold civil_from_days, civil_of_doe. cbv zeta.
  replace (z + 719468 - (z + 719468) / 146097 * 146097) with doe
    by (subst doe; rewrite Z.mod_eq by lia; lia).
  reflexivity.
Qed.

Lemma days_from_civil_era (yoe era m d : Z) :
  0 <= yoe < 400 ->
  days_from_civil (if m <=? 2 then yoe + era * 400 + 1 else yoe + era * 400) m d
  = era * 146097 + doe_of_civil yoe m d - 719468.
Proof.
  intros Hyoe. unfold days_from_civil, doe_of_civil. cbv zeta.
  replace (if m <=? 2
           then (if m <=? 2 then yoe + era * 400 + 1 else yoe + era * 400) - 1
           else (if m <=? 2 then yoe + era * 400 + 1 else yoe + era * 400))
    with (yoe + era * 400) by (destruct (m <=? 2); lia).
  rewrite Z.div_add by lia. rewrite (Z.div_small yoe 400) by lia.
  replace (yoe + era * 400 - (0 + era) * 400) with yoe by lia.
  destruct (m <=? 2); lia.
Qed.

(** [days_from_civil] undoes [civil_from_days]; months and days are in
    range. *)
Lemma civil_roundtrip (z : Z) :
  let '(y, m, d) := civil_from_days z in
  days_from_civil y m d = z /\ 1 <= m <= 12 /\ 1 <= d <= 31.
Proof.
  rewrite civil_from_days_era. cbv zeta.
  pose proof (Z.mod_pos_bound (z + 719468) 146097 ltac:(lia)) as Hdoe.
  pose proof (civil_of_doe_ok _ Hdoe) as Hok.
  destruct (civil_of_doe ((z + 719468) mod 146097)) as [[yoe m] d].
  destruct Hok as (Hyoe & Hm & Hd & Hdoe').
  rewrite days_from_civil_era by lia. rewrite Hdoe'.
  pose proof (Z.div_mod (z + 719468) 146097 ltac:(lia)). lia.
Qed.

Lemma civil_from_days_inj (z1 z2 : Z) :
  civil_from_days z1 = civil_from_days z2 -> z1 = z2.
Proof.
  intros Heq. pose proof (civil_roundtrip z1) as H1. pose proof (civil_roundtrip z2) as H2.
  rewrite Heq in H1. destruct (civil_from_days z2) as [[y m] d].
  destruct H1 as [<- _]. by destruct H2 as [<- _].
Qed.

Lemma days_from_civil_shift (y m d k : Z) :
  days_from_civil y m (d + k) = days_from_civil y m d + k.
Proof. unfold days_from_civil. cbv zeta. lia. Qed.

(** [setDate(getDate() - 1)] goes back exactly one day. *)
Lemma setDate_prev_day (LocalTZA tv : Z) : setDate_prev LocalTZA tv = tv - msPerDay.
Proof.
  unfold setDate_prev, YearFromTime, MonthFromTime, DateFromTime. cbv zeta.
  pose proof (civil_roundtrip (Day (LocalTime LocalTZA tv))) as Hrt.
  destruct (civil_from_days (Day (LocalTime LocalTZA tv))) as [[y m] d]. simpl.
  destruct Hrt as [Hrt _].
  replace (d - 1) with (d + -1) by lia. rewrite days_from_civil_shift, Hrt.
  unfold Day, LocalTime, msPerDay in *.
  pose proof (Z.div_mod (tv + LocalTZA) 86400000 ltac:(lia)). lia.
Qed.

Lemma Day_prev (t : Z) : Day (t - msPerDay) = Day t - 1.
Proof.
  unfold Day, msPerDay.
  replace (t - 86400000) with (t + (-1) * 86400000) by lia.
  rewrite Z.div_add by lia. lia.
Qed.

Lemma append_inj_length (a b x y : string) :
  String.length a = String.length b -> a +:+ x = b +:+ y -> a = b /\ x = y.
Proof.
  revert b. induction a as [|c a IH]; intros [|c' b] Hlen Heq; simpl in *; try done.
  injection Heq as -> Heq. destruct (IH b) as [-> ->]; [lia | done | done].
Qed.

Lemma weekdayShort_length (w : Z) : String.length (weekdayShort w) = 3%nat.
Proof. unfold weekdayShort, weekdayLong. repeat case_match; reflexivity. Qed.

Lemma monthShort_length (m : Z) : String.length (monthShort m) = 3%nat.
Proof. unfold monthShort, monthLong. repeat case_match; reflexivity. Qed.

Lemma distinct_upto_inj (f : Z -> string) (n : nat) (a b : Z) :
  distinct_upto f n = true ->
  1 <= a <= Z.of_nat n -> 1 <= b <= Z.of_nat n -> f a = f b -> a = b.
Proof.
  unfold distinct_upto. rewrite forallb_forall. intros Hall Ha Hb Hf.
  assert (forall c, 1 <= c <= Z.of_nat n -> In c (map Z.of_nat (seq 1 n))) as Hin.
  { intros c Hc. apply in_map_iff. exists (Z.to_nat c). split; [lia|]. apply in_seq. lia. }
  specialize (Hall a (Hin a Ha)). rewrite forallb_forall in Hall.
  specialize (Hall b (Hin b Hb)). apply orb_true_iff in Hall as [Heq|Hne].
  - by apply Z.eqb_eq.
  - apply negb_true_iff in Hne. rewrite Hf in Hne. by rewrite String.eqb_refl in Hne.
Qed.

Lemma monthShort_inj (m1 m2 : Z) :
  1 <= m1 <= 12 -> 1 <= m2 <= 12 -> monthShort m1 = monthShort m2 -> m1 = m2.
Proof. apply (distinct_upto_inj monthShort 12). by vm_compute. Qed.

Lemma pad2_inj (d1 d2 : Z) :
  1 <= d1 <= 31 -> 1 <= d2 <= 31 -> padStart0 2 d1 = padStart0 2 d2 -> d1 = d2.
Proof. apply (distinct_upto_inj (padStart0 2) 31). by vm_compute. Qed.

Lemma pad2_length (d : Z) : 1 <= d <= 31 -> String.length (padStart0 2 d) = 2%nat.
Proof.
  intros Hd.
  assert (forallb (fun c => Nat.eqb (String.length (padStart0 2 c)) 2)
            (map Z.of_nat (seq 1 31)) = true) as Hall by (by vm_compute).
  rewrite forallb_forall in Hall. apply Nat.eqb_eq, Hall.
  apply in_map_iff. exists (Z.to_nat d). split; [lia|]. apply in_seq. lia.
Qed.

Lemma digit_pretty_N_char (r : N) : (r < 10)%N -> (N_of_ascii (pretty_N_char r) - 48 = r)%N.
Proof.
  intros Hr.
  assert (r = 0 \/ r = 1 \/ r = 2 \/ r = 3 \/ r = 4 \/ r = 5 \/ r = 6 \/ r = 7
          \/ r = 8 \/ r = 9)%N as Hcases by lia.
  repeat destruct Hcases as [->|Hcases]; try reflexivity. by subst.
Qed.

Lemma parseDigits_pretty_go (x : N) (s : string) (acc : N) :
  exists k, parseDigits acc (pretty_N_go x s) = parseDigits (acc * 10 ^ k + x) s.
Proof.
  revert s. induction (N.lt_wf_0 x) as [x _ IH]; intros s.
  assert (x = 0 \/ 0 < x)%N as [->|Hpos] by lia.
  - exists 0%N. rewrite pretty_N_go_0. f_equal. lia.
  - rewrite pretty_N_go_step by done.
    destruct (IH (x `div` 10)%N ltac:(by apply N.div_lt)
                (String (pretty_N_char (x `mod` 10)) s)) as [k Hk].
    exists (k + 1)%N. rewrite Hk. simpl.
    rewrite digit_pretty_N_char by (apply N.mod_lt; lia). f_equal.
    rewrite N.pow_add_r, N.pow_1_r.
    pose proof (N.div_mod x 10 ltac:(lia)). lia.
Qed.

Lemma parseDigits_pretty_N (n : N) : parseDigits 0 (pretty n) = n.
Proof.
  unfold pretty, pretty_N. case_decide as Hn; [by subst|].
  destruct (parseDigits_pretty_go n "" 0) as [k ->]. simpl. lia.
Qed.

Lemma pretty_Z_abs (y : Z) : pretty (Z.abs y) = pretty (Z.abs_N y).
Proof. by destruct y. Qed.

Lemma parseDigits_zeros (k : nat) (s : string) :
  parseDigits 0 (zeros k +:+ s) = parseDigits 0 s.
Proof. induction k as [|k IH]; [done|]. simpl. exact IH. Qed.

Lemma parseDigits_padStart0 (w : nat) (y : Z) : parseDigits 0 (padStart0 w y) = Z.abs_N y.
Proof.
  unfold padStart0. cbv zeta. rewrite parseDigits_zeros, pretty_Z_abs.
  apply parseDigits_pretty_N.
Qed.

(** A padded numeral does not begin with a sign. *)
Lemma padStart0_no_dash (w : nat) (y : Z) (s : string) : padStart0 w y ≠ "-" +:+ s.
Proof.
  unfold padStart0. cbv zeta.
  destruct (w - String.length (pretty (Z.abs y)))%nat as [|k]; simpl; [|done].
  rewrite pretty_Z_abs. unfold pretty, pretty_N.
  case_decide; [done|]. by apply pretty_N_go_ne_dash.
Qed.

Lemma yearString_inj (y1 y2 : Z) : yearString y1 = yearString y2 -> y1 = y2.
Proof.
  unfold yearString. intros Heq.
  assert (forall a b, padStart0 4 a = padStart0 4 b -> Z.abs_N a = Z.abs_N b) as Habs.
  { intros a b Hab. apply (f_equal (parseDigits 0)) in Hab.
    by rewrite !parseDigits_padStart0 in Hab. }
  destruct (Z.ltb_spec y1 0) as [H1|H1], (Z.ltb_spec y2 0) as [H2|H2].
  - apply (inj (String.app "-")), Habs in Heq. lia.
  - symmetry in Heq. by apply padStart0_no_dash in Heq.
  - by apply padStart0_no_dash in Heq.
  - apply (inj (String.app "")), Habs in Heq. lia.
Qed.

Lemma toDateString_inj (LocalTZA t1 t2 : Z) :
  toDateString LocalTZA t1 = toDateString LocalTZA t2 ->
  Day (LocalTime LocalTZA t1) = Day (LocalTime LocalTZA t2).
Proof.
  unfold toDateString, YearFromTime, MonthFromTime, DateFromTime. cbv zeta.
  set (z1 := Day (LocalTime LocalTZA t1)). set (z2 := Day (LocalTime LocalTZA t2)).
  pose proof (civil_roundtrip z1) as R1.
  pose proof (civil_roundtrip z2) as R2.
  intros Heq. apply civil_from_days_inj.
  destruct (civil_from_days z1) as [[y1 m1] d1], (civil_from_days z2) as [[y2 m2] d2].
  cbn [fst snd] in Heq. destruct R1 as (_ & Hm1 & Hd1), R2 as (_ & Hm2 & Hd2).
  apply append_inj_length in Heq as [_ Heq]; [|by rewrite !weekdayShort_length].
  apply (inj (String.app " ")) in Heq.
  apply append_inj_length in Heq as [Hm Heq]; [|by rewrite !monthShort_length].
  apply (inj (String.app " ")) in Heq.
  apply append_inj_length in Heq as [Hd Heq]; [|by rewrite !pad2_length].
  apply (inj (String.app " ")) in Heq.
  apply monthShort_inj in Hm; [|done..]. apply pad2_inj in Hd; [|done..].
  apply yearString_inj in Heq. by subst.
Qed.

Lemma toDateString_same_day (LocalTZA t1 t2 : Z) :
  Day (LocalTime LocalTZA t1) = Day (LocalTime LocalTZA t2) ->
  toDateString LocalTZA t1 = toDateString LocalTZA t2.
Proof.
  intros Hday. unfold toDateString, WeekDay, YearFromTime, MonthFromTime, DateFromTime.
  cbv zeta. by rewrite Hday.
Qed.

Lemma toDateString_eqb (LocalTZA t1 t2 : Z) :
  String.eqb (toDateString LocalTZA t1) (toDateString LocalTZA t2)
  = bool_decide (Day (LocalTime LocalTZA t1) = Day (LocalTime LocalTZA t2)).
Proof.
  destruct (String.eqb_spec (toDateString LocalTZA t1) (toDateString LocalTZA t2)) as [Heq|Hne].
  - apply toDateString_inj in Heq. by rewrite bool_decide_eq_true_2.
  - rewrite bool_decide_eq_false_2; [done|]. intros Hday. by apply Hne, toDateString_same_day.
Qed.

Lemma formatted_not_relative (LocalTZA t : Z) :
  toLocaleDateString_wmd LocalTZA t ≠ "Today"
  /\ toLocaleDateString_wmd LocalTZA t ≠ "Yesterday".
Proof.
  unfold toLocaleDateString_wmd, weekdayLong. cbv zeta.
  split; intros H; repeat case_match; cbv [String.append] in H; congruence.
Qed.

End DateFacts.

(** The key in terms of calendar days. *)

Section GroupKeyCases.
Variables (LocalTZA now : Z).

Lemma groupKey_cases (e : JournalEntry) :
  groupKey LocalTZA now e
  = if decide (localDay LocalTZA e = Day (LocalTime LocalTZA now)) then "Today"
    else if decide (localDay LocalTZA e = Day (LocalTime LocalTZA now) - 1) then "Yesterday"
    else toLocaleDateString_wmd LocalTZA (timestamp e).
Proof.
  unfold groupKey. cbv zeta. rewrite !DateFacts.toDateString_eqb, DateFacts.setDate_prev_day.
  replace (Day (LocalTime LocalTZA (now - msPerDay)))
    with (Day (LocalTime LocalTZA now) - 1)
    by (unfold LocalTime; rewrite <- DateFacts.Day_prev; f_equal; lia).
  unfold localDay. repeat case_bool_decide; repeat case_decide; done.
Qed.

Lemma groupKey_Today (e : JournalEntry) :
  groupKey LocalTZA now e = "Today" <-> localDay LocalTZA e = Day (LocalTime LocalTZA now).
Proof.
  rewrite groupKey_cases. destruct (DateFacts.formatted_not_relative LocalTZA (timestamp e)).
  repeat case_decide; split; try done; lia.
Qed.

Lemma groupKey_Yesterday (e : JournalEntry) :
  groupKey LocalTZA now e = "Yesterday"
  <-> localDay LocalTZA e = Day (LocalTime LocalTZA now) - 1.
Proof.
  rewrite groupKey_cases. destruct (DateFacts.formatted_not_relative LocalTZA (timestamp e)).
  repeat case_decide; split; try done; lia.
Qed.
End GroupKeyCases.


(** ** The transcription service *)

Section GeminiFacts.
Context {Store : Type} (P : Platform Store).

Lemma transcribeAudio_no_key (blob : Blob) (s : Sys Store) :
  truthy (API_KEY P) = false ->
  transcribeAudio P blob s = (inl (JsError "API Key is missing."), s).
Proof. intros Hk. unfold transcribeAudio. rewrite Hk. reflexivity. Qed.

Lemma transcribeAudio_unreadable (blob : Blob) (s : Sys Store) (e : Exn) :
  truthy (API_KEY P) = true ->
  readAsDataURL P blob = inl e ->
  transcribeAudio P blob s =
    (inl e, mkSys (app s) (store s)
              (log s ++ [EvNewGoogleGenAI (default "" (API_KEY P))] ++ [EvReadAsDataURL blob])).
Proof.
  intros Hk Hr. unfold transcribeAudio, blobToBase64, bind, emit, await, try_catch.
  rewrite Hk. simpl. rewrite Hr. simpl. by rewrite <- app_assoc.
Qed.

(** With a credential and a readable blob, the call issues one request
    and its outcome is the provider's. *)
Lemma transcribeAudio_request (blob : Blob) (s : Sys Store) (dataURL : string) :
  truthy (API_KEY P) = true ->
  readAsDataURL P blob = inr dataURL ->
  let req := requestFor blob dataURL in
  let before := log s ++ [EvNewGoogleGenAI (default "" (API_KEY P)); EvReadAsDataURL blob;
                          EvGenerateContent req] in
  transcribeAudio P blob s =
    match generateContent P req with
    | inr response =>
        (inr (opt_or (response_text response) ""), mkSys (app s) (store s) before)
    | inl error =>
        (inl error,
         mkSys (app s) (store s)
           (before ++ [EvConsoleError "Gemini Transcription Error:" error]))
    end.
Proof.
  intros Hk Hr. unfold transcribeAudio, blobToBase64, bind, emit, await, try_catch, throw, ret.
  rewrite Hk. simpl. rewrite Hr. simpl. fold (requestFor blob dataURL).
  destruct (generateContent P (requestFor blob dataURL)) as [err|resp]; simpl;
    rewrite <- ?app_assoc; reflexivity.
Qed.

(** The call touches neither the component state nor the store. *)
Lemma transcribeAudio_frame (blob : Blob) (s : Sys Store) :
  store (transcribeAudio P blob s).2 = store s
  /\ app (transcribeAudio P blob s).2 = app s.
Proof.
  unfold transcribeAudio, blobToBase64, bind, emit, await, try_catch, throw, ret.
  destruct (negb _); simpl; [done|].
  destruct (readAsDataURL P blob); simpl; [done|].
  destruct (generateContent P _); simpl; done.
Qed.

Lemma requests_app (l1 l2 : list Event) : requests (l1 ++ l2) = requests l1 ++ requests l2.
Proof. apply omap_app. Qed.

Lemma savedEntries_app (l1 l2 : list Event) :
  savedEntries (l1 ++ l2) = savedEntries l1 ++ savedEntries l2.
Proof. apply omap_app. Qed.

(** Whatever happens, one call issues at most one request. *)
Lemma transcribeAudio_at_most_one_request (blob : Blob) (s : Sys Store) :
  exists issued, requests (log (transcribeAudio P blob s).2) = requests (log s) ++ issued
                 /\ (length issued <= 1)%nat.
Proof.
  destruct (truthy (API_KEY P)) eqn:Hk.
  - destruct (readAsDataURL P blob) as [e|dataURL] eqn:Hr.
    + rewrite (transcribeAudio_unreadable blob s e Hk Hr). exists []. simpl.
      rewrite !requests_app. simpl. split; [done | lia].
    + rewrite (transcribeAudio_request blob s dataURL Hk Hr).
      exists [requestFor blob dataURL]. split; [|simpl; lia].
      destruct (generateContent P _); simpl; rewrite !requests_app; simpl;
        by rewrite ?app_nil_r.
  - rewrite (transcribeAudio_no_key blob s Hk). exists []. simpl.
    rewrite app_nil_r. split; [done | lia].
Qed.
End GeminiFacts.


(** ** The audio path of [App] *)

Section AudioPathFacts.
Context {Store : Type} (P : Platform Store).

Lemma handleAudioComplete_fault (blob : Blob) (uuid : string) (dateNow : Z)
    (s : Sys Store) (dataURL : string) (cause : Exn) :
  truthy (API_KEY P) = true ->
  readAsDataURL P blob = inr dataURL ->
  generateContent P (requestFor blob dataURL) = inl cause ->
  handleAudioComplete P blob uuid dateNow s =
    (inr tt,
     mkSys (with_isProcessingAudio false (with_isProcessingAudio true (app s))) (store s)
       (log s ++ [EvNewGoogleGenAI (default "" (API_KEY P)); EvReadAsDataURL blob;
                  EvGenerateContent (requestFor blob dataURL);
                  EvConsoleError "Gemini Transcription Error:" cause;
                  EvConsoleError "Failed to process audio entry" cause;
                  EvAlert "Failed to process audio. Please check your API key or network."])).
Proof.
  intros Hk Hr Hg.
  unfold handleAudioComplete, finally, try_catch, bind at 1 2, setState.
  rewrite (transcribeAudio_request P blob _ dataURL Hk Hr), Hg. simpl.
  unfold bind, emit, map_app. simpl. rewrite <- !app_assoc. reflexivity.
Qed.

Lemma handleAudioComplete_transcribed (blob : Blob) (uuid : string) (dateNow : Z)
    (s : Sys Store) (dataURL : string) (response : GenerateContentResponse) :
  truthy (API_KEY P) = true ->
  readAsDataURL P blob = inr dataURL ->
  generateContent P (requestFor blob dataURL) = inr response ->
  let e := {| id := uuid; type := audio;
              content := opt_or (response_text response) "";
              audioBlob := Some blob; timestamp := dateNow |} in
  let calls := [EvNewGoogleGenAI (default "" (API_KEY P)); EvReadAsDataURL blob;
                EvGenerateContent (requestFor blob dataURL); EvSaveEntry e] in
  handleAudioComplete P blob uuid dateNow s =
    match saveEntry P (store s) e with
    | inr st' =>
        (inr tt,
         mkSys (with_isProcessingAudio false
                  (with_isRecordingMode false
                     (with_entries (fun prev => e :: prev)
                        (with_isProcessingAudio true (app s)))))
           st' (log s ++ calls ++ [EvScrollToTop]))
    | inl error =>
        (inr tt,
         mkSys (with_isProcessingAudio false (with_isProcessingAudio true (app s)))
           (store s)
           (log s ++ calls ++
              [EvConsoleError "Failed to process audio entry" error;
               EvAlert "Failed to process audio. Please check your API key or network."]))
    end.
Proof.
  intros Hk Hr Hg e calls. subst e calls.
  unfold handleAudioComplete, finally, try_catch, bind at 1 2, setState.
  rewrite (transcribeAudio_request P blob _ dataURL Hk Hr), Hg. simpl.
  unfold call_saveEntry, bind, emit, getStore, await, putStore, setState, map_app. simpl.
  destruct (saveEntry P (store s) _) as [err|st']; simpl;
    rewrite <- !app_assoc; reflexivity.
Qed.
End AudioPathFacts.

(** C5. If the transcription credential is absent, [transcribeAudio] fails
    at once with the configuration error "API Key is missing."; the state
    of the system, its call log included, is untouched: no client is
    built, the blob is not read, no request is issued. *)
Theorem transcribe_without_credential {Store : Type} (P : Platform Store)
    (blob : Blob) (s : Sys Store) :
  truthy (API_KEY P) = false ->
  transcribeAudio P blob s = (inl (JsError "API Key is missing."), s)
  /\ requests (log (transcribeAudio P blob s).2) = requests (log s).
Proof.
  intros Hk. rewrite (transcribeAudio_no_key P blob s Hk). done.
Qed.

Lemma transcribe_without_credential_witness :
  let P := EntryStore.platform None Sample.reader Sample.provider_hello in
  truthy (API_KEY P) = false
  /\ transcribeAudio P Sample.webm Sample.fresh
     = (inl (JsError "API Key is missing."), Sample.fresh).
Proof.
  split; [reflexivity|].
  apply (transcribe_without_credential
           (EntryStore.platform None Sample.reader Sample.provider_hello)).
  reflexivity.
Defined.

(** C6. If the request to the provider faults, [transcribeAudio] fails
    with the very value the request failed with, having issued exactly
    one request; [handleAudioComplete] then leaves the store and the entry
    list as they were, hands nothing to [saveEntry], issues no further
    request, and clears the processing flag. *)
Theorem transcription_fault_discards_audio {Store : Type} (P : Platform Store)
    (blob : Blob) (uuid : string) (dateNow : Z) (s : Sys Store)
    (dataURL : string) (cause : Exn) :
  truthy (API_KEY P) = true ->
  readAsDataURL P blob = inr dataURL ->
  generateContent P (requestFor blob dataURL) = inl cause ->
  ((transcribeAudio P blob s).1 = inl cause
   /\ requests (log (transcribeAudio P blob s).2)
      = requests (log s) ++ [requestFor blob dataURL])
  /\ let s' := (handleAudioComplete P blob uuid dateNow s).2 in
     store s' = store s
     /\ entries (app s') = entries (app s)
     /\ savedEntries (log s') = savedEntries (log s)
     /\ requests (log s') = requests (log s) ++ [requestFor blob dataURL]
     /\ isProcessingAudio (app s') = false.
Proof.
  intros Hk Hr Hg. split.
  - rewrite (transcribeAudio_request P blob s dataURL Hk Hr), Hg. simpl.
    split; [done|]. rewrite !requests_app. simpl. by rewrite app_nil_r.
  - rewrite (handleAudioComplete_fault P blob uuid dateNow s dataURL cause Hk Hr Hg).
    simpl. rewrite savedEntries_app, requests_app. simpl.
    by rewrite app_nil_r.
Qed.

Lemma transcription_fault_discards_audio_witness :
  let P := EntryStore.platform (Some "k") Sample.reader Sample.provider_down in
  let url := "data:audio/webm;codecs=opus;base64,GkXf" in
  let s' := (handleAudioComplete P Sample.webm "id-1" 1704103200000 Sample.fresh).2 in
  (truthy (API_KEY P) = true
   /\ readAsDataURL P Sample.webm = inr url
   /\ generateContent P (requestFor Sample.webm url) = inl (Rejection "503 Service Unavailable"))
  /\ store s' = [] /\ entries (app s') = [] /\ savedEntries (log s') = [].
Proof.
  split; [repeat split|].
  pose proof (transcription_fault_discards_audio
                (EntryStore.platform (Some "k") Sample.reader Sample.provider_down)
                Sample.webm "id-1" 1704103200000 Sample.fresh
                "data:audio/webm;codecs=opus;base64,GkXf"
                (Rejection "503 Service Unavailable")
                eq_refl eq_refl eq_refl) as [_ (H1 & H2 & H3 & _)].
  exact (conj H1 (conj H2 H3)).
Defined.

(** C7. When the provider answers, [transcribeAudio] succeeds with the
    answer's text, or with the empty string when the answer has none; and
    when the transcript is empty [handleAudioComplete] still hands
    [saveEntry] an audio entry with empty content carrying the blob, and,
    the store accepting it, makes it the first entry of the list. *)
Theorem empty_transcript_is_saved {Store : Type} (P : Platform Store)
    (blob : Blob) (uuid : string) (dateNow : Z) (s : Sys Store)
    (dataURL : string) (response : GenerateContentResponse) :
  truthy (API_KEY P) = true ->
  readAsDataURL P blob = inr dataURL ->
  generateContent P (requestFor blob dataURL) = inr response ->
  (transcribeAudio P blob s).1 = inr (opt_or (response_text response) "")
  /\ (forall t, response_text response = Some t -> opt_or (response_text response) "" = t)
  /\ (response_text response = None -> opt_or (response_text response) "" = "")
  /\ (opt_or (response_text response) "" = "" ->
      let e := {| id := uuid; type := audio; content := "";
                  audioBlob := Some blob; timestamp := dateNow |} in
      let s' := (handleAudioComplete P blob uuid dateNow s).2 in
      savedEntries (log s') = savedEntries (log s) ++ [e]
      /\ forall st', saveEntry P (store s) e = inr st' ->
           store s' = st' /\ entries (app s') = e :: entries (app s)).
Proof.
  intros Hk Hr Hg. repeat split.
  - by rewrite (transcribeAudio_request P blob s dataURL Hk Hr), Hg.
  - intros t ->. simpl. unfold str_or. destruct (String.eqb_spec t ""); congruence.
  - by intros ->.
  - rewrite (handleAudioComplete_transcribed P blob uuid dateNow s dataURL response Hk Hr Hg).
    rewrite H. destruct (saveEntry P (store s) _); simpl;
      rewrite savedEntries_app; simpl; reflexivity.
  - rewrite (handleAudioComplete_transcribed P blob uuid dateNow s dataURL response Hk Hr Hg).
    rewrite H, H0. reflexivity.
  - rewrite (handleAudioComplete_transcribed P blob uuid dateNow s dataURL response Hk Hr Hg).
    rewrite H, H0. reflexivity.
Qed.

Lemma empty_transcript_is_saved_witness :
  let P := EntryStore.platform (Some "k") Sample.reader Sample.provider_silent in
  let url := "data:;base64,GkXf" in
  let e := {| id := "id-1"; type := audio; content := "";
              audioBlob := Some Sample.silence; timestamp := 1704103200000 |} in
  (truthy (API_KEY P) = true
   /\ readAsDataURL P Sample.silence = inr url
   /\ generateContent P (requestFor Sample.silence url) = inr (mkResponse None))
  /\ (transcribeAudio P Sample.silence Sample.fresh).1 = inr ""
  /\ store (handleAudioComplete P Sample.silence "id-1" 1704103200000 Sample.fresh).2 = [e].
Proof.
  split; [repeat split|].
  pose proof (empty_transcript_is_saved
                (EntryStore.platform (Some "k") Sample.reader Sample.provider_silent)
                Sample.silence "id-1" 1704103200000 Sample.fresh
                "data:;base64,GkXf" (mkResponse None)
                eq_refl eq_refl eq_refl) as (H1 & _ & _ & H4).
  split; [exact H1|].
  destruct (H4 eq_refl) as [_ H5]. exact (proj1 (H5 _ eq_refl)).
Defined.

(** C10. The request carries the blob's own MIME type when that is a
    non-empty string and "audio/webm" when it is empty; with an empty
    type the call still issues its request and succeeds whenever the
    provider answers. *)
Theorem request_mime_type {Store : Type} (P : Platform Store)
    (blob : Blob) (s : Sys Store) (dataURL : string) :
  truthy (API_KEY P) = true ->
  readAsDataURL P blob = inr dataURL ->
  requests (log (transcribeAudio P blob s).2)
    = requests (log s) ++ [requestFor blob dataURL]
  /\ inline_mimeType (requestFor blob dataURL)
     = (if decide (blob_type blob = "") then "audio/webm" else blob_type blob)
  /\ forall response, generateContent P (requestFor blob dataURL) = inr response ->
       (transcribeAudio P blob s).1 = inr (opt_or (response_text response) "").
Proof.
  intros Hk Hr. rewrite (transcribeAudio_request P blob s dataURL Hk Hr).
  repeat split.
  - destruct (generateContent P _); simpl; rewrite !requests_app; simpl;
      by rewrite ?app_nil_r.
  - unfold requestFor, str_or. simpl.
    destruct (String.eqb_spec (blob_type blob) ""), (decide (blob_type blob = ""));
      congruence.
  - by intros response ->.
Qed.

Lemma request_mime_type_witness :
  let P := EntryStore.platform (Some "k") Sample.reader Sample.provider_hello in
  let url := "data:;base64,GkXf" in
  (truthy (API_KEY P) = true /\ readAsDataURL P Sample.silence = inr url)
  /\ inline_mimeType (requestFor Sample.silence url) = "audio/webm"
  /\ (transcribeAudio P Sample.silence Sample.fresh).1 = inr "hello".
Proof.
  split; [repeat split|].
  pose proof (request_mime_type
                (EntryStore.platform (Some "k") Sample.reader Sample.provider_hello)
                Sample.silence Sample.fresh "data:;base64,GkXf"
                eq_refl eq_refl) as (_ & H2 & H3).
  split; [exact H2 | exact (H3 _ eq_refl)].
Defined.

(** ** Entries and their attachments *)

Section Preservation.
Context {Store : Type}.
Implicit Types (I : Sys Store -> Prop) (s : Sys Store).

Lemma preserves_ret {A} I (a : A) : preserves I (ret a).
Proof. by intros s. Qed.

Lemma preserves_throw {A} I (e : Exn) : preserves I (throw (A:=A) e).
Proof. by intros s. Qed.

Lemma preserves_await {A} I (r : Exn + A) : preserves I (await r).
Proof. by intros s. Qed.

Lemma preserves_getStore I : preserves I getStore.
Proof. by intros s. Qed.

Lemma preserves_getState I : preserves I (getState (Store:=Store)).
Proof. by intros s. Qed.

Lemma preserves_bind {A B} I (m : M Store A) (k : A -> M Store B) :
  preserves I m -> (forall a, preserves I (k a)) -> preserves I (bind m k).
Proof.
  intros Hm Hk s Hs. unfold bind. specialize (Hm s Hs).
  destruct (m s) as [[e|a] s1]; simpl in *; [done|]. by apply Hk.
Qed.

Lemma preserves_try_catch {A} I (m : M Store A) (h : Exn -> M Store A) :
  preserves I m -> (forall e, preserves I (h e)) -> preserves I (try_catch m h).
Proof.
  intros Hm Hh s Hs. unfold try_catch. specialize (Hm s Hs).
  destruct (m s) as [[e|a] s1]; simpl in *; [|done]. by apply Hh.
Qed.

Lemma preserves_finally {A} I (m : M Store A) (f : Sys Store -> Sys Store) :
  preserves I m -> (forall s, I s -> I (f s)) -> preserves I (finally m f).
Proof.
  intros Hm Hf s Hs. unfold finally. specialize (Hm s Hs).
  destruct (m s) as [r s1]; simpl in *. by apply Hf.
Qed.

(** The rules for [entries_wf]. *)

Lemma wf_emit (ev : Event) :
  (forall e, ev = EvSaveEntry e -> attachment_iff_audio e) ->
  preserves (Store:=Store) entries_wf (emit ev).
Proof.
  intros Hev s [Hl He]. split; [|done]. simpl.
  rewrite savedEntries_app. apply Forall_app. split; [done|].
  destruct ev; simpl; try constructor; [by apply Hev | constructor].
Qed.

Lemma wf_putStore (st : Store) : preserves entries_wf (putStore st).
Proof. by intros s. Qed.

Lemma wf_setState (f : AppState -> AppState) :
  (forall a, Forall attachment_iff_audio (entries a) ->
             Forall attachment_iff_audio (entries (f a))) ->
  preserves (Store:=Store) entries_wf (setState f).
Proof. intros Hf s [Hl He]. split; [done|]. by apply Hf. Qed.

Lemma wf_map_app (f : AppState -> AppState) s :
  (forall a, entries (f a) = entries a) -> entries_wf s -> entries_wf (map_app f s).
Proof. intros Hf [Hl He]. split; [done|]. simpl. by rewrite Hf. Qed.
End Preservation.

Ltac preserve :=
  repeat first
    [ apply preserves_ret | apply preserves_throw | apply preserves_await
    | apply preserves_getStore | apply preserves_getState | apply wf_putStore
    | apply preserves_bind; [|intros ?]
    | apply preserves_try_catch; [|intros ?]
    | apply wf_emit; intros ? [=] ].

Section EntriesWf.
Context {Store : Type} (P : Platform Store).

Lemma text_entry_wf (uuid c : string) (t : Z) :
  attachment_iff_audio {| id := uuid; type := text; content := c;
                          audioBlob := None; timestamp := t |}.
Proof. split; simpl; [by intros [? [=]] | done]. Qed.

Lemma audio_entry_wf (uuid c : string) (b : Blob) (t : Z) :
  attachment_iff_audio {| id := uuid; type := audio; content := c;
                          audioBlob := Some b; timestamp := t |}.
Proof. split; simpl; eauto. Qed.

Lemma wf_transcribeAudio (blob : Blob) : preserves entries_wf (transcribeAudio P blob).
Proof.
  unfold transcribeAudio, blobToBase64.
  destruct (negb _); preserve.
Qed.

Lemma wf_call_saveEntry (e : JournalEntry) :
  attachment_iff_audio e -> preserves entries_wf (call_saveEntry P e).
Proof.
  intros He. unfold call_saveEntry. preserve. by subst.
Qed.

Lemma wf_handleTextSubmit (uuid : string) (dateNow : Z) :
  preserves entries_wf (handleTextSubmit P uuid dateNow).
Proof.
  unfold handleTextSubmit. apply preserves_bind; [preserve|]. intros a.
  destruct (negb _); preserve; [subst; apply text_entry_wf|].
  apply wf_setState. intros a' Ha'. simpl. constructor; [apply text_entry_wf | done].
Qed.

Lemma wf_handleAudioComplete (blob : Blob) (uuid : string) (dateNow : Z) :
  preserves entries_wf (handleAudioComplete P blob uuid dateNow).
Proof.
  unfold handleAudioComplete. apply preserves_bind; [by apply wf_setState|]. intros _.
  apply preserves_finally; [|intros s; by apply wf_map_app].
  apply preserves_try_catch; [|intros ?; preserve].
  apply preserves_bind; [apply wf_transcribeAudio|]. intros transcription.
  preserve; [subst; apply audio_entry_wf|].
  apply wf_setState. intros a' Ha'. simpl. constructor; [apply audio_entry_wf | done].
Qed.

Lemma wf_handleDelete (entryId : string) (confirmed : bool) :
  preserves entries_wf (handleDelete P entryId confirmed).
Proof.
  unfold handleDelete, call_deleteEntry. destruct confirmed; preserve.
  apply wf_setState. intros a' Ha'. simpl.
  rewrite Forall_forall in Ha' |- *. intros x [_ Hx]%list_elem_of_filter. by apply Ha'.
Qed.

Lemma wf_perform (act : Action) : preserves entries_wf (perform P act).
Proof.
  destruct act; simpl.
  - by apply wf_setState.
  - apply wf_handleTextSubmit.
  - by apply wf_setState.
  - apply wf_handleAudioComplete.
  - apply preserves_bind; [preserve|]. intros a.
    destruct (isProcessingAudio a); [preserve | by apply wf_setState].
  - apply wf_handleDelete.
Qed.
End EntriesWf.

Lemma wf_run_app {Store : Type} (steps : list (Platform Store * Action)) (s : Sys Store) :
  entries_wf s -> entries_wf (run_app steps s).
Proof.
  revert s. induction steps as [|[P act] steps IH]; intros s Hs; [done|].
  apply IH. by apply wf_perform.
Qed.

(** C4. The entry built by [handleTextSubmit] is a text entry without
    attachment, the entry built by [handleAudioComplete] is an audio entry
    with the recorded blob attached; hence along every run of the
    application every entry handed to [saveEntry] and every entry of the
    list has an attachment exactly when its kind is audio. *)
Theorem attachment_present_iff_audio {Store : Type}
    (steps : list (Platform Store * Action)) (s : Sys Store) :
  Forall attachment_iff_audio (savedEntries (log s)) ->
  Forall attachment_iff_audio (entries (app s)) ->
  Forall attachment_iff_audio (savedEntries (log (run_app steps s)))
  /\ Forall attachment_iff_audio (entries (app (run_app steps s))).
Proof. intros Hl He. by apply (wf_run_app steps s). Qed.

Lemma attachment_present_iff_audio_witness :
  let P := EntryStore.platform (Some "k") Sample.reader Sample.provider_hello in
  let steps := [(P, ActType "buy milk"); (P, ActTextSubmit "id-1" 1704103200000);
                (P, ActOpenRecorder); (P, ActAudioComplete Sample.webm "id-2" 1704103260000)] in
  (Forall attachment_iff_audio (savedEntries (log Sample.fresh))
   /\ Forall attachment_iff_audio (entries (app Sample.fresh)))
  /\ length (entries (app (run_app steps Sample.fresh))) = 2%nat
  /\ Forall attachment_iff_audio (entries (app (run_app steps Sample.fresh))).
Proof.
  split; [split; constructor|]. split; [reflexivity|].
  apply (attachment_present_iff_audio
           (let P := EntryStore.platform (Some "k") Sample.reader Sample.provider_hello in
            [(P, ActType "buy milk"); (P, ActTextSubmit "id-1" 1704103200000);
             (P, ActOpenRecorder); (P, ActAudioComplete Sample.webm "id-2" 1704103260000)])
           Sample.fresh); constructor.
Defined.

(** ** Encoding negotiation *)

Module NegotiationFacts.
Import AudioRecorder.

Lemma selectLoop_first (supported : string -> bool) (pre post : list string)
    (ty init : string) :
  Forall (fun c => supported c = false) pre ->
  supported ty = true ->
  selectLoop supported (pre ++ ty :: post) init = ty.
Proof.
  intros Hpre Hty. induction Hpre as [|c pre Hc _ IH]; simpl.
  - by rewrite Hty.
  - by rewrite Hc.
Qed.

Lemma selectLoop_none (supported : string -> bool) (candidates : list string)
    (init : string) :
  Forall (fun c => supported c = false) candidates ->
  selectLoop supported candidates init = init.
Proof.
  intros Hall. induction Hall as [|c rest Hc _ IH]; simpl; [done|]. by rewrite Hc.
Qed.

Lemma mimeTypes_nonempty (ty : string) : ty ∈ mimeTypes -> ty ≠ "".
Proof.
  unfold mimeTypes. rewrite !elem_of_cons, elem_of_nil.
  intros [->|[->|[->|[->|[->|[]]]]]]; discriminate.
Qed.

Lemma recorderOptions_nonempty (ty : string) : ty ≠ "" -> recorderOptions ty = Some ty.
Proof.
  intros Hne. unfold recorderOptions, truthy.
  destruct (String.eqb_spec ty ""); [done|reflexivity].
Qed.

End NegotiationFacts.

(** C8. Negotiation selects the first encoding of the preference list
    that the device supports and builds the recorder with it; when the
    device supports none of them the recorder is built without options,
    that is, with the device's default encoding; and whatever the device
    supports, once the stream is granted the recorder is built and
    recording starts. *)
Theorem negotiation_selects_first_supported (dev : AudioRecorder.Device) :
  AudioRecorder.mimeTypes
    = ["audio/webm;codecs=opus"; "audio/webm"; "audio/mp4"; "audio/aac"; "audio/ogg"]
  /\ (forall pre ty post,
        AudioRecorder.mimeTypes = pre ++ ty :: post ->
        Forall (fun c => AudioRecorder.isTypeSupported dev c = false) pre ->
        AudioRecorder.isTypeSupported dev ty = true ->
        AudioRecorder.selectMimeType dev = ty
        /\ AudioRecorder.recorderOptions (AudioRecorder.selectMimeType dev) = Some ty)
  /\ (Forall (fun c => AudioRecorder.isTypeSupported dev c = false) AudioRecorder.mimeTypes ->
        AudioRecorder.selectMimeType dev = ""
        /\ AudioRecorder.recorderOptions (AudioRecorder.selectMimeType dev) = None)
  /\ (forall s ntracks timer,
        AudioRecorder.getUserMediaPending s = true ->
        let s' := AudioRecorder.step s (AudioRecorder.EvGetUserMediaResolved dev ntracks timer) in
        let opts := AudioRecorder.recorderOptions (AudioRecorder.selectMimeType dev) in
        AudioRecorder.mediaRecorderRef s'
          = Some (AudioRecorder.mkRecorder opts (AudioRecorder.recorder_mimeType dev opts))
        /\ AudioRecorder.recorderState s' = AudioRecorder.recording).
Proof.
  split; [reflexivity|]. split; [|split].
  - intros pre ty post Hsplit Hpre Hty.
    assert (AudioRecorder.selectMimeType dev = ty) as Hsel.
    { unfold AudioRecorder.selectMimeType. rewrite Hsplit.
      by apply NegotiationFacts.selectLoop_first. }
    split; [done|]. rewrite Hsel. apply NegotiationFacts.recorderOptions_nonempty.
    apply NegotiationFacts.mimeTypes_nonempty. rewrite Hsplit.
    apply elem_of_app. right. constructor.
  - intros Hnone.
    assert (AudioRecorder.selectMimeType dev = "") as ->; [|done].
    by apply NegotiationFacts.selectLoop_none.
  - intros s ntracks timer Hp. simpl. by rewrite Hp.
Qed.

Lemma negotiation_selects_first_supported_witness :
  (AudioRecorder.mimeTypes = ["audio/webm;codecs=opus"; "audio/webm"] ++ "audio/mp4" :: ["audio/aac"; "audio/ogg"]
   /\ Forall (fun c => AudioRecorder.isTypeSupported Sample.only_mp4 c = false)
        ["audio/webm;codecs=opus"; "audio/webm"]
   /\ AudioRecorder.isTypeSupported Sample.only_mp4 "audio/mp4" = true)
  /\ AudioRecorder.selectMimeType Sample.only_mp4 = "audio/mp4".
Proof.
  assert (Forall (fun c => AudioRecorder.isTypeSupported Sample.only_mp4 c = false)
            ["audio/webm;codecs=opus"; "audio/webm"]) as Hpre
    by (repeat constructor).
  split; [split; [reflexivity | split; [exact Hpre | reflexivity]]|].
  exact (proj1 (proj1 (proj2 (negotiation_selects_first_supported Sample.only_mp4))
                  ["audio/webm;codecs=opus"; "audio/webm"] "audio/mp4"
                  ["audio/aac"; "audio/ogg"] eq_refl Hpre eq_refl)).
Defined.

(** ** The entry store *)

Module EntryStoreFacts.
Import EntryStore.

Lemma insert_desc_perm (e : JournalEntry) (l : list JournalEntry) :
  insert_desc e l ≡ₚ e :: l.
Proof.
  induction l as [|x rest IH]; simpl; [done|].
  destruct (timestamp x <=? timestamp e); [done|].
  rewrite IH. apply Permutation_swap.
Qed.

Lemma listAll_perm (st : Store) : listAll st ≡ₚ st.
Proof.
  induction st as [|e st IH]; simpl; [done|].
  rewrite insert_desc_perm. by rewrite IH.
Qed.

Lemma insert_desc_sorted (e : JournalEntry) (l : list JournalEntry) :
  StronglySorted desc l -> StronglySorted desc (insert_desc e l).
Proof.
  induction 1 as [|x rest Hsorted IH Hx]; simpl.
  - repeat constructor.
  - destruct (Z.leb_spec (timestamp x) (timestamp e)) as [Hle|Hgt].
    + constructor; [by constructor|]. constructor; [done|].
      eapply Forall_impl; [exact Hx|]. unfold desc. intros y Hy. lia.
    + constructor; [done|]. rewrite insert_desc_perm.
      constructor; [unfold desc; lia | done].
Qed.

Lemma listAll_sorted (st : Store) : StronglySorted desc (listAll st).
Proof.
  induction st as [|e st IH]; simpl; [constructor|]. by apply insert_desc_sorted.
Qed.

Lemma insert_desc_filter (t : Z) (e : JournalEntry) (l : list JournalEntry) :
  filter (fun x => timestamp x = t) (insert_desc e l)
  = filter (fun x => timestamp x = t) (e :: l).
Proof.
  induction l as [|x rest IH]; simpl; [done|].
  destruct (Z.leb_spec (timestamp x) (timestamp e)) as [Hle|Hgt]; [done|].
  rewrite filter_cons, IH, !filter_cons.
  repeat case_decide; try done; lia.
Qed.

(** Among entries of equal timestamp the listing keeps the order of the
    store: the later insert first. *)
Lemma listAll_stable (t : Z) (st : Store) :
  filter (fun x => timestamp x = t) (listAll st) = filter (fun x => timestamp x = t) st.
Proof.
  induction st as [|e st IH]; simpl; [done|].
  rewrite insert_desc_filter, !filter_cons, IH. done.
Qed.

Lemma listAll_max_first (e : JournalEntry) (st : Store) :
  (forall x, x ∈ st -> timestamp x <= timestamp e) ->
  listAll (e :: st) = e :: listAll st.
Proof.
  intros Hmax. simpl.
  assert (forall x, x ∈ listAll st -> timestamp x <= timestamp e) as Hmax'.
  { intros x Hx. apply Hmax. by rewrite <- (listAll_perm st). }
  destruct (listAll st) as [|x rest]; simpl; [done|].
  destruct (Z.leb_spec (timestamp x) (timestamp e)) as [Hle|Hgt]; [done|].
  specialize (Hmax' x ltac:(constructor)). lia.
Qed.

Lemma insert_inv (st st' : Store) (e : JournalEntry) :
  insert st e = inr st' -> st' = e :: st /\ id e ∉ map id st.
Proof.
  unfold insert, has_id. case_bool_decide; [done|]. by intros [= <-].
Qed.

End EntryStoreFacts.

Section StoreSync.
Import EntryStore.
Variables (key : option string) (reader : Blob -> Exn + string)
          (provider : GenerateContentRequest -> Exn + GenerateContentResponse).
Local Abbreviation P := (platform key reader provider).

Lemma handleTextSubmit_saved (uuid : string) (dateNow : Z) (s : Sys Store) (st' : Store) :
  let e := {| id := uuid; type := text; content := trim (inputText (app s));
              audioBlob := None; timestamp := dateNow |} in
  trim (inputText (app s)) ≠ "" ->
  insert (store s) e = inr st' ->
  let s' := (handleTextSubmit P uuid dateNow s).2 in
  store s' = st' /\ entries (app s') = e :: entries (app s).
Proof.
  intros e Hne Hins s'.
  assert (s' = mkSys (with_inputText "" (with_entries (fun prev => e :: prev) (app s)))
                 st' ((log s ++ [EvSaveEntry e]) ++ [EvScrollToTop])) as ->; [|done].
  assert (negb (truthy (Some (trim (inputText (app s))))) = false) as Hb.
  { simpl. by destruct (String.eqb_spec (trim (inputText (app s))) ""). }
  subst s' e. unfold handleTextSubmit, bind at 1, getState. cbv beta iota. rewrite Hb.
  unfold try_catch, call_saveEntry, bind, emit, getStore, await, putStore, setState.
  unfold platform. cbn [store app log fst snd saveEntry]. by rewrite Hins.
Qed.

Lemma handleAudioComplete_saved (blob : Blob) (uuid : string) (dateNow : Z)
    (s : Sys Store) (transcription : string) (st' : Store) :
  let e := {| id := uuid; type := audio; content := transcription;
              audioBlob := Some blob; timestamp := dateNow |} in
  (forall s0, (transcribeAudio P blob s0).1 = inr transcription) ->
  insert (store s) e = inr st' ->
  let s' := (handleAudioComplete P blob uuid dateNow s).2 in
  store s' = st' /\ entries (app s') = e :: entries (app s).
Proof.
  intros e Htr Hins s'.
  assert (exists lg, handleAudioComplete P blob uuid dateNow s
            = (inr tt, mkSys (with_isProcessingAudio false
                                (with_isRecordingMode false
                                   (with_entries (fun prev => e :: prev)
                                      (with_isProcessingAudio true (app s)))))
                         st' lg)) as [lg Heq]; [|subst s'; by rewrite Heq].
  clear s'. subst e.
  unfold handleAudioComplete, finally, try_catch, bind at 1 2, setState.
  pose proof (transcribeAudio_frame P blob
                {| app := with_isProcessingAudio true (app s);
                   store := store s; log := log s |}) as Hframe.
  specialize (Htr {| app := with_isProcessingAudio true (app s);
                     store := store s; log := log s |}).
  destruct (transcribeAudio P blob _) as [[err|tr] s1]; simpl in Htr, Hframe; [done|].
  injection Htr as ->. destruct Hframe as [Hst Happ].
  unfold call_saveEntry, bind, emit, getStore, await, putStore, setState.
  unfold platform. cbn [store app log fst snd saveEntry].
  rewrite Hst, Hins. cbn [store app log fst snd map_app]. rewrite Happ. eauto.
Qed.

(** After the mount effect the list is the store's listing. *)
Lemma boot_lists_store (st : Store) :
  store (boot P st) = st /\ entries (app (boot P st)) = listAll st.
Proof. done. Qed.
End StoreSync.

(** C3. After a successful insert of an entry whose timestamp is not
    below that of any stored entry, the listing starts with that entry and
    continues with the previous listing; the listing holds exactly the
    stored entries, by timestamp descending, entries of equal timestamp in
    the order later-insert-first.  The two handlers of [App] that save an
    entry put it at the front of the list they keep, so that this list
    remains the store's listing. *)
Theorem insert_then_listAll (st st' : EntryStore.Store) (e : JournalEntry) :
  EntryStore.insert st e = inr st' ->
  (forall x, x ∈ st -> timestamp x <= timestamp e) ->
  head (EntryStore.listAll st') = Some e
  /\ EntryStore.listAll st' = e :: EntryStore.listAll st
  /\ EntryStore.listAll st' ≡ₚ st'
  /\ StronglySorted desc (EntryStore.listAll st')
  /\ (forall t, filter (fun x => timestamp x = t) (EntryStore.listAll st')
                = filter (fun x => timestamp x = t) st')
  /\ (forall key reader provider (s : Sys EntryStore.Store),
        let P := EntryStore.platform key reader provider in
        store s = st -> entries (app s) = EntryStore.listAll st ->
        (e = {| id := id e; type := text; content := trim (inputText (app s));
                audioBlob := None; timestamp := timestamp e |} ->
         content e ≠ "" ->
         let s' := (handleTextSubmit P (id e) (timestamp e) s).2 in
         store s' = st' /\ entries (app s') = EntryStore.listAll st')
        /\ (forall blob,
              e = {| id := id e; type := audio; content := content e;
                     audioBlob := Some blob; timestamp := timestamp e |} ->
              (forall s0, (transcribeAudio P blob s0).1 = inr (content e)) ->
              let s' := (handleAudioComplete P blob (id e) (timestamp e) s).2 in
              store s' = st' /\ entries (app s') = EntryStore.listAll st')).
Proof.
  intros Hins Hmax.
  destruct (EntryStoreFacts.insert_inv st st' e Hins) as [-> Hfresh].
  pose proof (EntryStoreFacts.listAll_max_first e st Hmax) as Hfirst.
  split; [by rewrite Hfirst|]. split; [done|].
  split; [apply EntryStoreFacts.listAll_perm|].
  split; [apply EntryStoreFacts.listAll_sorted|].
  split; [intros t; apply EntryStoreFacts.listAll_stable|].
  intros key reader provider s P Hst Hentries. split.
  - intros He Hne.
    destruct (handleTextSubmit_saved key reader provider (id e) (timestamp e) s (e :: st))
      as [H1 H2]; [by rewrite He in Hne | by rewrite <- He, Hst |].
    split; [exact H1|]. rewrite Hfirst, <- Hentries.
    etrans; [exact H2|]. by rewrite <- He.
  - intros blob He Htr.
    destruct (handleAudioComplete_saved key reader provider blob (id e) (timestamp e) s
                (content e) (e :: st)) as [H1 H2]; [done | by rewrite <- He, Hst |].
    split; [exact H1|]. rewrite Hfirst, <- Hentries.
    etrans; [exact H2|]. by rewrite <- He.
Qed.

Lemma insert_then_listAll_witness :
  (EntryStore.insert [Sample.milk] Sample.note = inr [Sample.note; Sample.milk]
   /\ (forall x, x ∈ [Sample.milk] -> timestamp x <= timestamp Sample.note))
  /\ head (EntryStore.listAll [Sample.note; Sample.milk]) = Some Sample.note.
Proof.
  assert (forall x, x ∈ [Sample.milk] -> timestamp x <= timestamp Sample.note) as Hmax.
  { intros x [->|[]%elem_of_nil]%elem_of_cons. simpl. lia. }
  split; [split; [reflexivity | exact Hmax]|].
  exact (proj1 (insert_then_listAll [Sample.milk] [Sample.note; Sample.milk] Sample.note
                  eq_refl Hmax)).
Defined.

(** ** Release of the device stream and the timer *)

Module ReleaseFacts.
Import AudioRecorder.

(** What [stopRecordingCleanup] changes, field by field. *)
Lemma cleanup_fields (s : State) :
  let s' := stopRecordingCleanup s in
  lifecycle s' = lifecycle s
  /\ getUserMediaPending s' = getUserMediaPending s
  /\ recorderState s' = recorderState s
  /\ mediaRecorderRef s' = mediaRecorderRef s
  /\ timerRef s' = timerRef s
  /\ completed s' = completed s
  /\ tracks s' = match mediaRecorderRef s with
                 | Some _ => map (fun _ => ended) <$> tracks s
                 | None => tracks s
                 end
  /\ activeIntervals s' = match timerRef s with
                          | Some t => filter (fun i => i ≠ t) (activeIntervals s)
                          | None => activeIntervals s
                          end.
Proof.
  unfold stopRecordingCleanup.
  destruct (timerRef s) eqn:Ht; simpl; destruct (mediaRecorderRef s) eqn:Hm; simpl;
    rewrite ?Ht, ?Hm; auto 10.
Qed.

Lemma Inv_initial : Inv initial.
Proof. split; simpl; try done. intros t Ht. by apply elem_of_nil in Ht. Qed.

Lemma Inv_cleanup (s : State) : Inv s -> Inv (stopRecordingCleanup s).
Proof.
  intros [Ha Hb Hc Hd He].
  destruct (cleanup_fields s) as (Hl & Hp & Hr & Hm & Ht & _ & Htr & Hai).
  split; rewrite ?Hl, ?Hp, ?Hr, ?Hm, ?Ht, ?Htr, ?Hai.
  - intros Hne. apply Ha. destruct (mediaRecorderRef s), (tracks s); done.
  - intros t. destruct (timerRef s) as [t0|] eqn:Hts.
    + intros [_ Hin]%list_elem_of_filter. by apply Hb.
    + apply Hb.
  - intros Hn. destruct (Hc Hn) as (H1 & H2 & H3 & H4).
    rewrite H2, H3. repeat split; try done; by destruct (mediaRecorderRef s), (timerRef s).
  - intros Hpe. destruct (Hd Hpe) as (H1 & H2 & H3).
    rewrite H1, H2. repeat split; try done; by destruct (mediaRecorderRef s), (timerRef s).
  - done.
Qed.

Lemma Inv_unmount (s : State) : Inv s -> lifecycle s ≠ NotMounted -> Inv (unmount s).
Proof.
  intros HI Hl. apply Inv_cleanup in HI. destruct HI as [Ha Hb Hc Hd He].
  unfold unmount. split; simpl; try done.
  intros Hp. destruct (Hd Hp) as (? & ? & ?). done.
Qed.

Ltac inv_auto :=
  intros; eauto; try done; try congruence;
  repeat match goal with
    | Hd : getUserMediaPending ?s = true -> _, H : getUserMediaPending ?s = true |- _ =>
        destruct (Hd H) as (? & ? & ?); clear Hd
    | Hc : lifecycle ?s = NotMounted -> _, H : lifecycle ?s = NotMounted |- _ =>
        destruct (Hc H) as (? & ? & ? & ?); clear Hc
    end;
  try done; try congruence.

Lemma Inv_step (s : State) (ev : Event) : Inv s -> Inv (step s ev).
Proof.
  intros HI. destruct ev; simpl.
  - (* mount *)
    destruct (lifecycle s) eqn:Hl; [|done..].
    destruct (inv_fresh s HI Hl) as (H1 & H2 & H3 & H4).
    destruct HI as [Ha Hb Hc Hd He]. split; simpl; inv_auto.
  - (* the stream is granted *)
    destruct (getUserMediaPending s) eqn:Hp; [|done].
    destruct (inv_pending s HI Hp) as (H1 & H2 & H3).
    destruct HI as [Ha Hb Hc Hd He]. split; simpl; try done.
    rewrite H2. simpl. by intros t ->%list_elem_of_singleton.
  - (* the stream is refused *)
    destruct (getUserMediaPending s) eqn:Hp; [|done].
    destruct (inv_pending s HI Hp) as (H1 & H2 & H3).
    assert (Inv (mkState (lifecycle s) (isRecording s) (duration s) (mediaRecorderRef s)
                   (chunksRef s) (timerRef s) (mimeTypeRef s) false (tracks s)
                   (recorderState s) (activeIntervals s)
                   (trackStopRuns s) (clearIntervalCalls s) (completed s)
                   (S (cancelCalls s)))) as HI'.
    { destruct HI as [Ha Hb Hc Hd He]. split; simpl; inv_auto. }
    unfold startRecording_failed, onCancel. simpl.
    destruct (lifecycle s) eqn:Hl; [done| |done].
    apply Inv_unmount; [done|]. simpl. by rewrite ?Hl.
  - (* tick *)
    destruct (lifecycle s) eqn:Hl; [done| |done].
    destruct (activeIntervals s) eqn:Hai; [done|].
    rewrite <- Hai.
    destruct HI as [Ha Hb Hc Hd He]. split; simpl; inv_auto.
  - (* data *)
    destruct (recorderState s) eqn:Hr; [done| |];
      unfold ondataavailable; case_bool_decide; try done;
      destruct HI as [Ha Hb Hc Hd He]; split; simpl; inv_auto.
  - (* stop pressed *)
    destruct (lifecycle s) eqn:Hl; [done| |done].
    unfold stopRecording. destruct (mediaRecorderRef s) eqn:Hm; [|done].
    destruct (isRecording s); [|done].
    destruct HI as [Ha Hb Hc Hd He]. split; simpl; rewrite ?Hm; inv_auto.
  - (* the recorder stops *)
    destruct (recorderState s) eqn:Hr; [done| |];
      [destruct (tracksEnded s); [|done]|];
      unfold onstop; apply Inv_cleanup;
      destruct HI as [Ha Hb Hc Hd He]; split; simpl; inv_auto.
  - (* cancel pressed *)
    destruct (lifecycle s) eqn:Hl; [done| |done].
    unfold onCancel. simpl. rewrite Hl.
    apply Inv_unmount; [|simpl; by rewrite ?Hl].
    destruct HI as [Ha Hb Hc Hd He]. split; simpl; inv_auto.
  - (* the parent hides the recorder *)
    destruct (lifecycle s) eqn:Hl; [done| |done].
    apply Inv_unmount; [done | by rewrite ?Hl].
Qed.

Lemma Inv_run (evs : list Event) (s : State) : Inv s -> Inv (run evs s).
Proof.
  revert s. induction evs as [|ev evs IH]; intros s HI; [done|].
  apply IH. by apply Inv_step.
Qed.

Lemma filter_all_out (t : positive) (l : list positive) :
  (forall i, i ∈ l -> i = t) -> filter (fun i => i ≠ t) l = [].
Proof.
  induction l as [|i l IH]; intros Hall; [done|].
  rewrite filter_cons. case_decide as Hne.
  - destruct Hne. apply Hall. constructor.
  - apply IH. intros j Hj. apply Hall. by constructor.
Qed.

(** In a reachable state the cleanup releases everything. *)
Lemma released_cleanup (s : State) : Inv s -> released (stopRecordingCleanup s).
Proof.
  intros [Ha Hb Hc Hd He].
  destruct (cleanup_fields s) as (_ & _ & _ & _ & _ & _ & Htr & Hai).
  split.
  - rewrite Htr. intros ts. destruct (mediaRecorderRef s) eqn:Hm.
    + destruct (tracks s) as [ts0|]; simpl; [|done]. intros [= <-].
      apply Forall_forall. by intros x (y & -> & _)%list_elem_of_fmap.
    + intros Hts. destruct Ha; [by rewrite Hts | done].
  - rewrite Hai. destruct (timerRef s) as [t|] eqn:Hts.
    + apply filter_all_out. intros i Hi. specialize (Hb i Hi). congruence.
    + destruct (activeIntervals s) as [|i l]; [done|].
      specialize (Hb i ltac:(constructor)). done.
Qed.

(** Running the cleanup again releases nothing further and holds nothing. *)
Lemma released_cleanup_again (s : State) : released s -> released (stopRecordingCleanup s).
Proof.
  intros [Htracks Hints].
  destruct (cleanup_fields s) as (_ & _ & _ & _ & _ & _ & Htr & Hai).
  split.
  - rewrite Htr. intros ts. destruct (mediaRecorderRef s); [|apply Htracks].
    destruct (tracks s) as [ts0|]; simpl; [|done]. intros [= <-].
    apply Forall_forall. by intros x (y & -> & _)%list_elem_of_fmap.
  - rewrite Hai, Hints. by destruct (timerRef s).
Qed.

Lemma settled_cleanup (s : State) : settled s -> settled (stopRecordingCleanup s).
Proof.
  intros (Hp & Hl & Hr).
  destruct (cleanup_fields s) as (Hl' & Hp' & _).
  split; [congruence|]. split; [congruence|]. by apply released_cleanup_again.
Qed.

Lemma settled_unmount (s : State) : settled s -> settled (unmount s).
Proof.
  intros Hs. apply settled_cleanup in Hs. destruct Hs as (Hp & Hl & Hr).
  unfold unmount. repeat split; simpl; try done; apply Hr.
Qed.

(** Once settled, a session holds nothing ever after. *)
Lemma settled_step (s : State) (ev : Event) : settled s -> settled (step s ev).
Proof.
  intros Hs. pose proof Hs as (Hp & Hl & Htk & Hin).
  destruct ev; simpl; destruct (lifecycle s) eqn:Hl'; try done;
    rewrite ?Hp, ?Hin; try done.
  - destruct (recorderState s); [done| |]; unfold ondataavailable;
      case_bool_decide; try done; repeat split; simpl; by rewrite ?Hl'.
  - destruct (recorderState s); [done| |]; unfold ondataavailable;
      case_bool_decide; try done; repeat split; simpl; by rewrite ?Hl'.
  - unfold stopRecording.
    destruct (mediaRecorderRef s); [|done]. destruct (isRecording s); [|done].
    repeat split; simpl; by rewrite ?Hl'.
  - destruct (recorderState s); [done| |]; [destruct (tracksEnded s); [|done]|];
      unfold onstop; apply settled_cleanup; repeat split; simpl; by rewrite ?Hl'.
  - destruct (recorderState s); [done| |]; [destruct (tracksEnded s); [|done]|];
      unfold onstop; apply settled_cleanup; repeat split; simpl; by rewrite ?Hl'.
  - unfold onCancel. simpl. rewrite Hl'.
    apply settled_unmount. repeat split; simpl; by rewrite ?Hl'.
  - by apply settled_unmount.
Qed.

Lemma settled_run (evs : list Event) (s : State) : settled s -> settled (run evs s).
Proof.
  revert s. induction evs as [|ev evs IH]; intros s Hs; [done|].
  apply IH. by apply settled_step.
Qed.

(** A terminal transition taken when no acquisition is in flight, or the
    refusal of the device itself, settles the session. *)
Lemma terminal_settles (s : State) (ev : Event) :
  Inv s ->
  terminalTransition s ev ->
  getUserMediaPending s = false \/ ev = EvGetUserMediaRejected ->
  settled (step s ev).
Proof.
  intros HI Hterm Hacq. destruct ev; simpl in Hterm; try done; simpl.
  - (* refused *)
    rewrite Hterm. destruct (inv_pending s HI Hterm) as (H1 & H2 & H3).
    unfold startRecording_failed, onCancel. simpl.
    assert (released (mkState (lifecycle s) (isRecording s) (duration s) (mediaRecorderRef s)
                   (chunksRef s) (timerRef s) (mimeTypeRef s) false (tracks s)
                   (recorderState s) (activeIntervals s)
                   (trackStopRuns s) (clearIntervalCalls s) (completed s)
                   (S (cancelCalls s)))) as Hrel.
    { split; simpl; [by rewrite H1 | done]. }
    destruct (lifecycle s) eqn:Hl; [done| |done].
    apply settled_unmount. repeat split; simpl; try apply Hrel; try done; by rewrite ?Hl.
  - (* the recorder stops *)
    destruct Hacq as [Hp|]; [|done]. rewrite Hterm. unfold onstop.
    set (s1 := mkState _ _ _ _ _ _ _ _ _ _ _ _ _ _ _).
    assert (Inv s1) as HI1.
    { destruct HI as [Ha Hb Hc Hd He]. subst s1. split; simpl; inv_auto. }
    pose proof (released_cleanup s1 HI1) as Hrel.
    destruct (cleanup_fields s1) as (Hl' & Hp' & _).
    split; [by rewrite Hp'|]. split; [|done]. rewrite Hl'. simpl.
    apply (inv_recorder s HI). by rewrite Hterm.
  - (* cancel pressed *)
    destruct Hacq as [Hp|]; [|done]. rewrite Hterm. unfold onCancel. simpl. rewrite Hterm.
    set (s1 := mkState _ _ _ _ _ _ _ _ _ _ _ _ _ _ _).
    assert (Inv s1) as HI1.
    { destruct HI as [Ha Hb Hc Hd He]. subst s1. split; simpl; inv_auto. }
    pose proof (released_cleanup s1 HI1) as Hrel.
    destruct (cleanup_fields s1) as (Hl' & Hp' & _).
    unfold unmount. repeat split; simpl; try apply Hrel; try done. by rewrite Hp'.
  - (* the parent hides the recorder *)
    destruct Hacq as [Hp|]; [|done]. rewrite Hterm.
    pose proof (released_cleanup s HI) as Hrel.
    destruct (cleanup_fields s) as (Hl' & Hp' & _).
    unfold unmount. repeat split; simpl; try apply Hrel; try done. by rewrite Hp'.
Qed.

Lemma run_append (evs1 evs2 : list Event) (s : State) :
  run (evs1 ++ evs2) s = run evs2 (run evs1 s).
Proof. apply foldl_app. Qed.
End ReleaseFacts.


(** The recorder dismissed while the device is still being requested:
    the stream granted afterwards and the timer started with it are never
    released. *)
Lemma dismissed_while_requesting_holds_device :
  let s := AudioRecorder.run Sample.dismissed_early AudioRecorder.initial in
  AudioRecorder.lifecycle s = AudioRecorder.Unmounted
  /\ AudioRecorder.tracks s = Some [AudioRecorder.live]
  /\ AudioRecorder.activeIntervals s = [7%positive]
  /\ AudioRecorder.trackStopRuns s = 0%nat
  /\ (forall evs, ~ AudioRecorder.released (AudioRecorder.run evs s)).
Proof.
  cbv zeta. repeat split; try reflexivity.
  intros evs.
  set (s := AudioRecorder.run Sample.dismissed_early AudioRecorder.initial).
  assert (forall s0, AudioRecorder.lifecycle s0 = AudioRecorder.Unmounted ->
                     AudioRecorder.getUserMediaPending s0 = false ->
                     AudioRecorder.recorderState s0 = AudioRecorder.recording ->
                     AudioRecorder.tracks s0 = Some [AudioRecorder.live] ->
                     AudioRecorder.activeIntervals s0 = [7%positive] ->
                     ~ AudioRecorder.released (AudioRecorder.run evs s0)) as Hstuck.
  { induction evs as [|ev evs IH]; intros s0 Hl Hp Hr Htr Hai.
    - intros [_ Hnone]. simpl in Hnone. congruence.
    - simpl. destruct ev; simpl; unfold AudioRecorder.tracksEnded;
        rewrite ?Hl, ?Hp, ?Hr, ?Htr; simpl; try by apply IH.
      unfold AudioRecorder.ondataavailable. case_bool_decide; by apply IH. }
  by apply Hstuck.
Qed.



(** ** Date bucketing *)

Section FirstOccurrences.
Implicit Types (xs seen : list string) (x : string).

Lemma elem_of_firstOccurrences xs x : x ∈ firstOccurrences xs <-> x ∈ xs.
Proof.
  induction xs as [|y xs IH]; simpl; [done|].
  rewrite !elem_of_cons, list_elem_of_filter, IH.
  destruct (decide (x = y)); naive_solver.
Qed.

Lemma NoDup_firstOccurrences xs : NoDup (firstOccurrences xs).
Proof.
  induction xs as [|y xs IH]; simpl; [constructor|].
  apply NoDup_cons. split.
  - rewrite list_elem_of_filter. naive_solver.
  - by apply NoDup_filter.
Qed.

Lemma filter_ne_not_elem x (l : list string) : x ∉ l -> filter (fun y => y ≠ x) l = l.
Proof.
  induction l as [|y l IH]; intros Hx; [done|].
  apply not_elem_of_cons in Hx as [Hne Hx].
  rewrite filter_cons_True by done. by rewrite IH.
Qed.

Lemma arrayFromSet_go seen xs :
  foldl (fun seen x => if bool_decide (x ∈ seen) then seen else seen ++ [x]) seen xs
  = seen ++ filter (fun y => y ∉ seen) (firstOccurrences xs).
Proof.
  revert seen. induction xs as [|x xs IH]; intros seen; simpl.
  - by rewrite app_nil_r.
  - rewrite IH. case_bool_decide as Hx.
    + rewrite filter_cons_False by naive_solver.
      rewrite list_filter_filter. f_equal. apply list_filter_iff.
      intros y. split; [|naive_solver]. intros Hy. split; [done|]. by intros ->.
    + rewrite filter_cons_True by done.
      rewrite <- app_assoc. simpl. do 2 f_equal.
      rewrite list_filter_filter. apply list_filter_iff.
      intros y. rewrite elem_of_app, list_elem_of_singleton. naive_solver.
Qed.

(** [Array.from(new Set(xs))] lists the distinct elements of [xs] in the
    order of their first occurrence. *)
Lemma arrayFromSet_firstOccurrences xs : arrayFromSet xs = firstOccurrences xs.
Proof.
  unfold arrayFromSet. rewrite arrayFromSet_go. simpl.
  induction (firstOccurrences xs) as [|y l IH]; [done|].
  rewrite filter_cons_True by apply not_elem_of_nil. by rewrite IH.
Qed.
End FirstOccurrences.

Section BucketingFacts.
Variables (LocalTZA now : Z).
Local Abbreviation key := (groupKey LocalTZA now).

(** The two copies of the key computation in [App] agree. *)
Lemma orderedKey_groupKey (e : JournalEntry) : orderedKey LocalTZA now e = key e.
Proof. reflexivity. Qed.

Lemma groups_lookup_go (es : list JournalEntry) (g : GroupedEntries) (k : string) :
  foldl (fun (groups : GroupedEntries) entry =>
           let key := groupKey LocalTZA now entry in
           let groups := match groups !! key with
                         | None => <[key := []]> groups
                         | Some _ => groups
                         end in
           alter (fun l => l ++ [entry]) key groups) g es !! k
  = match filter (fun e => key e = k) es with
    | [] => g !! k
    | fs => Some (default [] (g !! k) ++ fs)
    end.
Proof.
  revert g. induction es as [|e es IH]; intros g; [done|].
  simpl. rewrite IH. clear IH.
  destruct (decide (key e = k)) as [<-|Hne].
  - rewrite filter_cons_True by done. rewrite lookup_alter_eq.
    destruct (g !! key e) as [l|] eqn:Hg; rewrite ?Hg, ?lookup_insert_eq; simpl;
      destruct (filter _ es); simpl; by rewrite <- ?app_assoc.
  - rewrite filter_cons_False by done. rewrite lookup_alter_ne by done.
    destruct (g !! key e); by rewrite ?lookup_insert_ne.
Qed.

(** The group of a key holds the entries with that key, in input order. *)
Lemma groups_lookup (es : list JournalEntry) (k : string) :
  groupEntriesByDate LocalTZA now es !! k
  = match filter (fun e => key e = k) es with
    | [] => None
    | fs => Some fs
    end.
Proof.
  unfold groupEntriesByDate. rewrite groups_lookup_go, lookup_empty.
  by destruct (filter _ es).
Qed.

Lemma orderedKeys_firstOccurrences (es : list JournalEntry) :
  orderedKeys LocalTZA now es = firstOccurrences (map key es).
Proof. unfold orderedKeys. apply arrayFromSet_firstOccurrences. Qed.

(** Rendering never reads a missing group; the sections are the keys in
    the order of their first occurrence, each with its entries in input
    order. *)
Lemma renderGroups_spec (es : list JournalEntry) :
  renderGroups LocalTZA now es
  = Some (map (fun k => (k, filter (fun e => key e = k) es))
            (firstOccurrences (map key es))).
Proof.
  unfold renderGroups. rewrite orderedKeys_firstOccurrences.
  assert (forall k, k ∈ firstOccurrences (map key es) -> k ∈ map key es) as Hin.
  { intros k. by rewrite elem_of_firstOccurrences. }
  induction (firstOccurrences (map key es)) as [|k ks IH]; [done|].
  simpl. rewrite IH by (intros k' Hk'; apply Hin; by constructor). simpl.
  rewrite groups_lookup.
  destruct (filter (fun e => key e = k) es) as [|f fs] eqn:Hf; [|done].
  specialize (Hin k ltac:(constructor)).
  apply list_elem_of_fmap in Hin as (e & -> & He).
  assert (e ∈ filter (fun e' => key e' = key e) es) as Hmem
    by (by apply list_elem_of_filter).
  rewrite Hf in Hmem. by apply elem_of_nil in Hmem.
Qed.

(** The section keys are pairwise distinct. *)
Lemma renderGroups_keys_NoDup (es : list JournalEntry)
    (groups : list (string * list JournalEntry)) :
  renderGroups LocalTZA now es = Some groups -> NoDup (map fst groups).
Proof.
  rewrite renderGroups_spec. intros [= <-].
  rewrite map_map. simpl. rewrite map_id. apply NoDup_firstOccurrences.
Qed.

Lemma concat_add_once (F : string -> list JournalEntry) (e : JournalEntry)
    (k0 : string) (ks : list string) :
  NoDup ks -> k0 ∈ ks ->
  concat (map (fun k => if decide (k0 = k) then e :: F k else F k) ks)
  ≡ₚ e :: concat (map F ks).
Proof.
  induction 1 as [|k ks Hk Hnd IH]; intros Hin; [by apply elem_of_nil in Hin|].
  simpl. destruct (decide (k0 = k)) as [->|Hne].
  - simpl. rewrite (map_ext_in _ F ks); [done|]. intros k' Hk'.
    apply list_elem_of_In in Hk'. destruct (decide (k = k')); [by subst|done].
  - apply elem_of_cons in Hin as [?|Hin]; [done|].
    rewrite (IH Hin). by rewrite Permutation_middle.
Qed.

Lemma concat_groups_perm (es : list JournalEntry) (ks : list string) :
  NoDup ks -> (forall e, e ∈ es -> key e ∈ ks) ->
  concat (map (fun k => filter (fun e => key e = k) es) ks) ≡ₚ es.
Proof.
  intros Hnd. induction es as [|e es IH]; intros Hin.
  - clear. induction ks as [|k ks IHk]; [done|]. simpl. apply IHk.
  - rewrite (map_ext _ (fun k => if decide (key e = k)
                                  then e :: filter (fun e' => key e' = k) es
                                  else filter (fun e' => key e' = k) es)).
    + rewrite (concat_add_once _ e (key e) ks Hnd (Hin e ltac:(constructor))).
      f_equiv. apply IH. intros e' He'. apply Hin. by constructor.
    + intros k. rewrite filter_cons. by destruct (decide (key e = k)).
Qed.

(** The sections hold every entry of the input exactly once. *)
Lemma renderGroups_partition (es : list JournalEntry)
    (groups : list (string * list JournalEntry)) :
  renderGroups LocalTZA now es = Some groups -> concat (map snd groups) ≡ₚ es.
Proof.
  rewrite renderGroups_spec. intros [= <-]. rewrite map_map. simpl.
  apply concat_groups_perm; [apply NoDup_firstOccurrences|].
  intros e He. apply elem_of_firstOccurrences, list_elem_of_fmap. eauto.
Qed.

Lemma firstOccurrences_block (k : string) (b : list JournalEntry) (xs : list string) :
  b ≠ [] -> Forall (fun e => key e = k) b ->
  firstOccurrences (map key b ++ xs) = k :: filter (fun y => y ≠ k) (firstOccurrences xs).
Proof.
  intros Hne Hb. induction Hb as [|e b He Hb IH]; [done|].
  simpl. rewrite He. f_equal. destruct b as [|e' b'].
  - done.
  - rewrite IH by done. rewrite filter_cons_False by naive_solver.
    rewrite list_filter_filter. apply list_filter_iff. naive_solver.
Qed.

Lemma filter_block_same (k : string) (b : list JournalEntry) :
  Forall (fun e => key e = k) b -> filter (fun e => key e = k) b = b.
Proof.
  induction 1 as [|e b He Hb IH]; [done|]. rewrite filter_cons_True by done. by rewrite IH.
Qed.

Lemma filter_block_other (k k' : string) (b : list JournalEntry) :
  k' ≠ k -> Forall (fun e => key e = k) b -> filter (fun e => key e = k') b = [].
Proof.
  intros Hne. induction 1 as [|e b He Hb IH]; [done|].
  rewrite filter_cons_False by congruence. done.
Qed.

Lemma keyBlocks_keys (blocks : list (string * list JournalEntry)) (e : JournalEntry) :
  keyBlocks key blocks -> e ∈ concat (map snd blocks) -> key e ∈ map fst blocks.
Proof.
  intros [_ Hall] He. apply list_elem_of_In, in_concat in He as (b & Hb & He).
  apply in_map_iff in Hb as ([k b'] & <- & Hkb). simpl in He.
  rewrite Forall_forall in Hall. specialize (Hall (k, b') ltac:(by apply list_elem_of_In)).
  destruct Hall as [_ Hconst]. rewrite Forall_forall in Hconst.
  rewrite (Hconst e ltac:(by apply list_elem_of_In)). simpl.
  apply list_elem_of_fmap. exists (k, b'). split; [done|]. by apply list_elem_of_In.
Qed.

Lemma keyBlocks_spec (blocks : list (string * list JournalEntry)) :
  keyBlocks key blocks ->
  firstOccurrences (map key (concat (map snd blocks))) = map fst blocks
  /\ map (fun k => (k, filter (fun e => key e = k) (concat (map snd blocks))))
       (map fst blocks) = blocks.
Proof.
  induction blocks as [|[k b] rest IH]; intros HB; [done|].
  pose proof HB as [Hnd Hall]. simpl in Hnd.
  apply NoDup_cons in Hnd as [Hk Hnd]. apply Forall_cons in Hall as [[Hne Hconst] Hall].
  simpl in Hne, Hconst. destruct (IH (conj Hnd Hall)) as [IH1 IH2]. clear IH.
  simpl. rewrite List.map_app. split.
  - rewrite (firstOccurrences_block k b _ Hne Hconst), IH1.
    by rewrite filter_ne_not_elem.
  - rewrite filter_app, (filter_block_same k b Hconst). f_equal.
    + f_equal. rewrite <- (app_nil_r b) at 2. f_equal.
      destruct (filter _ (concat (map snd rest))) as [|e fs] eqn:Hf; [done|].
      assert (e ∈ filter (fun e => key e = k) (concat (map snd rest))) as He
        by (rewrite Hf; constructor).
      apply list_elem_of_filter in He as [He1 He2].
      destruct Hk. rewrite <- He1. by apply keyBlocks_keys.
    + rewrite <- IH2 at 2. apply map_ext_in. intros k' Hk'. f_equal.
      rewrite filter_app, (filter_block_other k k' b); [done| |done].
      intros ->. by apply list_elem_of_In in Hk'.
Qed.

(** When the entries of each key are contiguous in the input, the
    sections are exactly the blocks, in order. *)
Lemma renderGroups_blocks (blocks : list (string * list JournalEntry)) :
  keyBlocks key blocks ->
  renderGroups LocalTZA now (concat (map snd blocks)) = Some blocks.
Proof.
  intros HB. rewrite renderGroups_spec. destruct (keyBlocks_spec blocks HB) as [-> ->]. done.
Qed.

(** The sections are themselves blocks of the keys. *)
Lemma renderGroups_keyBlocks (es : list JournalEntry)
    (groups : list (string * list JournalEntry)) :
  renderGroups LocalTZA now es = Some groups -> keyBlocks key groups.
Proof.
  intros Hg. split; [by eapply renderGroups_keys_NoDup|].
  rewrite renderGroups_spec in Hg. injection Hg as <-.
  apply Forall_forall. intros [k b] Hb.
  apply list_elem_of_fmap in Hb as (k' & [= -> ->] & Hk'). simpl. split.
  - apply elem_of_firstOccurrences, list_elem_of_fmap in Hk' as (e & -> & He).
    intros Hnil. assert (e ∈ filter (fun e' => key e' = key e) es) as Hmem
      by (by apply list_elem_of_filter).
    rewrite Hnil in Hmem. by apply elem_of_nil in Hmem.
  - apply Forall_forall. by intros e [? _]%list_elem_of_filter.
Qed.

(** The sections concatenate to the input exactly when the entries of
    each key are contiguous in the input. *)
Lemma renderGroups_concat_iff (es : list JournalEntry)
    (groups : list (string * list JournalEntry)) :
  renderGroups LocalTZA now es = Some groups ->
  concat (map snd groups) = es
  <-> exists blocks, keyBlocks key blocks /\ es = concat (map snd blocks).
Proof.
  intros Hg. split.
  - intros Hcat. exists groups. split; [by eapply renderGroups_keyBlocks | done].
  - intros (blocks & HB & ->). rewrite (renderGroups_blocks blocks HB) in Hg.
    by injection Hg as <-.
Qed.

(** The key of an entry depends on its local calendar day only. *)
Lemma groupKey_localDay (e1 e2 : JournalEntry) :
  localDay LocalTZA e1 = localDay LocalTZA e2 -> key e1 = key e2.
Proof.
  unfold localDay. intros Hday.
  unfold groupKey, toDateString, toLocaleDateString_wmd,
    WeekDay, MonthFromTime, DateFromTime, YearFromTime.
  cbv zeta. by rewrite Hday.
Qed.

Lemma localDay_mono (e1 e2 : JournalEntry) :
  timestamp e1 <= timestamp e2 -> localDay LocalTZA e1 <= localDay LocalTZA e2.
Proof.
  intros Hle. unfold localDay, LocalTime, Day, msPerDay.
  apply Z.div_le_mono; lia.
Qed.

(** A sequence sorted by timestamp descending on which entries of equal
    key lie on the same calendar day is cut into blocks by its keys. *)
Lemma sorted_keyBlocks (es : list JournalEntry) :
  StronglySorted desc es ->
  (forall e1 e2, e1 ∈ es -> e2 ∈ es -> key e1 = key e2 ->
                 localDay LocalTZA e1 = localDay LocalTZA e2) ->
  exists blocks, keyBlocks key blocks /\ es = concat (map snd blocks).
Proof.
  induction 1 as [|e es Hsorted IH Hhead]; intros Hsep.
  - exists []. split; [split; constructor | done].
  - destruct IH as (blocks & [Hnd Hall] & ->).
    { intros e1 e2 H1 H2. apply Hsep; by constructor. }
    destruct (decide (key e ∈ map fst blocks)) as [Hin|Hout].
    + (* [e] joins the first block *)
      destruct blocks as [|[k b] rest]; [by apply elem_of_nil in Hin|].
      simpl in *. apply NoDup_cons in Hnd as [Hk Hnd].
      apply Forall_cons in Hall as [[Hne Hconst] Hall]. simpl in Hne, Hconst.
      destruct b as [|e0 b]; [done|].
      assert (key e = k) as Hek.
      { apply elem_of_cons in Hin as [?|Hin]; [done|].
        apply list_elem_of_fmap in Hin as ([k' b'] & Hk' & Hb'). simpl in Hk'.
        rewrite Forall_forall in Hall. destruct (Hall _ Hb') as [Hne' Hconst'].
        simpl in Hne', Hconst'. destruct b' as [|e' b'']; [done|].
        apply Forall_cons in Hconst' as [He' _].
        assert (e' ∈ (e0 :: b) ++ concat (map snd rest)) as He'in.
        { apply elem_of_app. right. apply list_elem_of_In, in_concat.
          exists (e' :: b''). split; [|by left].
          apply in_map_iff. exists (k', e' :: b''). split; [done|].
          by apply list_elem_of_In. }
        assert (localDay LocalTZA e = localDay LocalTZA e') as Hday.
        { apply Hsep; [by constructor | by constructor | congruence]. }
        assert (localDay LocalTZA e = localDay LocalTZA e0) as Hday0.
        { rewrite Forall_forall in Hhead.
          pose proof (Hhead e0 ltac:(constructor)) as H0.
          apply StronglySorted_inv in Hsorted as [_ Hrest].
          rewrite Forall_forall in Hrest.
          assert (e' ∈ b ++ concat (map snd rest) \/ e' = e0) as [Hin'| ->].
          { apply elem_of_cons in He'in as [->|?]; [by right | by left]. }
          - pose proof (Hrest e' Hin') as H1. unfold desc in *.
            pose proof (localDay_mono e0 e H0). pose proof (localDay_mono e' e0 H1). lia.
          - done. }
        apply Forall_cons in Hconst as [He0 _]. rewrite <- He0.
        by apply groupKey_localDay. }
      exists ((k, e :: e0 :: b) :: rest). split; [|done]. split; simpl.
      * by apply NoDup_cons.
      * apply Forall_cons. split; [|done]. simpl. split; [done|].
        by apply Forall_cons.
    + (* [e] opens a block of its own *)
      exists ((key e, [e]) :: blocks). split; [|done]. split; simpl.
      * by apply NoDup_cons.
      * apply Forall_cons. split; [|done]. simpl. split; [done|]. by repeat constructor.
Qed.

(** On such a sequence the sections are contiguous in the input and
    concatenate to it. *)
Lemma renderGroups_sorted (es : list JournalEntry) :
  StronglySorted desc es ->
  (forall e1 e2, e1 ∈ es -> e2 ∈ es -> key e1 = key e2 ->
                 localDay LocalTZA e1 = localDay LocalTZA e2) ->
  exists groups, renderGroups LocalTZA now es = Some groups
                 /\ keyBlocks key groups
                 /\ concat (map snd groups) = es.
Proof.
  intros Hsorted Hsep.
  destruct (sorted_keyBlocks es Hsorted Hsep) as (blocks & HB & ->).
  exists blocks. by rewrite renderGroups_blocks.
Qed.
End BucketingFacts.

Example sample_timestamps :
  timestamp Sample.newYear2024 = 1704103200000
  /\ timestamp Sample.june2023 = 1685610000000
  /\ timestamp Sample.newYear2018 = 1514793600000
  /\ Sample.midJune2024 = 1718452800000.
Proof. repeat split. Qed.

Example sample_dates :
  toDateString 0 (timestamp Sample.newYear2024) = "Mon Jan 01 2024"
  /\ toDateString 0 (timestamp Sample.june2023) = "Thu Jun 01 2023"
  /\ toDateString 0 (timestamp Sample.newYear2018) = "Mon Jan 01 2018"
  /\ toDateString 0 Sample.midJune2024 = "Sat Jun 15 2024"
  /\ toDateString 0 (setDate_prev 0 Sample.midJune2024) = "Fri Jun 14 2024".
Proof. repeat split. Qed.

(** C2 at two entries six years apart: they fall on different calendar
    dates, neither is keyed "Today" or "Yesterday", and they receive the
    same key, because the key names the weekday, the month and the day of
    the month but not the year. *)
Theorem groupKey_same_for_different_dates :
  let now := Sample.midJune2024 in
  toDateString 0 (timestamp Sample.newYear2024)
    ≠ toDateString 0 (timestamp Sample.newYear2018)
  /\ Day (LocalTime 0 (timestamp Sample.newYear2024))
     ≠ Day (LocalTime 0 (timestamp Sample.newYear2018))
  /\ groupKey 0 now Sample.newYear2024 = "Monday, January 1"
  /\ groupKey 0 now Sample.newYear2018 = "Monday, January 1".
Proof. cbv zeta. repeat split; vm_compute; discriminate. Qed.

(** C1 at three entries sorted by timestamp descending: the first and the
    last share a key, so the group of that key is not contiguous in the
    input, and the groups concatenated in output order are not the input. *)
Theorem bucketing_not_contiguous_across_years :
  let now := Sample.midJune2024 in
  let input := [Sample.newYear2024; Sample.june2023; Sample.newYear2018] in
  StronglySorted desc input
  /\ renderGroups 0 now input
     = Some [("Monday, January 1", [Sample.newYear2024; Sample.newYear2018]);
             ("Thursday, June 1", [Sample.june2023])]
  /\ (forall groups, renderGroups 0 now input = Some groups ->
        concat (map snd groups) ≠ input).
Proof.
  cbv zeta. split; [|split].
  - repeat constructor; unfold desc; by vm_compute.
  - by vm_compute.
  - intros groups Hg. vm_compute in Hg. injection Hg as <-. vm_compute. discriminate.
Qed.

(* ================================================================= *)
(** * Further properties *)

(** ** Submitting text *)

(** X1. Submitting an input that is empty or only white space does
    nothing at all: nothing is saved, nothing is logged, the input is not
    cleared. *)
Theorem blank_submit_is_ignored {Store : Type} (P : Platform Store)
    (uuid : string) (dateNow : Z) (s : Sys Store) :
  trim (inputText (app s)) = "" ->
  handleTextSubmit P uuid dateNow s = (inr tt, s).
Proof.
  intros Hblank. unfold handleTextSubmit, bind, getState. cbv beta iota.
  rewrite Hblank. reflexivity.
Qed.

Lemma blank_submit_is_ignored_witness :
  let P := EntryStore.platform (Some "k") Sample.reader Sample.provider_hello in
  let s := mkSys (mkApp [] "  " false false false) [Sample.milk] [] in
  (trim (inputText (app s)) = "" /\ sendVisible (app s) = true)
  /\ handleTextSubmit P "id-9" 1704103200000 s = (inr tt, s).
Proof.
  split; [split; reflexivity|].
  apply (blank_submit_is_ignored
           (EntryStore.platform (Some "k") Sample.reader Sample.provider_hello)).
  reflexivity.
Defined.





(** ** What [transcribeAudio] writes to the log *)

Section LogFacts.
Context {Store : Type} (P : Platform Store).

Lemma transcribeAudio_log (blob : Blob) (s : Sys Store) :
  exists lg, log (transcribeAudio P blob s).2 = log s ++ lg /\ savedEntries lg = [].
Proof.
  unfold transcribeAudio, blobToBase64, bind, emit, await, try_catch, throw, ret.
  destruct (negb _); simpl; [exists []; by rewrite app_nil_r|].
  destruct (readAsDataURL P blob); simpl.
  - eexists. rewrite <- app_assoc. split; [reflexivity|done].
  - destruct (generateContent P _); simpl; eexists; rewrite <- ?app_assoc;
      (split; [reflexivity|done]).
Qed.
End LogFacts.

(** ** [trim] *)

Module TrimFacts.

Lemma append_cons (c : ascii) (a b : string) : String c a +:+ b = String c (a +:+ b).
Proof. reflexivity. Qed.

Lemma append_assoc (a b c : string) : (a +:+ b) +:+ c = a +:+ (b +:+ c).
Proof. induction a as [|x a IH]; [done|]. by rewrite !append_cons, IH. Qed.

Lemma append_empty_r (s : string) : s +:+ "" = s.
Proof. induction s as [|c s IH]; [done|]. by rewrite append_cons, IH. Qed.

Lemma rev_app_append (s1 s2 : string) :
  String.rev_app s1 s2 = String.rev_app s1 "" +:+ s2.
Proof.
  revert s2. induction s1 as [|c s1 IH]; intros s2; simpl; [done|].
  rewrite IH, (IH (String c "")). by rewrite append_assoc.
Qed.

Lemma rev_cons (c : ascii) (s : string) :
  String.rev (String c s) = String.rev s +:+ String c "".
Proof. unfold String.rev. simpl. apply rev_app_append. Qed.

Lemma rev_append (a b : string) : String.rev (a +:+ b) = String.rev b +:+ String.rev a.
Proof.
  induction a as [|c a IH].
  - change ("" +:+ b) with b. change (String.rev "") with "". by rewrite append_empty_r.
  - change (String c a +:+ b) with (String c (a +:+ b)).
    rewrite !rev_cons, IH. by rewrite append_assoc.
Qed.

Lemma rev_involutive (s : string) : String.rev (String.rev s) = s.
Proof.
  induction s as [|c s IH]; [done|].
  rewrite rev_cons, rev_append, IH. done.
Qed.

Lemma trimStart_no_space (s : string) : startsWithSpace (trimStart s) = false.
Proof.
  induction s as [|c s IH]; simpl; [done|].
  destruct (Ascii.is_space c) eqn:Hc; [done|]. simpl. exact Hc.
Qed.

Lemma trimStart_suffix (s : string) : exists sp, s = sp +:+ trimStart s.
Proof.
  induction s as [|c s [sp IH]]; simpl.
  - by exists "".
  - destruct (Ascii.is_space c).
    + exists (String c sp). change (String c sp +:+ trimStart s) with (String c (sp +:+ trimStart s)).
      by rewrite <- IH.
    + by exists "".
Qed.

Lemma startsWithSpace_append (a b : string) :
  a ≠ "" -> startsWithSpace (a +:+ b) = startsWithSpace a.
Proof. by destruct a. Qed.

Lemma rev_empty (s : string) : String.rev s = "" -> s = "".
Proof. intros H. apply (f_equal String.rev) in H. by rewrite rev_involutive in H. Qed.

(** The result of [trim] has no white space at either end. *)
Lemma trim_no_edge_space (s : string) :
  startsWithSpace (trim s) = false /\ endsWithSpace (trim s) = false.
Proof.
  unfold trim, endsWithSpace. rewrite rev_involutive. split; [|apply trimStart_no_space].
  set (t := trimStart s).
  destruct (trimStart_suffix (String.rev t)) as [sp Hsp].
  set (u := trimStart (String.rev t)) in *.
  destruct (decide (u = "")) as [->|Hu]; [done|].
  apply (f_equal String.rev) in Hsp. rewrite rev_involutive, rev_append in Hsp.
  rewrite <- (startsWithSpace_append _ (String.rev sp)).
  - rewrite <- Hsp. apply trimStart_no_space.
  - intros H. by apply rev_empty in H.
Qed.

End TrimFacts.

(** ** What is handed to the store *)

Section SavedFacts.
Context {Store : Type}.
Variable Q : JournalEntry -> Prop.
Local Abbreviation savedAll := (fun s : Sys Store => Forall Q (savedEntries (log s))).

Lemma saved_emit (ev : Event) :
  (forall e, ev = EvSaveEntry e -> Q e) -> preserves savedAll (emit ev).
Proof.
  intros Hev s Hs. simpl. rewrite savedEntries_app. apply Forall_app. split; [done|].
  destruct ev; simpl; try constructor; [by apply Hev | constructor].
Qed.

Lemma saved_putStore (st : Store) : preserves savedAll (putStore st).
Proof. by intros s. Qed.

Lemma saved_setState (f : AppState -> AppState) : preserves savedAll (setState f).
Proof. by intros s. Qed.

Lemma saved_transcribeAudio (P : Platform Store) (blob : Blob) :
  preserves savedAll (transcribeAudio P blob).
Proof.
  intros s Hs. destruct (transcribeAudio_log P blob s) as (lg & -> & Hlg).
  by rewrite savedEntries_app, Hlg, app_nil_r.
Qed.
End SavedFacts.

Ltac preserve_saved :=
  repeat first
    [ apply preserves_ret | apply preserves_throw | apply preserves_await
    | apply preserves_getStore | apply preserves_getState | apply saved_putStore
    | apply saved_setState | apply saved_transcribeAudio
    | apply preserves_bind; [|intros ?]
    | apply preserves_try_catch; [|intros ?]
    | apply saved_emit; intros ? [=] ].

Lemma saved_perform_textContentOk {Store : Type} (P : Platform Store) (act : Action) :
  preserves (fun s : Sys Store => Forall textContentOk (savedEntries (log s)))
    (perform P act).
Proof.
  destruct act; simpl.
  - apply saved_setState.
  - unfold handleTextSubmit. apply preserves_bind; [preserve_saved|]. intros a.
    destruct (negb _) eqn:Hblank; preserve_saved. subst. intros _. simpl.
    destruct (TrimFacts.trim_no_edge_space (inputText a)) as [H1 H2].
    split; [|done]. simpl in Hblank.
    by destruct (String.eqb_spec (trim (inputText a)) "").
  - apply saved_setState.
  - unfold handleAudioComplete. apply preserves_bind; [apply saved_setState|]. intros _.
    apply preserves_finally; [|by intros s].
    preserve_saved. by subst.
  - apply preserves_bind; [preserve_saved|]. intros a.
    destruct (isProcessingAudio a); preserve_saved.
  - unfold handleDelete, call_deleteEntry. destruct confirmed; preserve_saved.
Qed.

(** X4. No text entry with empty content, or with white space at
    either end of its content, is ever handed to the store: along every
    run, each text entry given to [saveEntry] has non-empty, trimmed
    content. *)
Theorem saved_text_is_trimmed_nonempty {Store : Type}
    (steps : list (Platform Store * Action)) (s : Sys Store) :
  Forall textContentOk (savedEntries (log s)) ->
  Forall textContentOk (savedEntries (log (run_app steps s))).
Proof.
  revert s. induction steps as [|[P act] steps IH]; intros s Hs; [done|].
  apply IH. by apply (saved_perform_textContentOk P act).
Qed.

Lemma saved_text_is_trimmed_nonempty_witness :
  let P := EntryStore.platform (Some "k") Sample.reader Sample.provider_hello in
  let steps := [(P, ActType "  buy milk "); (P, ActTextSubmit "id-1" 1704103200000);
                (P, ActType "   "); (P, ActTextSubmit "id-2" 1704103260000)] in
  Forall textContentOk (savedEntries (log Sample.fresh))
  /\ map content (savedEntries (log (run_app steps Sample.fresh))) = ["buy milk"]
  /\ Forall textContentOk (savedEntries (log (run_app steps Sample.fresh))).
Proof.
  split; [constructor|]. split; [reflexivity|].
  apply (saved_text_is_trimmed_nonempty
           (let P := EntryStore.platform (Some "k") Sample.reader Sample.provider_hello in
            [(P, ActType "  buy milk "); (P, ActTextSubmit "id-1" 1704103200000);
             (P, ActType "   "); (P, ActTextSubmit "id-2" 1704103260000)])
           Sample.fresh).
  constructor.
Defined.

(** ** Where the entries of the list come from *)

Section ListedFacts.
Context {Store : Type} (P : Platform Store).

Lemma handleTextSubmit_entries (uuid : string) (dateNow : Z) (s : Sys Store) :
  let s' := (handleTextSubmit P uuid dateNow s).2 in
  exists lg, log s' = log s ++ lg
             /\ forall e, e ∈ entries (app s') -> e ∈ entries (app s) \/ e ∈ savedEntries lg.
Proof.
  cbv zeta. destruct (handleTextSubmit P uuid dateNow s) as [r s'] eqn:Heq. simpl.
  unfold handleTextSubmit, bind at 1, getState in Heq. cbv beta iota zeta in Heq.
  destruct (negb _) in Heq.
  { injection Heq as <- <-. exists []. rewrite app_nil_r. eauto. }
  unfold try_catch, call_saveEntry, bind, emit, getStore, await, putStore, setState in Heq.
  cbn [store app log fst snd] in Heq.
  destruct (saveEntry P (store s) _) as [err|st'] in Heq; cbn [store app log fst snd] in Heq;
    injection Heq as <- <-; cbn [store app log]; eexists; rewrite <- !app_assoc;
    (split; [reflexivity|]); [eauto|].
  intros e [->|He]%elem_of_cons; [right|by left]. simpl. apply list_elem_of_here.
Qed.

Lemma handleAudioComplete_entries (blob : Blob) (uuid : string) (dateNow : Z)
    (s : Sys Store) :
  let s' := (handleAudioComplete P blob uuid dateNow s).2 in
  exists lg, log s' = log s ++ lg
             /\ forall e, e ∈ entries (app s') -> e ∈ entries (app s) \/ e ∈ savedEntries lg.
Proof.
  cbv zeta. destruct (handleAudioComplete P blob uuid dateNow s) as [r s'] eqn:Heq. simpl.
  unfold handleAudioComplete, finally, try_catch, bind at 1 2, setState in Heq.
  pose proof (transcribeAudio_frame P blob
                {| app := with_isProcessingAudio true (app s);
                   store := store s; log := log s |}) as [Hst Happ].
  destruct (transcribeAudio_log P blob
              {| app := with_isProcessingAudio true (app s);
                 store := store s; log := log s |}) as (lg & Hlog & Hsaved).
  destruct (transcribeAudio P blob _) as [[err|tr] s1]; simpl in Hst, Happ, Hlog.
  - unfold bind, emit, map_app in Heq. cbn [store app log fst snd] in Heq.
    injection Heq as <- <-. cbn [store app log].
    rewrite Hlog, Happ. eexists. rewrite <- !app_assoc. split; [reflexivity|]. eauto.
  - unfold call_saveEntry, bind, emit, getStore, await, putStore, setState in Heq.
    cbn [store app log fst snd] in Heq. rewrite Hst in Heq.
    destruct (saveEntry P (store s) _) as [err|st'] in Heq;
      cbn [store app log fst snd map_app] in Heq; injection Heq as <- <-;
      cbn [store app log]; rewrite Hlog, Happ; eexists; rewrite <- !app_assoc;
      (split; [reflexivity|]); [eauto|].
    intros e [->|He]%elem_of_cons; [right|by left].
    rewrite savedEntries_app, Hsaved. simpl. apply list_elem_of_here.
Qed.

Lemma handleDelete_entries (entryId : string) (confirmed : bool) (s : Sys Store) :
  let s' := (handleDelete P entryId confirmed s).2 in
  exists lg, log s' = log s ++ lg
             /\ forall e, e ∈ entries (app s') -> e ∈ entries (app s) \/ e ∈ savedEntries lg.
Proof.
  cbv zeta. destruct (handleDelete P entryId confirmed s) as [r s'] eqn:Heq. simpl.
  unfold handleDelete, bind at 1, emit in Heq. destruct confirmed.
  - unfold try_catch, call_deleteEntry, bind, emit, getStore, await, putStore, setState in Heq.
    cbn [store app log fst snd] in Heq.
    destruct (deleteEntry P (store s) entryId) as [err|st'] in Heq;
      cbn [store app log fst snd] in Heq; injection Heq as <- <-; cbn [store app log];
      eexists; rewrite <- !app_assoc; (split; [reflexivity|]); [eauto|].
    intros e [_ He]%list_elem_of_filter. by left.
  - injection Heq as <- <-. eexists. split; [reflexivity|]. eauto.
Qed.

Lemma perform_entries (act : Action) (s : Sys Store) :
  let s' := (perform P act s).2 in
  exists lg, log s' = log s ++ lg
             /\ forall e, e ∈ entries (app s') -> e ∈ entries (app s) \/ e ∈ savedEntries lg.
Proof.
  destruct act; cbn [perform].
  - exists []. simpl. rewrite app_nil_r. eauto.
  - apply handleTextSubmit_entries.
  - exists []. simpl. rewrite app_nil_r. eauto.
  - apply handleAudioComplete_entries.
  - exists []. unfold bind, getState. cbv zeta beta iota.
    destruct (isProcessingAudio (app s)); simpl; rewrite app_nil_r; eauto.
  - apply handleDelete_entries.
Qed.
End ListedFacts.

(** X5. Along every run of the application the call log only grows,
    and the list never shows an entry out of nowhere: every entry of the
    list was in the list at the start or has been handed to [saveEntry]
    during the run. *)
Theorem listed_entries_were_saved {Store : Type}
    (steps : list (Platform Store * Action)) (s : Sys Store) :
  exists lg,
    log (run_app steps s) = log s ++ lg
    /\ forall e, e ∈ entries (app (run_app steps s)) ->
                 e ∈ entries (app s) \/ e ∈ savedEntries lg.
Proof.
  revert s. induction steps as [|[P act] steps IH]; intros s.
  - exists []. simpl. rewrite app_nil_r. eauto.
  - destruct (perform_entries P act s) as (lg1 & Hl1 & He1).
    destruct (IH (perform P act s).2) as (lg2 & Hl2 & He2).
    exists (lg1 ++ lg2). unfold run_app in *. simpl.
    rewrite Hl2, Hl1, <- app_assoc. split; [done|].
    intros e He. rewrite savedEntries_app, elem_of_app.
    destruct (He2 e He) as [H|H]; [|by auto].
    destruct (He1 e H); auto.
Qed.

(** ** Deleting and loading *)

(** X6. A confirmed delete that the store carries out removes from the
    list every entry with that id and nothing else, keeping the order of
    the rest; the store is asked once. *)
Theorem delete_removes_entry {Store : Type} (P : Platform Store)
    (entryId : string) (s : Sys Store) (st' : Store) :
  deleteEntry P (store s) entryId = inr st' ->
  let s' := (handleDelete P entryId true s).2 in
  store s' = st'
  /\ entries (app s') = filter (fun e => id e ≠ entryId) (entries (app s))
  /\ (entryId ∉ map id (entries (app s')))
  /\ (forall e, id e ≠ entryId -> (e ∈ entries (app s') <-> e ∈ entries (app s)))
  /\ (entries (app s') `sublist_of` entries (app s))
  /\ log s' = log s ++ [EvConfirm "Delete this entry?"; EvDeleteEntry entryId].
Proof.
  intros Hdel s'.
  assert (s' = mkSys (with_entries (filter (fun e => id e ≠ entryId)) (app s)) st'
                 (log s ++ [EvConfirm "Delete this entry?"; EvDeleteEntry entryId])) as ->.
  { subst s'. unfold handleDelete, try_catch, call_deleteEntry, bind, emit, getStore,
      await, putStore, setState.
    cbn [store app log fst snd]. rewrite Hdel. cbn [store app log fst snd].
    by rewrite <- ?app_assoc. }
  simpl. repeat split; try done.
  - intros Hin. apply list_elem_of_fmap in Hin as (e & He & Hin).
    apply list_elem_of_filter in Hin as [Hne _]. by apply Hne.
  - by intros [_ ?]%list_elem_of_filter.
  - intros He. by apply list_elem_of_filter.
  - apply sublist_filter.
Qed.

Lemma delete_removes_entry_witness :
  let P := EntryStore.platform (Some "k") Sample.reader Sample.provider_hello in
  let s := mkSys (mkApp [Sample.note; Sample.milk] "" false false false)
             [Sample.note; Sample.milk] [] in
  deleteEntry P (store s) "id-0" = inr [Sample.note]
  /\ entries (app (handleDelete P "id-0" true s).2) = [Sample.note].
Proof.
  split; [reflexivity|].
  exact (proj1 (proj2 (delete_removes_entry
                         (EntryStore.platform (Some "k") Sample.reader Sample.provider_hello)
                         "id-0"
                         (mkSys (mkApp [Sample.note; Sample.milk] "" false false false)
                            [Sample.note; Sample.milk] [])
                         [Sample.note] eq_refl))).
Defined.

(** X7. A delete that is declined, or that the store fails, leaves the
    list and the store as they were; a failure is written to the console
    and no alert is shown. *)
Theorem delete_without_effect {Store : Type} (P : Platform Store)
    (entryId : string) (confirmed : bool) (s : Sys Store) :
  confirmed = false \/ (exists error, deleteEntry P (store s) entryId = inl error) ->
  let s' := (handleDelete P entryId confirmed s).2 in
  app s' = app s /\ store s' = store s
  /\ (confirmed = false -> log s' = log s ++ [EvConfirm "Delete this entry?"])
  /\ (forall error, confirmed = true -> deleteEntry P (store s) entryId = inl error ->
        log s' = log s ++ [EvConfirm "Delete this entry?"; EvDeleteEntry entryId;
                           EvConsoleError "Failed to delete" error]).
Proof.
  intros Hcase s'. subst s'.
  unfold handleDelete, try_catch, call_deleteEntry, bind, emit, getStore,
    await, putStore, setState, ret.
  destruct confirmed.
  - destruct Hcase as [|[error Herr]]; [done|].
    cbn [store app log fst snd]. rewrite Herr. cbn [store app log fst snd].
    repeat split; try done. intros error' _ [= <-]. by rewrite <- ?app_assoc.
  - cbn [store app log fst snd]. repeat split; done.
Qed.

Lemma delete_without_effect_witness :
  let P := EntryStore.platform (Some "k") Sample.reader Sample.provider_hello in
  let s := mkSys (mkApp [Sample.milk] "" false false false) [Sample.milk] [] in
  (exists error, deleteEntry P (store s) "gone" = inl error)
  /\ app (handleDelete P "gone" true s).2 = app s
  /\ store (handleDelete P "gone" true s).2 = store s.
Proof.
  assert (exists error,
            deleteEntry (EntryStore.platform (Some "k") Sample.reader Sample.provider_hello)
              [Sample.milk] "gone" = inl error) as Hfail
    by (exists (Rejection "NotFoundError"); reflexivity).
  split; [exact Hfail|].
  pose proof (delete_without_effect
                (EntryStore.platform (Some "k") Sample.reader Sample.provider_hello)
                "gone" true
                (mkSys (mkApp [Sample.milk] "" false false false) [Sample.milk] [])
                (or_intror Hfail)) as (H1 & H2 & _).
  exact (conj H1 H2).
Defined.

(** X8. Whatever the store answers, [loadEntries] ends with the loading
    flag cleared, so the spinner is gone; on success the list is what the
    store returned, on failure the list is unchanged and the failure is
    only written to the console, so that a journal that failed to load
    into an empty list is shown as an empty journal. *)
Theorem loadEntries_outcome {Store : Type} (P : Platform Store) (s : Sys Store)
    (LocalTZA now : Z) :
  let s' := (loadEntries P s).2 in
  (loadEntries P s).1 = inr tt
  /\ isLoading (app s') = false
  /\ store s' = store s
  /\ mainView LocalTZA now (app s') ≠ ViewLoading
  /\ match getAllEntries P (store s) with
     | inr data => entries (app s') = data /\ log s' = log s ++ [EvGetAllEntries]
     | inl error =>
         entries (app s') = entries (app s)
         /\ log s' = log s ++ [EvGetAllEntries; EvConsoleError "Failed to load entries" error]
         /\ (entries (app s) = [] -> mainView LocalTZA now (app s') = ViewEmpty)
     end.
Proof.
  intros s'. subst s'.
  unfold loadEntries, finally, try_catch, bind, emit, getStore, await, setState, map_app,
    mainView.
  cbn [store app log fst snd].
  destruct (getAllEntries P (store s)) as [error|data]; cbn [store app log fst snd isLoading
    with_isLoading with_entries entries]; repeat split; try done.
  - by case_bool_decide.
  - by rewrite <- app_assoc.
  - by intros ->.
  - by case_bool_decide.
Qed.

(** ** The audio path, in every outcome *)

Lemma handleAudioComplete_rejected {Store : Type} (P : Platform Store) (blob : Blob)
    (uuid : string) (dateNow : Z) (s : Sys Store) :
  (forall s0, exists error, (transcribeAudio P blob s0).1 = inl error) ->
  exists lg,
    handleAudioComplete P blob uuid dateNow s
    = (inr tt,
       mkSys (with_isProcessingAudio false (with_isProcessingAudio true (app s)))
         (store s)
         (lg ++ [EvAlert "Failed to process audio. Please check your API key or network."])).
Proof.
  intros Hfail.
  unfold handleAudioComplete, finally, try_catch, bind at 1 2, setState.
  pose proof (transcribeAudio_frame P blob
                {| app := with_isProcessingAudio true (app s);
                   store := store s; log := log s |}) as [Hst Happ].
  destruct (Hfail {| app := with_isProcessingAudio true (app s);
                     store := store s; log := log s |}) as [error Herr].
  destruct (transcribeAudio P blob _) as [[err|tr] s1]; simpl in Herr, Hst, Happ; [|done].
  unfold bind, emit, map_app. cbn [store app log fst snd].
  rewrite Hst, Happ. eauto.
Qed.

(** X9. [handleAudioComplete] never throws and always ends with the
    processing flag cleared and the typed input untouched. Either an audio
    entry carrying the blob was accepted by the store and put first in the
    list, and the recorder is closed; or nothing was kept: list, store and
    recorder mode are as before and the user is alerted. *)
Theorem audio_complete_outcomes {Store : Type} (P : Platform Store) (blob : Blob)
    (uuid : string) (dateNow : Z) (s : Sys Store) :
  let s' := (handleAudioComplete P blob uuid dateNow s).2 in
  (handleAudioComplete P blob uuid dateNow s).1 = inr tt
  /\ isProcessingAudio (app s') = false
  /\ inputText (app s') = inputText (app s)
  /\ ((exists e, id e = uuid /\ type e = audio /\ audioBlob e = Some blob
                 /\ timestamp e = dateNow
                 /\ saveEntry P (store s) e = inr (store s')
                 /\ entries (app s') = e :: entries (app s)
                 /\ isRecordingMode (app s') = false)
      \/ (store s' = store s /\ entries (app s') = entries (app s)
          /\ isRecordingMode (app s') = isRecordingMode (app s)
          /\ last (log s')
             = Some (EvAlert "Failed to process audio. Please check your API key or network."))).
Proof.
  intros s'. subst s'.
  destruct (truthy (API_KEY P)) eqn:Hk.
  - destruct (readAsDataURL P blob) as [rerr|dataURL] eqn:Hr.
    + destruct (handleAudioComplete_rejected P blob uuid dateNow s) as [lg ->].
      { intros s0. exists rerr. by rewrite (transcribeAudio_unreadable P blob s0 rerr Hk Hr). }
      simpl. repeat split; try done. right. repeat split; try done. apply last_snoc.
    + destruct (generateContent P (requestFor blob dataURL)) as [cause|response] eqn:Hg.
      * rewrite (handleAudioComplete_fault P blob uuid dateNow s dataURL cause Hk Hr Hg).
        simpl. repeat split; try done. right. repeat split; try done.
        by rewrite last_app.
      * rewrite (handleAudioComplete_transcribed P blob uuid dateNow s dataURL response Hk Hr Hg).
        destruct (saveEntry P (store s) _) as [serr|st'] eqn:Hs; simpl.
        -- repeat split; try done. right. repeat split; try done.
           by rewrite last_app.
        -- repeat split; try done. left.
           exists {| id := uuid; type := audio;
                     content := opt_or (response_text response) "";
                     audioBlob := Some blob; timestamp := dateNow |}.
           by rewrite Hs.
  - destruct (handleAudioComplete_rejected P blob uuid dateNow s) as [lg ->].
    { intros s0. exists (JsError "API Key is missing.").
      by rewrite (transcribeAudio_no_key P blob s0 Hk). }
    simpl. repeat split; try done. right. repeat split; try done. apply last_snoc.
Qed.

(** X10. When the blob cannot be read, [transcribeAudio] fails with the
    reader's error before any request is issued, and without the console
    entry that a failed request leaves. *)
Theorem unreadable_blob_fails_before_request {Store : Type} (P : Platform Store)
    (blob : Blob) (s : Sys Store) (error : Exn) :
  truthy (API_KEY P) = true ->
  readAsDataURL P blob = inl error ->
  let s' := (transcribeAudio P blob s).2 in
  (transcribeAudio P blob s).1 = inl error
  /\ requests (log s') = requests (log s)
  /\ log s' = log s ++ [EvNewGoogleGenAI (default "" (API_KEY P)); EvReadAsDataURL blob].
Proof.
  intros Hk Hr s'. subst s'. rewrite (transcribeAudio_unreadable P blob s error Hk Hr).
  simpl. rewrite requests_app. simpl. by rewrite app_nil_r.
Qed.

Lemma unreadable_blob_fails_before_request_witness :
  let P := EntryStore.platform (Some "k") (fun _ => inl (Rejection "NotReadableError"))
             Sample.provider_hello in
  (truthy (API_KEY P) = true
   /\ readAsDataURL P Sample.webm = inl (Rejection "NotReadableError"))
  /\ (transcribeAudio P Sample.webm Sample.fresh).1 = inl (Rejection "NotReadableError")
  /\ requests (log (transcribeAudio P Sample.webm Sample.fresh).2) = [].
Proof.
  split; [split; reflexivity|].
  pose proof (unreadable_blob_fails_before_request
                (EntryStore.platform (Some "k") (fun _ => inl (Rejection "NotReadableError"))
                   Sample.provider_hello)
                Sample.webm Sample.fresh (Rejection "NotReadableError") eq_refl eq_refl)
    as (H1 & H2 & _).
  exact (conj H1 H2).
Defined.

(** X11. Whatever the credential, the reader and the provider do, one call
    of [transcribeAudio] issues at most one request, hands nothing to the
    store, and leaves the store and the component state untouched. *)
Theorem transcribe_touches_nothing {Store : Type} (P : Platform Store)
    (blob : Blob) (s : Sys Store) :
  let s' := (transcribeAudio P blob s).2 in
  (exists issued, requests (log s') = requests (log s) ++ issued
                  /\ (length issued <= 1)%nat)
  /\ savedEntries (log s') = savedEntries (log s)
  /\ store s' = store s
  /\ app s' = app s.
Proof.
  intros s'. subst s'. split; [apply transcribeAudio_at_most_one_request|].
  split; [|apply transcribeAudio_frame].
  destruct (transcribeAudio_log P blob s) as (lg & -> & Hlg).
  by rewrite savedEntries_app, Hlg, app_nil_r.
Qed.

(** ** The payload of a data URL *)

Module PayloadFacts.
Import TrimFacts.

Lemma splitComma_go_commaFree (cur s : string) :
  commaFree s = true -> splitComma_go cur s = [cur +:+ s].
Proof.
  revert cur. induction s as [|c s IH]; intros cur H; simpl in *.
  - by rewrite append_empty_r.
  - apply andb_prop in H as [Hc Hs]. apply negb_true_iff in Hc. rewrite Hc.
    rewrite (IH _ Hs), append_assoc. done.
Qed.

Lemma splitComma_go_prefix (cur p rest : string) :
  commaFree p = true ->
  splitComma_go cur (p +:+ String "," rest) = (cur +:+ p) :: splitComma_go "" rest.
Proof.
  revert cur. induction p as [|c p IH]; intros cur H; simpl in *.
  - by rewrite append_empty_r.
  - apply andb_prop in H as [Hc Hs]. apply negb_true_iff in Hc. rewrite Hc.
    rewrite (IH _ Hs), append_assoc. done.
Qed.

Lemma splitComma_commaFree (s : string) : commaFree s = true -> splitComma s = [s].
Proof. intros H. unfold splitComma. by rewrite splitComma_go_commaFree. Qed.

Lemma splitComma_payload (p payload : string) :
  commaFree p = true -> commaFree payload = true ->
  splitComma (p +:+ String "," payload) = [p; payload].
Proof.
  intros Hp Hq. unfold splitComma.
  rewrite (splitComma_go_prefix "" p payload Hp), (splitComma_go_commaFree "" payload Hq).
  done.
Qed.

End PayloadFacts.

(** X12. For a data URL made of a header without comma, a comma and a
    payload without comma, the request built by [transcribeAudio] carries
    exactly the payload: the header and the comma are cut off, nothing of
    the payload is lost. *)
Theorem request_carries_payload {Store : Type} (P : Platform Store) (blob : Blob)
    (s : Sys Store) (header payload : string) :
  truthy (API_KEY P) = true ->
  commaFree header = true -> commaFree payload = true ->
  readAsDataURL P blob = inr (header +:+ "," +:+ payload) ->
  exists req, requests (log (transcribeAudio P blob s).2) = requests (log s) ++ [req]
              /\ inline_data req = Some payload
              /\ inline_mimeType req = str_or (blob_type blob) "audio/webm"
              /\ model req = "gemini-2.5-flash".
Proof.
  intros Hk Hh Hp Hr.
  exists (requestFor blob (header +:+ "," +:+ payload)). split.
  - rewrite (transcribeAudio_request P blob s _ Hk Hr).
    destruct (generateContent P _); simpl; rewrite !requests_app; simpl;
      by rewrite ?app_nil_r.
  - unfold requestFor. simpl.
    change ("," +:+ payload) with (String "," payload).
    by rewrite (PayloadFacts.splitComma_payload header payload Hh Hp).
Qed.

Lemma request_carries_payload_witness :
  let P := EntryStore.platform (Some "k") (fun _ => inr "data:audio/webm;base64,QUJD")
             Sample.provider_hello in
  (truthy (API_KEY P) = true
   /\ commaFree "data:audio/webm;base64" = true /\ commaFree "QUJD" = true
   /\ readAsDataURL P Sample.webm = inr ("data:audio/webm;base64" +:+ "," +:+ "QUJD"))
  /\ exists req, requests (log (transcribeAudio P Sample.webm Sample.fresh).2)
                 = requests (log Sample.fresh) ++ [req]
                 /\ inline_data req = Some "QUJD"
                 /\ inline_mimeType req = str_or (blob_type Sample.webm) "audio/webm"
                 /\ model req = "gemini-2.5-flash".
Proof.
  split; [repeat split; reflexivity|].
  exact (request_carries_payload
           (EntryStore.platform (Some "k") (fun _ => inr "data:audio/webm;base64,QUJD")
              Sample.provider_hello)
           Sample.webm Sample.fresh "data:audio/webm;base64" "QUJD"
           eq_refl eq_refl eq_refl eq_refl).
Defined.

(** X13. A reader result without any comma (such as "data:") has no
    payload part: the request is sent all the same, with its data left
    undefined; the call does not fail on its own account. *)
Theorem request_without_payload {Store : Type} (P : Platform Store) (blob : Blob)
    (s : Sys Store) (dataURL : string) :
  truthy (API_KEY P) = true ->
  commaFree dataURL = true ->
  readAsDataURL P blob = inr dataURL ->
  exists req, requests (log (transcribeAudio P blob s).2) = requests (log s) ++ [req]
              /\ inline_data req = None
              /\ (transcribeAudio P blob s).1
                 = match generateContent P req with
                   | inr response => inr (opt_or (response_text response) "")
                   | inl error => inl error
                   end.
Proof.
  intros Hk Hc Hr.
  exists (requestFor blob dataURL). rewrite (transcribeAudio_request P blob s _ Hk Hr).
  split; [|split].
  - destruct (generateContent P _); simpl; rewrite !requests_app; simpl;
      by rewrite ?app_nil_r.
  - unfold requestFor. simpl. by rewrite (PayloadFacts.splitComma_commaFree dataURL Hc).
  - by destruct (generateContent P _).
Qed.

Lemma request_without_payload_witness :
  let P := EntryStore.platform (Some "k") (fun _ => inr "data:") Sample.provider_hello in
  (truthy (API_KEY P) = true /\ commaFree "data:" = true
   /\ readAsDataURL P Sample.silence = inr "data:")
  /\ exists req, requests (log (transcribeAudio P Sample.silence Sample.fresh).2)
                 = requests (log Sample.fresh) ++ [req]
                 /\ inline_data req = None
                 /\ (transcribeAudio P Sample.silence Sample.fresh).1
                    = match generateContent P req with
                      | inr response => inr (opt_or (response_text response) "")
                      | inl error => inl error
                      end.
Proof.
  split; [repeat split; reflexivity|].
  exact (request_without_payload
           (EntryStore.platform (Some "k") (fun _ => inr "data:") Sample.provider_hello)
           Sample.silence Sample.fresh "data:" eq_refl eq_refl eq_refl).
Defined.

(** ** The sections of the main view *)

Section SectionsFacts.
Variables (LocalTZA now : Z).
Local Abbreviation key := (groupKey LocalTZA now).





End SectionsFacts.



(** ** What a capture session delivers *)

Module DeliveryFacts.
Import AudioRecorder.

Lemma Delivery_initial : Delivery initial.
Proof. constructor; simpl; try done; try lia; constructor. Qed.

Ltac del_auto :=
  intros; eauto; try done; try congruence; try lia;
  repeat match goal with
    | Hd : ?P -> _, H : ?P |- _ =>
        let T := type of P in
        lazymatch T with Prop => specialize (Hd H) end
    | Hd : ?a ≠ ?b -> _ |- _ =>
        let H := fresh in assert (a ≠ b) as H by done; specialize (Hd H); clear H
    | H : _ /\ _ |- _ => destruct H
    end;
  repeat split; eauto; try done; try congruence; try lia.

Lemma Delivery_cleanup (s : State) : Delivery s -> Delivery (stopRecordingCleanup s).
Proof.
  intros [H1 H2 H3 H4 H5 H6 H7]. unfold stopRecordingCleanup.
  destruct (timerRef s); cbn [mediaRecorderRef]; destruct (mediaRecorderRef s) eqn:Hm;
    constructor; cbn [lifecycle getUserMediaPending recorderState completed
                      mediaRecorderRef chunksRef]; rewrite ?Hm; del_auto.
Qed.

Lemma Delivery_unmount (s : State) :
  Delivery s -> lifecycle s ≠ NotMounted -> Delivery (unmount s).
Proof.
  intros Hd Hl. apply Delivery_cleanup in Hd. destruct Hd as [H1 H2 H3 H4 H5 H6 H7].
  unfold unmount.
  constructor; cbn [lifecycle getUserMediaPending recorderState completed
                    mediaRecorderRef chunksRef]; del_auto.
Qed.

Lemma Delivery_step (s : State) (ev : Event) : Delivery s -> Delivery (step s ev).
Proof.
  intros Hd. destruct ev; simpl.
  - destruct (lifecycle s) eqn:Hl; [|done..].
    destruct Hd as [H1 H2 H3 H4 H5 H6 H7].
    destruct (H1 Hl) as (? & ? & ? & ?).
    constructor; cbn [lifecycle getUserMediaPending recorderState completed
                      mediaRecorderRef chunksRef]; del_auto.
  - destruct (getUserMediaPending s) eqn:Hp; [|done].
    destruct Hd as [H1 H2 H3 H4 H5 H6 H7].
    destruct (H2 Hp) as (? & Hc & ? & ?).
    unfold startRecording_resume.
    constructor; cbn [lifecycle getUserMediaPending recorderState completed
                      mediaRecorderRef chunksRef]; rewrite ?Hc; del_auto.
  - destruct (getUserMediaPending s) eqn:Hp; [|done].
    destruct Hd as [H1 H2 H3 H4 H5 H6 H7].
    destruct (H2 Hp) as (? & Hc & ? & ?).
    unfold startRecording_failed, onCancel.
    cbn [lifecycle]. destruct (lifecycle s) eqn:Hl; [done| |].
    + apply Delivery_unmount; [|cbn [lifecycle]; congruence].
      constructor; cbn [lifecycle getUserMediaPending recorderState completed
                        mediaRecorderRef chunksRef]; rewrite ?Hc; del_auto.
    + constructor; cbn [lifecycle getUserMediaPending recorderState completed
                        mediaRecorderRef chunksRef]; rewrite ?Hc; del_auto.
  - destruct (lifecycle s) eqn:Hl; [done| |done].
    destruct (activeIntervals s); [done|].
    destruct Hd as [H1 H2 H3 H4 H5 H6 H7].
    constructor; cbn [lifecycle getUserMediaPending recorderState completed
                      mediaRecorderRef chunksRef]; rewrite ?Hl; del_auto.
  - assert (Delivery (ondataavailable data s)) as Hda.
    { unfold ondataavailable. case_bool_decide as Hsz; [|done].
      destruct Hd as [H1 H2 H3 H4 H5 H6 H7].
      constructor; cbn [lifecycle getUserMediaPending recorderState completed
                        mediaRecorderRef chunksRef]; del_auto.
      apply Forall_app. split; [done|]. constructor; [|constructor].
      intros Hb. rewrite Hb in Hsz. simpl in Hsz. lia. }
    by destruct (recorderState s).
  - destruct (lifecycle s) eqn:Hl; [done| |done].
    unfold stopRecording. destruct (mediaRecorderRef s) eqn:Hm; [|done].
    destruct (isRecording s); [|done].
    destruct Hd as [H1 H2 H3 H4 H5 H6 H7].
    constructor; cbn [lifecycle getUserMediaPending recorderState completed
                      mediaRecorderRef chunksRef]; rewrite ?Hl, ?Hm;
      destruct (recorderState s) eqn:Hr; del_auto.
  - assert (recorderState s ≠ inactive -> Delivery (onstop s)) as Hon.
    { intros Hr. destruct Hd as [H1 H2 H3 H4 H5 H6 H7].
      destruct (H5 Hr) as [Hp Hl].
      assert (completed s = []) as Hc.
      { destruct (completed s) eqn:Hc; [done|]. destruct H4 as [? _]; congruence. }
      unfold onstop. apply Delivery_cleanup.
      constructor; cbn [lifecycle getUserMediaPending recorderState completed
                        mediaRecorderRef chunksRef]; rewrite ?Hc; del_auto.
      constructor; [|constructor]. simpl.
      unfold str_or, truthy. destruct (mimeTypeRef s) eqn:Hty; simpl; done. }
    destruct (recorderState s) eqn:Hr; [done| |].
    + destruct (tracksEnded s); [|done]. by apply Hon.
    + by apply Hon.
  - destruct (lifecycle s) eqn:Hl; [done| |done].
    unfold onCancel. cbn [lifecycle]. rewrite Hl.
    apply Delivery_unmount; [|cbn [lifecycle]; congruence].
    destruct Hd as [H1 H2 H3 H4 H5 H6 H7].
    constructor; cbn [lifecycle getUserMediaPending recorderState completed
                      mediaRecorderRef chunksRef]; del_auto.
  - destruct (lifecycle s) eqn:Hl; [done| |done].
    apply Delivery_unmount; [done|congruence].
Qed.

Lemma Delivery_run (evs : list Event) (s : State) : Delivery s -> Delivery (run evs s).
Proof.
  revert s. induction evs as [|ev evs IH]; intros s Hs; [done|].
  apply IH. by apply Delivery_step.
Qed.

End DeliveryFacts.

(** ** Sessions that end without a recording *)

Module SessionFacts.
Import AudioRecorder.

Lemma refused_step (s : State) (ev : Event) : refused s -> step s ev = s.
Proof.
  intros (Hl & Hp & Hr). destruct ev; simpl; rewrite ?Hl, ?Hp, ?Hr; done.
Qed.

Lemma refused_run (evs : list Event) (s : State) : refused s -> run evs s = s.
Proof.
  intros Hs. induction evs as [|ev evs IH]; [done|].
  unfold run in *. simpl. by rewrite (refused_step s ev Hs).
Qed.

Lemma tracksEnded_live (ntracks : nat) (s : State) :
  (0 < ntracks)%nat -> tracks s = Some (replicate ntracks live) -> tracksEnded s = false.
Proof.
  intros Hn Ht. unfold tracksEnded. rewrite Ht. destruct ntracks; [lia|done].
Qed.

Lemma orphaned_step (ntracks : nat) (timer : positive) (stops : nat) (s : State) (ev : Event) :
  (0 < ntracks)%nat -> orphaned ntracks timer stops s -> orphaned ntracks timer stops (step s ev).
Proof.
  intros Hn (Hl & Hp & Hr & Ht & Hi & Hs).
  destruct ev; simpl; rewrite ?Hl, ?Hp, ?Hr; try done.
  - unfold ondataavailable. case_bool_decide; done.
  - by rewrite (tracksEnded_live ntracks s Hn Ht).
Qed.

Lemma orphaned_run (ntracks : nat) (timer : positive) (stops : nat)
    (evs : list Event) (s : State) :
  (0 < ntracks)%nat -> orphaned ntracks timer stops s ->
  orphaned ntracks timer stops (run evs s).
Proof.
  intros Hn. revert s. induction evs as [|ev evs IH]; intros s Hs; [done|].
  apply IH. by apply orphaned_step.
Qed.

Lemma orphaned_not_released (ntracks : nat) (timer : positive) (stops : nat) (s : State) :
  orphaned ntracks timer stops s -> ~ released s.
Proof.
  intros (_ & _ & _ & _ & Hi & _) [_ Hr]. rewrite Hr in Hi. by apply not_elem_of_nil in Hi.
Qed.

End SessionFacts.

(** X18. A capture session hands its parent at most one recording,
    whatever the order in which clicks, recorder events, the answer of the
    device and the unmount arrive. *)
Theorem at_most_one_recording_delivered (evs : list AudioRecorder.Event) :
  (length (AudioRecorder.completed (AudioRecorder.run evs AudioRecorder.initial)) <= 1)%nat.
Proof.
  apply AudioRecorder.del_once, DeliveryFacts.Delivery_run, DeliveryFacts.Delivery_initial.
Qed.

(** X19. A recording delivered by the recorder always has a MIME type,
    and the chunks kept for a recording are never empty; so the request
    [transcribeAudio] builds for a delivered recording carries the
    recording's own type. *)
Theorem delivered_recording_is_typed (evs : list AudioRecorder.Event) (b : Blob) :
  b ∈ AudioRecorder.completed (AudioRecorder.run evs AudioRecorder.initial) ->
  blob_type b ≠ ""
  /\ (forall dataURL, inline_mimeType (requestFor b dataURL) = blob_type b)
  /\ Forall (fun c => blob_bytes c ≠ [])
       (AudioRecorder.chunksRef (AudioRecorder.run evs AudioRecorder.initial)).
Proof.
  intros Hb.
  pose proof (DeliveryFacts.Delivery_run evs _ DeliveryFacts.Delivery_initial) as Hd.
  pose proof (AudioRecorder.del_typed _ Hd) as Hty. rewrite Forall_forall in Hty.
  specialize (Hty b Hb). split; [done|]. split; [|apply (AudioRecorder.del_chunks _ Hd)].
  intros dataURL. unfold requestFor, str_or, truthy. simpl.
  destruct (blob_type b); done.
Qed.

Lemma delivered_recording_is_typed_witness :
  let evs := Sample.recorded ++ [AudioRecorder.EvRecorderStop] in
  let b := mkBlob (blob_bytes Sample.chunk) "audio/mp4" in
  b ∈ AudioRecorder.completed (AudioRecorder.run evs AudioRecorder.initial)
  /\ blob_type b ≠ ""
  /\ (forall dataURL, inline_mimeType (requestFor b dataURL) = blob_type b).
Proof.
  assert (mkBlob (blob_bytes Sample.chunk) "audio/mp4"
          ∈ AudioRecorder.completed
              (AudioRecorder.run (Sample.recorded ++ [AudioRecorder.EvRecorderStop])
                 AudioRecorder.initial)) as Hb by apply list_elem_of_here.
  split; [exact Hb|].
  destruct (delivered_recording_is_typed _ _ Hb) as (H1 & H2 & _).
  exact (conj H1 H2).
Defined.

(** ** The recording delivered *)

Module CaptureFacts.
Import AudioRecorder.

Lemma received_app (evs1 evs2 : list Event) :
  received (evs1 ++ evs2) = received evs1 ++ received evs2.
Proof. apply omap_app. Qed.

Lemma Capturing_start (dev : Device) (ntracks : nat) (timer : positive) :
  Capturing dev []
    (run [EvMount; EvGetUserMediaResolved dev ntracks timer] initial).
Proof. constructor; simpl; try done. by left. Qed.

Lemma Capturing_step (dev : Device) (chunks : list Blob) (s : State) (ev : Event) :
  whileRecording ev -> Capturing dev chunks s ->
  Capturing dev (chunks ++ received [ev]) (step s ev)
  /\ (ev = EvClickStop -> recorderState (step s ev) = stopping)
  /\ (recorderState s = stopping -> recorderState (step s ev) = stopping).
Proof.
  intros Hev [Hl Hp Hm Hty Hc Hst Hch]. destruct ev; try done; simpl.
  - rewrite Hl. destruct (activeIntervals s); rewrite app_nil_r; (split; [|done]);
      constructor; done.
  - unfold ondataavailable, received. simpl.
    assert (recorderState s ≠ inactive) as Hact by (destruct Hst as [[-> _]| ->]; done).
    case_bool_decide; simpl.
    + destruct (recorderState s) eqn:Hr; [done|..]; (split; [|done]);
        constructor; simpl; rewrite ?Hr, ?Hch; done.
    + rewrite app_nil_r. destruct (recorderState s) eqn:Hr; [done|..]; (split; [|done]);
        constructor; simpl; rewrite ?Hr; done.
  - rewrite Hl, app_nil_r. unfold stopRecording.
    destruct (mediaRecorderRef s) eqn:Hrec; [|done].
    destruct Hst as [[Hr Hi]|Hr].
    + rewrite Hi. simpl. rewrite Hr. split; [|done].
      constructor; simpl; rewrite ?Hrec, ?Hr; try done. by right.
    + destruct (isRecording s); simpl; rewrite ?Hr; (split; [|done]);
        constructor; simpl; rewrite ?Hrec, ?Hr; try done; by right.
Qed.

Lemma Capturing_run (dev : Device) (evs : list Event) (chunks : list Blob) (s : State) :
  Forall whileRecording evs -> Capturing dev chunks s ->
  Capturing dev (chunks ++ received evs) (run evs s)
  /\ (EvClickStop ∈ evs \/ recorderState s = stopping -> recorderState (run evs s) = stopping).
Proof.
  revert chunks s. induction evs as [|ev evs IH]; intros chunks s Hevs Hs.
  - rewrite app_nil_r. split; [done|]. intros [H|H]; [by apply not_elem_of_nil in H|done].
  - apply Forall_cons in Hevs as [Hev Hevs].
    destruct (Capturing_step dev chunks s ev Hev Hs) as (Hs' & Hclick & Hkeep).
    destruct (IH _ _ Hevs Hs') as [Hrun Hstop].
    change (run (ev :: evs) s) with (run evs (step s ev)).
    change (ev :: evs) with ([ev] ++ evs). rewrite received_app, app_assoc.
    split; [done|]. intros [Hin|Hr]; apply Hstop.
    + apply elem_of_app in Hin as [Hin|Hin]; [|by left].
      apply list_elem_of_singleton in Hin. right. by apply Hclick.
    + right. by apply Hkeep.
Qed.

End CaptureFacts.

(** X20. A recording that is started, runs (ticks, data, clicks on
    Stop, in any order and number, with at least one click) and is then
    stopped by the recorder delivers exactly one blob: the data of
    positive size the recorder handed over, in the order received, under
    the type negotiated at the start; and stream and timer are released. *)
Theorem recording_is_the_data_received (dev : AudioRecorder.Device) (ntracks : nat)
    (timer : positive) (mid : list AudioRecorder.Event) :
  Forall AudioRecorder.whileRecording mid ->
  AudioRecorder.EvClickStop ∈ mid ->
  let s := AudioRecorder.run
             ([AudioRecorder.EvMount; AudioRecorder.EvGetUserMediaResolved dev ntracks timer]
                ++ mid ++ [AudioRecorder.EvRecorderStop])
             AudioRecorder.initial in
  AudioRecorder.completed s
    = [mkBlob (concat (map blob_bytes (AudioRecorder.received mid))) (AudioRecorder.recordingType dev)]
  /\ AudioRecorder.released s.
Proof.
  intros Hmid Hclick s.
  destruct (CaptureFacts.Capturing_run dev mid [] _ Hmid
              (CaptureFacts.Capturing_start dev ntracks timer)) as [Hcap Hstop].
  specialize (Hstop (or_introl Hclick)).
  assert (s = AudioRecorder.step
                (AudioRecorder.run mid
                   (AudioRecorder.run
                      [AudioRecorder.EvMount;
                       AudioRecorder.EvGetUserMediaResolved dev ntracks timer]
                      AudioRecorder.initial))
                AudioRecorder.EvRecorderStop) as ->.
  { subst s. by rewrite !ReleaseFacts.run_append. }
  set (s1 := AudioRecorder.run mid _) in *.
  split.
  - simpl. rewrite Hstop. unfold AudioRecorder.onstop.
    destruct (ReleaseFacts.cleanup_fields
                (AudioRecorder.mkState (AudioRecorder.lifecycle s1)
                   (AudioRecorder.isRecording s1) (AudioRecorder.duration s1)
                   (AudioRecorder.mediaRecorderRef s1) (AudioRecorder.chunksRef s1)
                   (AudioRecorder.timerRef s1) (AudioRecorder.mimeTypeRef s1)
                   (AudioRecorder.getUserMediaPending s1) (AudioRecorder.tracks s1)
                   AudioRecorder.inactive (AudioRecorder.activeIntervals s1)
                   (AudioRecorder.trackStopRuns s1) (AudioRecorder.clearIntervalCalls s1)
                   (AudioRecorder.completed s1
                      ++ [AudioRecorder.concatBlob (AudioRecorder.chunksRef s1)
                            (str_or (AudioRecorder.mimeTypeRef s1) "audio/webm")])
                   (AudioRecorder.cancelCalls s1)))
      as (_ & _ & _ & _ & _ & Hc & _).
    cbv zeta in Hc. rewrite Hc. simpl.
    destruct Hcap as [_ _ _ Hty Hnone _ Hch]. by rewrite Hnone, Hch, Hty.
  - assert (AudioRecorder.Inv s1) as Hinv.
    { subst s1. rewrite <- ReleaseFacts.run_append.
      apply ReleaseFacts.Inv_run, ReleaseFacts.Inv_initial. }
    destruct (ReleaseFacts.terminal_settles s1 AudioRecorder.EvRecorderStop Hinv Hstop)
      as (_ & _ & Hrel); [|done].
    left. by destruct Hcap.
Qed.

Lemma recording_is_the_data_received_witness :
  let mid := [AudioRecorder.EvTick; AudioRecorder.EvDataAvailable Sample.chunk;
              AudioRecorder.EvClickStop; AudioRecorder.EvDataAvailable (mkBlob [] "");
              AudioRecorder.EvDataAvailable Sample.silence] in
  (Forall AudioRecorder.whileRecording mid /\ AudioRecorder.EvClickStop ∈ mid)
  /\ AudioRecorder.completed
       (AudioRecorder.run
          ([AudioRecorder.EvMount; AudioRecorder.EvGetUserMediaResolved Sample.only_mp4 1 7]
             ++ mid ++ [AudioRecorder.EvRecorderStop])
          AudioRecorder.initial)
     = [mkBlob (blob_bytes Sample.chunk ++ blob_bytes Sample.silence) "audio/mp4"].
Proof.
  assert (Forall AudioRecorder.whileRecording
            [AudioRecorder.EvTick; AudioRecorder.EvDataAvailable Sample.chunk;
             AudioRecorder.EvClickStop; AudioRecorder.EvDataAvailable (mkBlob [] "");
             AudioRecorder.EvDataAvailable Sample.silence]) as Hmid
    by (repeat constructor).
  assert (AudioRecorder.EvClickStop
          ∈ [AudioRecorder.EvTick; AudioRecorder.EvDataAvailable Sample.chunk;
             AudioRecorder.EvClickStop; AudioRecorder.EvDataAvailable (mkBlob [] "");
             AudioRecorder.EvDataAvailable Sample.silence]) as Hclick
    by (do 2 apply list_elem_of_further; apply list_elem_of_here).
  split; [exact (conj Hmid Hclick)|].
  destruct (recording_is_the_data_received Sample.only_mp4 1 7 _ Hmid Hclick) as [H _].
  exact H.
Defined.

(** X21. When the device is refused while the recorder is shown, the
    parent's [onCancel] is called once, nothing has been acquired, and the
    session is over: no later event changes its state, so nothing is ever
    recorded or delivered. *)
Theorem refused_device_ends_session (pre post : list AudioRecorder.Event) :
  let s := AudioRecorder.run pre AudioRecorder.initial in
  let s' := AudioRecorder.step s AudioRecorder.EvGetUserMediaRejected in
  AudioRecorder.getUserMediaPending s = true ->
  AudioRecorder.lifecycle s = AudioRecorder.Mounted ->
  AudioRecorder.run (pre ++ AudioRecorder.EvGetUserMediaRejected :: post) AudioRecorder.initial
    = s'
  /\ AudioRecorder.cancelCalls s' = S (AudioRecorder.cancelCalls s)
  /\ AudioRecorder.lifecycle s' = AudioRecorder.Unmounted
  /\ AudioRecorder.mediaRecorderRef s' = None
  /\ AudioRecorder.tracks s' = None
  /\ AudioRecorder.activeIntervals s' = []
  /\ AudioRecorder.completed s' = [].
Proof.
  intros s s' Hp Hl.
  pose proof (DeliveryFacts.Delivery_run pre _ DeliveryFacts.Delivery_initial) as Hd.
  pose proof (ReleaseFacts.Inv_run pre _ ReleaseFacts.Inv_initial) as Hi.
  fold s in Hd, Hi.
  destruct (AudioRecorder.del_pending _ Hd Hp) as (Hr & Hc & Hm & _).
  destruct (AudioRecorder.inv_pending _ Hi Hp) as (Ht & Ha & _).
  rewrite ReleaseFacts.run_append. fold s.
  change (AudioRecorder.run (AudioRecorder.EvGetUserMediaRejected :: post) s)
    with (AudioRecorder.run post s').
  assert (AudioRecorder.cancelCalls s' = S (AudioRecorder.cancelCalls s)
          /\ AudioRecorder.lifecycle s' = AudioRecorder.Unmounted
          /\ AudioRecorder.getUserMediaPending s' = false
          /\ AudioRecorder.recorderState s' = AudioRecorder.inactive
          /\ AudioRecorder.mediaRecorderRef s' = None
          /\ AudioRecorder.tracks s' = None
          /\ AudioRecorder.activeIntervals s' = []
          /\ AudioRecorder.completed s' = []) as (H1 & H2 & H3 & H4 & H5 & H6 & H7 & H8).
  { subst s'. clearbody s. clear Hd Hi. destruct s. simpl in *. subst. simpl.
    by destruct timerRef. }
  split; [|done]. apply SessionFacts.refused_run. done.
Qed.

Lemma refused_device_ends_session_witness :
  let pre := [AudioRecorder.EvMount] in
  let post := [AudioRecorder.EvGetUserMediaResolved Sample.only_mp4 1 7;
               AudioRecorder.EvClickStop; AudioRecorder.EvRecorderStop] in
  (AudioRecorder.getUserMediaPending (AudioRecorder.run pre AudioRecorder.initial) = true
   /\ AudioRecorder.lifecycle (AudioRecorder.run pre AudioRecorder.initial)
      = AudioRecorder.Mounted)
  /\ AudioRecorder.completed
       (AudioRecorder.run (pre ++ AudioRecorder.EvGetUserMediaRejected :: post)
          AudioRecorder.initial) = [].
Proof.
  split; [split; reflexivity|].
  destruct (refused_device_ends_session [AudioRecorder.EvMount]
              [AudioRecorder.EvGetUserMediaResolved Sample.only_mp4 1 7;
               AudioRecorder.EvClickStop; AudioRecorder.EvRecorderStop]
              eq_refl eq_refl) as (Hrun & _ & _ & _ & _ & _ & Hc).
  cbv zeta. rewrite Hrun. exact Hc.
Defined.

(** X22. When the recorder is dismissed while the device is still being
    requested and the device is granted afterwards, the stream and the
    timer started by [startRecording] are never released: whatever happens
    next, every track stays live, the interval keeps running, and no track
    is ever stopped. *)
Theorem grant_after_dismissal_is_never_released (pre post : list AudioRecorder.Event)
    (dev : AudioRecorder.Device) (ntracks : nat) (timer : positive) :
  let s := AudioRecorder.run pre AudioRecorder.initial in
  let s' := AudioRecorder.run
              (pre ++ AudioRecorder.EvGetUserMediaResolved dev ntracks timer :: post)
              AudioRecorder.initial in
  AudioRecorder.lifecycle s = AudioRecorder.Unmounted ->
  AudioRecorder.getUserMediaPending s = true ->
  (0 < ntracks)%nat ->
  ~ AudioRecorder.released s'
  /\ AudioRecorder.tracks s' = Some (replicate ntracks AudioRecorder.live)
  /\ timer ∈ AudioRecorder.activeIntervals s'
  /\ AudioRecorder.trackStopRuns s' = AudioRecorder.trackStopRuns s
  /\ AudioRecorder.completed s' = [].
Proof.
  intros s s' Hl Hp Hn.
  assert (AudioRecorder.orphaned ntracks timer (AudioRecorder.trackStopRuns s) s') as Ho.
  { subst s'. rewrite ReleaseFacts.run_append. fold s.
    change (AudioRecorder.run (AudioRecorder.EvGetUserMediaResolved dev ntracks timer :: post) s)
      with (AudioRecorder.run post
              (AudioRecorder.step s (AudioRecorder.EvGetUserMediaResolved dev ntracks timer))).
    apply SessionFacts.orphaned_run; [done|].
    simpl. rewrite Hp. unfold AudioRecorder.startRecording_resume.
    repeat split; cbn; try done. rewrite elem_of_app, list_elem_of_singleton. by right. }
  split; [by eapply SessionFacts.orphaned_not_released|].
  destruct Ho as (Hl' & Hp' & Hr' & Ht' & Hi' & Hs'). repeat split; try done.
  pose proof (DeliveryFacts.Delivery_run
                (pre ++ AudioRecorder.EvGetUserMediaResolved dev ntracks timer :: post)
                _ DeliveryFacts.Delivery_initial) as Hd.
  fold s' in Hd. destruct (AudioRecorder.completed s') eqn:Hc; [done|].
  destruct (AudioRecorder.del_done _ Hd) as [Hin _]; [by rewrite Hc|]. congruence.
Qed.

Lemma grant_after_dismissal_is_never_released_witness :
  let pre := [AudioRecorder.EvMount; AudioRecorder.EvClickCancel] in
  let post := [AudioRecorder.EvRecorderStop; AudioRecorder.EvParentUnmount] in
  (AudioRecorder.lifecycle (AudioRecorder.run pre AudioRecorder.initial)
   = AudioRecorder.Unmounted
   /\ AudioRecorder.getUserMediaPending (AudioRecorder.run pre AudioRecorder.initial) = true
   /\ (0 < 1)%nat)
  /\ ~ AudioRecorder.released
         (AudioRecorder.run
            (pre ++ AudioRecorder.EvGetUserMediaResolved Sample.only_mp4 1 7 :: post)
            AudioRecorder.initial).
Proof.
  assert (0 < 1)%nat as Hn by lia.
  split; [repeat split; exact Hn|].
  destruct (grant_after_dismissal_is_never_released
              [AudioRecorder.EvMount; AudioRecorder.EvClickCancel]
              [AudioRecorder.EvRecorderStop; AudioRecorder.EvParentUnmount]
              Sample.only_mp4 1 7 eq_refl eq_refl Hn) as [H _].
  exact H.
Defined.

(** ** The duration shown *)

Module DurationFacts.

Lemma pad2_seconds (n : nat) :
  (n < 60)%nat -> String.length (padStart0 2 (Z.of_nat n)) = 2%nat.
Proof. intros Hn. do 60 (destruct n as [|n]; [reflexivity|]). lia. Qed.

Lemma padStart0_inj_nonneg (w : nat) (a b : Z) :
  0 <= a -> 0 <= b -> padStart0 w a = padStart0 w b -> a = b.
Proof.
  intros Ha Hb Heq. apply (f_equal (parseDigits 0)) in Heq.
  rewrite !DateFacts.parseDigits_padStart0 in Heq. lia.
Qed.

Lemma length_append (a b : string) :
  String.length (a +:+ b) = (String.length a + String.length b)%nat.
Proof. induction a as [|c a IH]; simpl; [done|]. by rewrite IH. Qed.

End DurationFacts.

(** X23. [formatDuration] shows different durations differently. *)
Theorem formatDuration_distinct (a b : nat) :
  a ≠ b -> AudioRecorder.formatDuration a ≠ AudioRecorder.formatDuration b.
Proof.
  intros Hab Heq. apply Hab. unfold AudioRecorder.formatDuration in Heq. cbv zeta in Heq.
  assert (forall n : nat, String.length (padStart0 2 (Z.of_nat n mod 60)) = 2%nat) as Hlen.
  { intros n. pose proof (Z.mod_pos_bound (Z.of_nat n) 60).
    rewrite <- (Z2Nat.id (Z.of_nat n mod 60)) by lia.
    apply DurationFacts.pad2_seconds. lia. }
  assert (String.length (pretty (Z.of_nat a / 60)) = String.length (pretty (Z.of_nat b / 60)))
    as Hl.
  { apply (f_equal String.length) in Heq.
    rewrite !DurationFacts.length_append, !Hlen in Heq. lia. }
  destruct (DateFacts.append_inj_length _ _ _ _ Hl Heq) as [Hm Hs].
  apply (inj pretty) in Hm.
  apply (inj (String.app ":")) in Hs.
  apply DurationFacts.padStart0_inj_nonneg in Hs;
    [|apply Z.mod_pos_bound; lia|apply Z.mod_pos_bound; lia].
  pose proof (Z.div_mod (Z.of_nat a) 60). pose proof (Z.div_mod (Z.of_nat b) 60). lia.
Qed.

Lemma formatDuration_distinct_witness :
  59%nat ≠ 60%nat
  /\ AudioRecorder.formatDuration 59 = "0:59"
  /\ AudioRecorder.formatDuration 60 = "1:00"
  /\ AudioRecorder.formatDuration 59 ≠ AudioRecorder.formatDuration 60.
Proof.
  assert (59%nat ≠ 60%nat) as Hne by lia.
  split; [exact Hne|]. split; [reflexivity|]. split; [reflexivity|].
  exact (formatDuration_distinct 59 60 Hne).
Defined.

(** ** The entry card *)

Module CardFacts.
Import EntryCard.

Ltac card_auto :=
  intros; simplify_eq; eauto; try done; try congruence;
  repeat match goal with
    | Hb : ?P -> _, H : ?P |- _ =>
        let T := type of P in
        lazymatch T with Prop => specialize (Hb H) end
    end;
  try congruence.

Section Card.
Context {Time : Type} (zero : Time) (entry : JournalEntry).
Implicit Types (s : State Time) (ev : Event Time).

Lemma CardInv_initial : Inv entry (initial zero).
Proof. constructor; simpl; done. Qed.

Lemma filter_own_url (url : string) : filter (fun u => u ≠ url) [url] = [].
Proof. rewrite filter_cons_False; [done|]. by intros H. Qed.

Lemma CardInv_step s ev : Inv entry s -> Inv entry (step zero entry s ev).
Proof.
  intros Hinv. destruct ev; simpl.
  - destruct (lifecycle s) eqn:Hl; [|done..].
    destruct Hinv as [Hf Hn Hb Hm Hg].
    destruct (Hf Hl) as (Ha & Hu & Hp & Hs & Hi).
    unfold mountEffect. destruct (audioBlob entry) eqn:Hblob.
    + constructor; simpl; rewrite ?Hu; card_auto.
    + constructor; simpl; rewrite ?Ha; card_auto.
  - destruct (lifecycle s) eqn:Hl; [done| |done].
    destruct (playerShown entry); [|done].
    unfold togglePlay. destruct (audio s) eqn:Ha; [|done].
    destruct Hinv as [Hf Hn Hb Hm Hg].
    constructor; simpl; rewrite ?Ha, ?Hl; card_auto.
  - destruct (lifecycle s) eqn:Hl; [done| |done].
    destruct (playerShown entry); [|done].
    unfold handleSeek. destruct (audio s) eqn:Ha; [|done].
    destruct Hinv as [Hf Hn Hb Hm Hg].
    constructor; simpl; rewrite ?Ha, ?Hl; card_auto.
  - destruct (lifecycle s) eqn:Hl; [done| |done].
    destruct (elementPlaying s) eqn:Hp; [|done].
    destruct Hinv as [Hf Hn Hb Hm Hg].
    constructor; simpl; rewrite ?Hl; card_auto.
    destruct Hn as (? & ? & ? & ?). congruence.
  - destruct (lifecycle s) eqn:Hl; [done| |done].
    destruct (audio s) eqn:Ha; [|done].
    destruct Hinv as [Hf Hn Hb Hm Hg].
    constructor; simpl; rewrite ?Ha, ?Hl; card_auto.
  - destruct (lifecycle s) eqn:Hl; [done| |done].
    destruct (audio s) eqn:Ha; [|done].
    destruct Hinv as [Hf Hn Hb Hm Hg].
    constructor; simpl; rewrite ?Ha, ?Hl; card_auto.
  - destruct (lifecycle s) eqn:Hl; [done| |done].
    destruct Hinv as [Hf Hn Hb Hm Hg].
    unfold unmountCleanup.
    destruct (audioBlob entry) eqn:Hblob, (audio s) as [url|] eqn:Ha.
    + destruct (Hm Hl url eq_refl) as [Hu Hs].
      constructor; simpl; rewrite ?Ha, ?Hu, ?filter_own_url; card_auto.
    + destruct (Hn eq_refl) as (? & ? & ? & ?). constructor; simpl; card_auto.
    + by specialize (Hb eq_refl).
    + destruct (Hn eq_refl) as (? & ? & ? & ?). constructor; simpl; card_auto.
Qed.

Lemma CardInv_run (evs : list (Event Time)) s : Inv entry s -> Inv entry (run zero entry evs s).
Proof.
  revert s. induction evs as [|ev evs IH]; intros s Hs; [done|].
  apply IH. by apply CardInv_step.
Qed.

Lemma silent_step s ev :
  playerShown entry = false -> silent s -> silent (step zero entry s ev).
Proof.
  intros Hshown [Hi Hp]. destruct ev; simpl; rewrite ?Hshown, ?Hp;
    destruct (lifecycle s); try done.
  - unfold mountEffect. by destruct (audioBlob entry).
  - by destruct (audio s).
  - by destruct (audio s).
  - unfold unmountCleanup. by destruct (audioBlob entry), (audio s).
Qed.

Lemma silent_run (evs : list (Event Time)) s :
  playerShown entry = false -> silent s -> silent (run zero entry evs s).
Proof.
  intros Hshown. revert s. induction evs as [|ev evs IH]; intros s Hs; [done|].
  apply IH. by apply silent_step.
Qed.

Lemma inSync_step s ev :
  match ev with EvTogglePlay ok => ok = true | _ => True end ->
  inSync s -> inSync (step zero entry s ev).
Proof.
  intros Hok Hs. destruct ev; simpl;
    destruct (lifecycle s) eqn:Hl; try exact Hs.
  - unfold mountEffect, inSync in *. rewrite Hl in Hs.
    destruct (audioBlob entry); simpl; intros _; by apply Hs.
  - destruct (playerShown entry); [|done]. unfold togglePlay.
    destruct (audio s); [|done]. unfold inSync in *. rewrite Hl in Hs. simpl.
    rewrite Hok. intros _. by destruct (isPlaying s).
  - destruct (playerShown entry); [|done]. unfold handleSeek.
    destruct (audio s); exact Hs.
  - by destruct (elementPlaying s).
  - destruct (audio s); exact Hs.
  - destruct (audio s); exact Hs.
  - unfold unmountCleanup, inSync. by destruct (audioBlob entry), (audio s).
Qed.

Lemma inSync_run (evs : list (Event Time)) s :
  playsFulfilled evs -> inSync s -> inSync (run zero entry evs s).
Proof.
  revert s. induction evs as [|ev evs IH]; intros s Hok Hs; [done|].
  apply Forall_cons in Hok as [Hev Hok]. apply (IH _ Hok). by apply inSync_step.
Qed.

End Card.
End CardFacts.

(** X24. When a card goes away, the object URL it created is revoked,
    the element is paused and its source cleared; and at no time does a
    card hold more than one object URL, or any for an entry without
    audio. *)
Theorem card_releases_its_url {Time : Type} (zero : Time) (entry : JournalEntry)
    (evs : list (EntryCard.Event Time)) :
  let s := EntryCard.run zero entry evs (EntryCard.initial zero) in
  (EntryCard.lifecycle s = EntryCard.Unmounted ->
   EntryCard.liveUrls s = [] /\ EntryCard.elementPlaying s = false
   /\ EntryCard.elementSrc s = None)
  /\ (length (EntryCard.liveUrls s) <= 1)%nat
  /\ (audioBlob entry = None -> EntryCard.liveUrls s = [] /\ EntryCard.audio s = None).
Proof.
  intros s.
  pose proof (CardFacts.CardInv_run zero entry evs _ (CardFacts.CardInv_initial zero entry))
    as [Hf Hn Hb Hm Hg]. fold s in Hf, Hn, Hb, Hm, Hg.
  split; [exact Hg|]. split.
  - destruct (EntryCard.lifecycle s) eqn:Hl.
    + destruct (Hf eq_refl) as (_ & -> & _). simpl. lia.
    + destruct (EntryCard.audio s) as [url|] eqn:Ha.
      * destruct (Hm eq_refl url eq_refl) as [-> _]. simpl. lia.
      * destruct (Hn eq_refl) as (-> & _). simpl. lia.
    + destruct (Hg eq_refl) as (-> & _). simpl. lia.
  - intros Hblob. specialize (Hb Hblob). destruct (Hn Hb) as (? & _). done.
Qed.

(** X25. A card that does not render the player (the entry is not an
    audio entry, or has no blob) never plays anything: whatever events
    arrive, the play flag stays off and the element stays paused. *)
Theorem card_without_player_never_plays {Time : Type} (zero : Time)
    (entry : JournalEntry) (evs : list (EntryCard.Event Time)) :
  EntryCard.playerShown entry = false ->
  let s := EntryCard.run zero entry evs (EntryCard.initial zero) in
  EntryCard.isPlaying s = false /\ EntryCard.elementPlaying s = false.
Proof.
  intros Hshown s. apply (CardFacts.silent_run zero entry evs _ Hshown). done.
Qed.

Lemma card_without_player_never_plays_witness :
  let evs := [EntryCard.EvMount "blob:1"; EntryCard.EvTogglePlay true; EntryCard.EvEnded] in
  EntryCard.playerShown Sample.milk = false
  /\ EntryCard.isPlaying (EntryCard.run 0 Sample.milk evs (EntryCard.initial 0)) = false
  /\ EntryCard.elementPlaying (EntryCard.run 0 Sample.milk evs (EntryCard.initial 0)) = false.
Proof.
  split; [reflexivity|].
  exact (card_without_player_never_plays 0 Sample.milk
           [EntryCard.EvMount "blob:1"; EntryCard.EvTogglePlay true; EntryCard.EvEnded]
           eq_refl).
Defined.

(** X26. As long as every call of [play()] is fulfilled, the play flag
    of a card that is still there says what the element does: the button
    shows "pause" exactly while the element plays. *)
Theorem play_flag_follows_element {Time : Type} (zero : Time) (entry : JournalEntry)
    (evs : list (EntryCard.Event Time)) :
  EntryCard.playsFulfilled evs ->
  let s := EntryCard.run zero entry evs (EntryCard.initial zero) in
  EntryCard.lifecycle s ≠ EntryCard.Unmounted ->
  EntryCard.isPlaying s = EntryCard.elementPlaying s.
Proof.
  intros Hok s. apply (CardFacts.inSync_run zero entry evs _ Hok). done.
Qed.

Lemma play_flag_follows_element_witness :
  let clip := {| id := "v"; type := audio; content := "hello";
                 audioBlob := Some Sample.webm; timestamp := 1704103200000 |} in
  let evs := [EntryCard.EvMount "blob:1"; EntryCard.EvTogglePlay true; EntryCard.EvSeek 3;
              EntryCard.EvEnded; EntryCard.EvTogglePlay true] in
  (EntryCard.playsFulfilled evs
   /\ EntryCard.lifecycle (EntryCard.run 0 clip evs (EntryCard.initial 0))
      ≠ EntryCard.Unmounted)
  /\ EntryCard.isPlaying (EntryCard.run 0 clip evs (EntryCard.initial 0)) = true
  /\ EntryCard.elementPlaying (EntryCard.run 0 clip evs (EntryCard.initial 0)) = true.
Proof.
  assert (EntryCard.playsFulfilled
            [EntryCard.EvMount "blob:1"; EntryCard.EvTogglePlay true; EntryCard.EvSeek 3;
             EntryCard.EvEnded; EntryCard.EvTogglePlay true]) as Hok
    by (repeat constructor).
  assert (EntryCard.lifecycle
            (EntryCard.run 0
               {| id := "v"; type := audio; content := "hello";
                  audioBlob := Some Sample.webm; timestamp := 1704103200000 |}
               [EntryCard.EvMount "blob:1"; EntryCard.EvTogglePlay true; EntryCard.EvSeek 3;
                EntryCard.EvEnded; EntryCard.EvTogglePlay true]
               (EntryCard.initial 0))
          ≠ EntryCard.Unmounted) as Hl by done.
  split; [exact (conj Hok Hl)|].
  pose proof (play_flag_follows_element 0 _ _ Hok Hl) as Heq.
  split; [reflexivity|]. rewrite <- Heq. reflexivity.
Defined.
